(** * explore_prf: pixel assignment, PRF sample extraction, boundary padding

    A shallow embedding of [find_pixel_offsets], [get_prf_data] and
    [pad_prf_data] of [scripts/src/explore_prf.py], and the properties the
    specification states about them.  [get_image_slices] and
    [extract_pixel_data] (for given sources) are embedded as well, with
    further properties of the five functions and of their compositions.

    Numbers.  A numpy [float64] is modelled by [fval]: a rational, or one of
    the three non-finite values.  [round64] rounds a rational to the nearest
    [float64], ties to even, subnormal numbers and overflow to an infinity
    included.  The bounds of the rectangle of a source, the quotient
    [middle_npoints], the padding, the fit domain and the upper edges the
    samples are compared with are rounded as the code rounds them.  The
    offsets and the normalised values stored in the arrays, and the points
    of [linspace], are kept as exact rationals: their rounding is not
    modelled, nor is the sign of zero; the sum that shifts a synthetic point
    is rounded once, from the exact point.  The padding and the domain are
    taken to be finite (an overflow there needs a width, an offset or a
    padding beyond 1e307; [finite_padding] excludes it).  The propagation of
    [nan] and of the infinities through arithmetic and comparisons is
    modelled.  Python [int]s are [Z].

    Limits of the machine.  The size limits of [scipy.empty] and
    [scipy.arange] and the memory an allocation needs are not modelled: where
    the code fails for such a reason, the model may return.  The properties
    of [find_pixel_offsets] and [pad_prf_data] are therefore stated for the
    runs that return, or state that a run raises; none states that one of
    the two returns for every input of a kind.

    Arrays.  A 2-D numpy array is a list of rows; a 1-D array is a list.
    Slices, broadcasting on assignment and the exceptions they raise follow
    numpy. *)

From Stdlib Require Import QArith Qround Qpower ZArith Lia Lqa List Bool Permutation Sorted.
From stdpp Require Import base option list.
Import ListNotations.

Local Open Scope Z_scope.

(** ** Exceptions *)

Inductive exn : Type :=
| ValueError
| OverflowError
| ZeroDivisionError.

Inductive result (A : Type) : Type :=
| Ok (a : A)
| Raise (e : exn).
Arguments Ok {A} a.
Arguments Raise {A} e.

Definition bind {A B : Type} (r : result A) (k : A -> result B) : result B :=
  match r with
  | Ok a => k a
  | Raise e => Raise e
  end.

Notation "x <- r ;; k" := (bind r (fun x => k))
  (at level 100, r at next level, right associativity).

(** The body of a [for] loop that may raise, run over a list. *)
Fixpoint for_each {A S : Type} (body : S -> A -> result S) (l : list A) (st : S)
  : result S :=
  match l with
  | [] => Ok st
  | a :: l' => st' <- body st a ;; for_each body l' st'
  end.

(** ** float64 values *)

Inductive fval : Type :=
| Num (q : Q)
| PInf
| NInf
| NaN.

Definition isfinite (a : fval) : bool :=
  match a with
  | Num _ => true
  | _ => false
  end.

Definition Qsign (q : Q) : Z := Z.sgn (Qnum q).

Definition fneg (a : fval) : fval :=
  match a with
  | Num q => Num (- q)
  | PInf => NInf
  | NInf => PInf
  | NaN => NaN
  end.

Definition fadd (a b : fval) : fval :=
  match a, b with
  | NaN, _ | _, NaN => NaN
  | Num p, Num q => Num (p + q)
  | PInf, NInf | NInf, PInf => NaN
  | PInf, _ | _, PInf => PInf
  | NInf, _ | _, NInf => NInf
  end.

Definition fsub (a b : fval) : fval := fadd a (fneg b).

(** [a / b] of numpy: a division by zero gives an infinity or [nan] (and a
    warning), never an exception. *)
Definition fdiv (a b : fval) : fval :=
  match a, b with
  | NaN, _ | _, NaN => NaN
  | Num p, Num q =>
      if Qsign q =? 0 then
        (if Qsign p =? 0 then NaN else if 0 <? Qsign p then PInf else NInf)
      else Num (p / q)
  | Num _, _ => Num 0
  | PInf, Num q => if Qsign q <? 0 then NInf else PInf
  | NInf, Num q => if Qsign q <? 0 then PInf else NInf
  | _, _ => NaN
  end.

(** [a < b]; any comparison with [nan] is false. *)
Definition flt (a b : fval) : bool :=
  match a, b with
  | NaN, _ | _, NaN => false
  | Num p, Num q => negb (Qle_bool q p)
  | NInf, NInf | PInf, _ | _, NInf => false
  | NInf, _ | _, PInf => true
  end.

Definition fgt (a b : fval) : bool := flt b a.

Definition ffloor (a : fval) : fval :=
  match a with
  | Num q => Num (inject_Z (Qfloor q))
  | _ => a
  end.

Definition fceil (a : fval) : fval :=
  match a with
  | Num q => Num (inject_Z (Qceiling q))
  | _ => a
  end.

(** Numeric equality of two values (the representation of a rational is not
    unique). *)
Definition feq (a b : fval) : Prop :=
  match a, b with
  | Num p, Num q => p == q
  | PInf, PInf | NInf, NInf | NaN, NaN => True
  | _, _ => False
  end.

(** ** Rounding to float64 *)

Definition two_power (e : Z) : Q := (2 ^ e)%Q.

(** The exponent of a positive rational: [2^e <= x < 2^(e+1)]. *)
Definition ilog2 (x : Q) : Z :=
  let e0 := Z.log2 (Qnum x) - Z.log2 (Zpos (Qden x)) in
  if Qle_bool (two_power e0) x then e0 else e0 - 1.

Definition round_half_even (x : Q) : Z :=
  let f := Qfloor x in
  match (x - inject_Z f ?= 1 # 2)%Q with
  | Lt => f
  | Gt => f + 1
  | Eq => if Z.even f then f else f + 1
  end.

(** A positive rational rounded to 53 significant bits, or to a multiple of
    [2^-1074] below the normal range. *)
Definition round_magnitude (x : Q) : Q :=
  let s := Z.max (ilog2 x - 52) (-1074) in
  (inject_Z (round_half_even (x / two_power s)) * two_power s)%Q.

Definition round_nearest (x : Q) : Q :=
  match (x ?= 0)%Q with
  | Eq => 0%Q
  | Gt => Qred (round_magnitude x)
  | Lt => Qred (- round_magnitude (- x))
  end.

(** The [float64] nearest to a rational; beyond the largest one, an
    infinity. *)
Definition round64 (x : Q) : fval :=
  let v := round_nearest x in
  if Qle_bool (two_power 1024) v then PInf
  else if Qle_bool v (- two_power 1024) then NInf
  else Num v.

(** A rational that is a [float64] value. *)
Definition is_float64 (q : Q) : Prop := (round_nearest q == q)%Q.

Definition round_fval (a : fval) : fval :=
  match a with
  | Num q => round64 q
  | _ => a
  end.

(** [a + b] and [a - b] of two [float64] values, rounded. *)
Definition fadd64 (a b : fval) : fval := round_fval (fadd a b).

Definition fsub64 (a b : fval) : fval := round_fval (fsub a b).

(** ** Python built-ins *)

(** [int(a)]: truncation towards zero; [nan] and the infinities raise. *)
Definition py_int (a : fval) : result Z :=
  match a with
  | Num q => Ok (Z.quot (Qnum q) (Zpos (Qden q)))
  | NaN => Raise ValueError
  | _ => Raise OverflowError
  end.

(** [max(a, n)] returns [n] when [n > a], else [a]; [min(a, n)] returns [n]
    when [n < a], else [a]. *)
Definition py_max (a : fval) (n : Z) : fval :=
  if fgt (Num (inject_Z n)) a then Num (inject_Z n) else a.

Definition py_min (a : fval) (n : Z) : fval :=
  if flt (Num (inject_Z n)) a then Num (inject_Z n) else a.

(** [n / f] for a Python [int] and a [float]: the [int] is converted to a
    [float] first, which raises when it is too large; a zero divisor raises. *)
Definition py_truediv (n : Z) (f : Q) : result fval :=
  match round64 (inject_Z n) with
  | Num n' => if Qsign f =? 0 then Raise ZeroDivisionError else Ok (round64 (n' / f))
  | _ => Raise OverflowError
  end.

(** ** numpy helpers *)

Abbreviation array2 A := (list (list A)) (only parsing).

(** [scipy.full((rows, cols), v)] *)
Definition full {A : Type} (shape : nat * nat) (v : A) : array2 A :=
  replicate (fst shape) (replicate (snd shape) v).

Definition at2 {A : Type} (a : array2 A) (y x : nat) : option A :=
  row ← a !! y; row !! x.

Definition imap2 {A B : Type} (f : nat -> nat -> A -> B) (a : array2 A) : array2 B :=
  imap (fun y row => imap (fun x c => f y x c) row) a.

(** One bound of a slice over an axis of length [n]: a negative bound counts
    from the end, and the result is clipped to [0, n]. *)
Definition slice_bound (n : nat) (a : Z) : nat :=
  Z.to_nat (if a <? 0 then Z.max (a + Z.of_nat n) 0 else Z.min a (Z.of_nat n)).

(** [scipy.arange(a, b)] *)
Definition arange (a b : Z) : list Z :=
  map (fun k => a + Z.of_nat k) (seq 0 (Z.to_nat (b - a))).

(** Assigning a 1-D array to an axis of length [n]: the lengths agree, or the
    array has one element, which is repeated; anything else raises. *)
Definition broadcast_to {A : Type} (n : nat) (v : list A) : result (list A) :=
  if (length v =? n)%nat then Ok v
  else match v with
       | [a] => Ok (replicate n a)
       | _ => Raise ValueError
       end.

(** ** find_pixel_offsets *)

Record source : Type := {
  src_x : fval;
  src_y : fval;
  src_flux : fval;
  src_bg : fval
}.

Record cell : Type := {
  x_off : fval;
  y_off : fval;
  norm : fval;
  zero_point : fval
}.

Definition nan_cell : cell :=
  {| x_off := NaN; y_off := NaN; norm := NaN; zero_point := NaN |}.

(** [prf_range]: width, height, x and y offset (prf_range[0..3]). *)
Record prf_range_t : Type := {
  pr_width : Q;
  pr_height : Q;
  pr_x_offset : Q;
  pr_y_offset : Q
}.

(** [cKDTree.query_ball_point(data, r, return_length=True)] at one point: the
    number of tree points in the closed ball of radius [r >= 0] around it,
    compared on squared Euclidean distances. *)
Definition within (r : Q) (p q : source) : bool :=
  match src_x p, src_y p, src_x q, src_y q with
  | Num px, Num py, Num qx, Num qy =>
      Qle_bool ((px - qx) * (px - qx) + (py - qy) * (py - qy)) (r * r)
  | _, _, _, _ => false
  end.

Definition query_ball_count (sources : list source) (r : Q) (p : source) : nat :=
  length (List.filter (within r p) sources).

Definition crowded_flags (sources : list source) (crowding_distance : Q) : list bool :=
  map (fun p => (1 <? query_ball_count sources crowding_distance p)%nat) sources.

(** The four bounds [min_x, max_x, min_y, max_y] computed for a source. *)
Definition source_bounds (prf_range : prf_range_t) (image_resolution : nat * nat)
    (this_source : source) : result (Z * Z * Z * Z) :=
  min_x <- py_int (py_max (ffloor (fsub64 (src_x this_source)
                                          (Num (pr_x_offset prf_range)))) 0) ;;
  max_x <- py_int (py_min (fceil (fadd64 (fsub64 (src_x this_source)
                                                 (Num (pr_x_offset prf_range)))
                                         (Num (pr_width prf_range))))
                          (Z.of_nat (snd image_resolution))) ;;
  min_y <- py_int (py_max (ffloor (fsub64 (src_y this_source)
                                          (Num (pr_y_offset prf_range)))) 0) ;;
  max_y <- py_int (py_min (fceil (fadd64 (fsub64 (src_y this_source)
                                                 (Num (pr_y_offset prf_range)))
                                         (Num (pr_height prf_range))))
                          (Z.of_nat (fst image_resolution))) ;;
  Ok (min_x, max_x, min_y, max_y).

(** The pixels selected by [a[min_y : max_y, min_x : max_x]] in an array of
    the image's shape. *)
Definition in_patch (image_resolution : nat * nat) (b : Z * Z * Z * Z)
    (y x : nat) : bool :=
  let '(min_x, max_x, min_y, max_y) := b in
  (slice_bound (fst image_resolution) min_y <=? y)%nat
  && (y <? slice_bound (fst image_resolution) max_y)%nat
  && (slice_bound (snd image_resolution) min_x <=? x)%nat
  && (x <? slice_bound (snd image_resolution) max_x)%nat.

(** [scipy.arange(lo, hi) - centre + 0.5] *)
Definition offsets_1d (lo hi : Z) (centre : fval) : list fval :=
  map (fun k => fadd (fsub (Num (inject_Z k)) centre) (Num (1 # 2))) (arange lo hi).

Definition get_cell (a : array2 cell) (y x : nat) : cell :=
  default nan_cell (at2 a y x).

(** The body of the loop over [zip(sources, crowded_flags)]; the state is the
    pair of arrays [result] and [shared]. *)
Definition process_source (prf_range : prf_range_t) (image_resolution : nat * nat)
    (st : array2 cell * array2 bool) (sc : source * bool)
  : result (array2 cell * array2 bool) :=
  let '(result, shared) := st in
  let '(this_source, crowded) := sc in
  b <- source_bounds prf_range image_resolution this_source ;;
  let '(min_x, max_x, min_y, max_y) := b in
  let x0 := slice_bound (snd image_resolution) min_x in
  let x1 := slice_bound (snd image_resolution) max_x in
  let y0 := slice_bound (fst image_resolution) min_y in
  let y1 := slice_bound (fst image_resolution) max_y in
  let shared' :=
    imap2 (fun y x s =>
             if in_patch image_resolution b y x then
               if crowded then true
               else if isfinite (x_off (get_cell result y x)) then true else s
             else s) shared in
  xs <- broadcast_to (x1 - x0) (offsets_1d min_x max_x (src_x this_source)) ;;
  ys <- broadcast_to (y1 - y0) (offsets_1d min_y max_y (src_y this_source)) ;;
  let result' :=
    imap2 (fun y x c =>
             if in_patch image_resolution b y x then
               {| x_off := nth (x - x0) xs NaN;
                  y_off := nth (y - y0) ys NaN;
                  norm := src_flux this_source;
                  zero_point := src_bg this_source |}
             else c) result in
  Ok (result', shared').

(** [result[shared] = scipy.nan] *)
Definition invalidate (result : array2 cell) (shared : array2 bool) : array2 cell :=
  imap2 (fun y x c => if default false (at2 shared y x) then nan_cell else c) result.

Definition find_pixel_offsets (sources : list source) (prf_range : prf_range_t)
    (image_resolution : nat * nat) (crowding_distance : Q) : result (array2 cell) :=
  let result := full image_resolution nan_cell in
  let shared := full image_resolution false in
  st <- for_each (process_source prf_range image_resolution)
                 (zip sources (crowded_flags sources crowding_distance))
                 (result, shared) ;;
  Ok (invalidate (fst st) (snd st)).

(** ** get_prf_data *)

(** One column of the 4 x N array of PRF measurements: x offset, y offset,
    normalized value, normalized error (rows 0 to 3). *)
Record sample : Type := {
  s_x : fval;
  s_y : fval;
  s_value : fval;
  s_error : fval
}.

Definition same_shape {A B : Type} (a : array2 A) (b : array2 B) : bool :=
  bool_decide (map length a = map length b).

(** An operation on two arrays, element by element; arrays of different shapes
    raise (the caller passes three equally sliced arrays; broadcasting of
    unit axes is not modelled). *)
Definition elementwise {A B C : Type} (f : A -> B -> C) (a : array2 A) (b : array2 B)
  : result (array2 C) :=
  if same_shape a b then Ok (zip_with (zip_with f) a b) else Raise ValueError.

(** [a[mask]] for a 1-D array and a boolean array of the same length. *)
Fixpoint mask_select {A : Type} (a : list A) (mask : list bool) : list A :=
  match a, mask with
  | v :: a', m :: mask' =>
      if m then v :: mask_select a' mask' else mask_select a' mask'
  | _, _ => []
  end.

(** [a[mask]] for 2-D arrays of one shape: the selected elements in row-major
    order. *)
Definition mask_select2 {A : Type} (a : array2 A) (mask : array2 bool) : list A :=
  mask_select (concat a) (concat mask).

(** [scipy.stack] of four 1-D arrays of one length, column by column. *)
Definition stack4 (xs ys vs es : list fval) : list sample :=
  zip_with (fun xy ve => {| s_x := fst xy; s_y := snd xy;
                            s_value := fst ve; s_error := snd ve |})
           (zip xs ys) (zip vs es).

Definition field2 (f : cell -> fval) (a : array2 cell) : array2 fval :=
  map (map f) a.

Definition get_prf_data (pixel_values pixel_stddev : array2 fval)
    (pixel_offsets : array2 cell) (error_threshold : Q) : result (list sample) :=
  prf_measurements <-
    elementwise (fun v c => fdiv (fsub v (zero_point c)) (norm c))
                pixel_values pixel_offsets ;;
  prf_errors <-
    elementwise (fun s c => fdiv s (norm c)) pixel_stddev pixel_offsets ;;
  include <-
    elementwise (fun m e => isfinite m && isfinite e) prf_measurements prf_errors ;;
  include <-
    elementwise (fun i e => i && flt e (Num error_threshold)) include prf_errors ;;
  Ok (stack4 (mask_select2 (field2 x_off pixel_offsets) include)
             (mask_select2 (field2 y_off pixel_offsets) include)
             (mask_select2 prf_measurements include)
             (mask_select2 prf_errors include)).

(** ** pad_prf_data *)

Record cmdline_args_t : Type := {
  prf_range : prf_range_t;
  spline_pad_fraction : Q;
  spline_pad_npoints : Z
}.

(** The array [padded_prf_data], row by row.  [scipy.empty] leaves the entries
    unwritten: [None] stands for an entry nothing was stored in yet. *)
Record array4 : Type := {
  row0 : list (option fval);
  row1 : list (option fval);
  row2 : list (option fval);
  row3 : list (option fval)
}.

Definition empty4 (n : Z) : result array4 :=
  if n <? 0 then Raise ValueError
  else let r := replicate (Z.to_nat n) (@None fval) in
       Ok {| row0 := r; row1 := r; row2 := r; row3 := r |}.

(** [row[a : b] = vals] *)
Definition slice_assign (row : list (option fval)) (a b : Z) (vals : list fval)
  : result (list (option fval)) :=
  let s := slice_bound (length row) a in
  let e := slice_bound (length row) b in
  vals' <- broadcast_to (e - s) vals ;;
  Ok (take s row ++ map Some vals' ++ drop (s + (e - s)) row).

(** [row[a :] = v] for a scalar [v] *)
Definition slice_fill (row : list (option fval)) (a : Z) (v : fval)
  : list (option fval) :=
  let s := slice_bound (length row) a in
  take s row ++ replicate (length row - s) (Some v).

(** [a.min()]: raises on an empty array; a [nan] entry makes the minimum
    [nan]. *)
Definition fmin (a b : fval) : fval :=
  match a, b with
  | NaN, _ | _, NaN => NaN
  | _, _ => if flt b a then b else a
  end.

Definition np_min (a : list fval) : result fval :=
  match a with
  | [] => Raise ValueError
  | v :: a' => Ok (fold_left fmin a' v)
  end.

(** [scipy.linspace(a, b, num)]: [num] evenly spaced points from [a] to [b],
    both included; a negative [num] raises. *)
Definition linspace_points (a b : Q) (num : Z) : list Q :=
  map (fun i => (a + inject_Z (Z.of_nat i) * ((b - a) / inject_Z (num - 1)))%Q)
      (seq 0 (Z.to_nat num)).

Definition linspace (a b : Q) (num : Z) : result (list Q) :=
  if num <? 0 then Raise ValueError else Ok (linspace_points a b num).

(** [a[1:-1]] *)
Definition strip_ends {A : Type} (a : list A) : list A := removelast (tl a).

(** [scipy.meshgrid(xs, ys)], each of the two arrays flattened. *)
Definition meshgrid_x {A B : Type} (xs : list A) (ys : list B) : list A :=
  concat (map (fun _ => xs) ys).

Definition meshgrid_y {A B : Type} (xs : list A) (ys : list B) : list B :=
  concat (map (fun y => map (fun _ => y) xs) ys).

(** [a + offset], element by element, each sum rounded. *)
Definition shifted (a : list Q) (offset : Q) : list fval :=
  map (fun v => round64 (v + offset)) a.

(** The mask [keep_prf_data]: the sample lies strictly between [-x_offset]
    and the float [width - x_offset], and likewise in y. *)
Definition keep_prf_data (cmdline_args : cmdline_args_t) (s : sample) : bool :=
  let r := prf_range cmdline_args in
  (fgt (s_x s) (Num (- pr_x_offset r))
   && flt (s_x s) (fsub64 (Num (pr_width r)) (Num (pr_x_offset r))))
  && (fgt (s_y s) (Num (- pr_y_offset r))
      && flt (s_y s) (fsub64 (Num (pr_height r)) (Num (pr_y_offset r)))).

Definition num_keep (prf_data : list sample) (cmdline_args : cmdline_args_t) : Z :=
  Z.of_nat (length (List.filter (keep_prf_data cmdline_args) prf_data)).

Definition x_padding (cmdline_args : cmdline_args_t) : Q :=
  round_nearest (pr_width (prf_range cmdline_args) * spline_pad_fraction cmdline_args).

Definition y_padding (cmdline_args : cmdline_args_t) : Q :=
  round_nearest (pr_height (prf_range cmdline_args) * spline_pad_fraction cmdline_args).

(** [(-x_offset - x_padding, width - x_offset + x_padding, ...)], each
    operation rounded. *)
Definition domain (cmdline_args : cmdline_args_t) : Q * Q * Q * Q :=
  let r := prf_range cmdline_args in
  (round_nearest (- pr_x_offset r - x_padding cmdline_args),
   round_nearest (round_nearest (pr_width r - pr_x_offset r) + x_padding cmdline_args),
   round_nearest (- pr_y_offset r - y_padding cmdline_args),
   round_nearest (round_nearest (pr_height r - pr_y_offset r) + y_padding cmdline_args)).

(** [int(spline_pad_npoints / spline_pad_fraction)]: a Python [int] divided
    by a Python [float], the quotient rounded to a [float] and then
    truncated. *)
Definition middle_npoints (cmdline_args : cmdline_args_t) : result Z :=
  q <- py_truediv (spline_pad_npoints cmdline_args) (spline_pad_fraction cmdline_args) ;;
  py_int q.

(** Store [xs] and [ys] in rows 0 and 1 from column [xy_padding_start] on, and
    advance that position by the size of [xs]. *)
Definition write_xy (st : array4 * Z) (xs ys : list fval) : result (array4 * Z) :=
  let '(padded, xy_padding_start) := st in
  let stop := xy_padding_start + Z.of_nat (length xs) in
  r0 <- slice_assign (row0 padded) xy_padding_start stop xs ;;
  r1 <- slice_assign (row1 padded) xy_padding_start stop ys ;;
  Ok ({| row0 := r0; row1 := r1; row2 := row2 padded; row3 := row3 padded |},
      stop).

(** The two nested loops of [pad_prf_data] that store the coordinates of the
    synthetic points; the state is [padded_prf_data], [xy_padding_start] and
    [add_mid_x]. *)
Definition fill_padding (corner_x corner_y mid_x_x mid_x_y mid_y_x mid_y_y : list Q)
    (domain : Q * Q * Q * Q) (x_padding y_padding : Q) (st : array4 * Z)
  : result (array4 * Z * bool) :=
  for_each
    (fun (st : array4 * Z * bool) (x_offset : Q) =>
       let '(padded, xy_padding_start, add_mid_x) := st in
       st <- write_xy (padded, xy_padding_start)
                      (shifted mid_y_x x_offset) (map Num mid_y_y) ;;
       st <- for_each
               (fun (st : array4 * Z) (y_offset : Q) =>
                  st <- (if add_mid_x
                         then write_xy st (map Num mid_x_x) (shifted mid_x_y y_offset)
                         else Ok st) ;;
                  write_xy st (shifted corner_x x_offset) (shifted corner_y y_offset))
               [domain.1.2; round_nearest (domain.2 - y_padding)] st ;;
       Ok (st, false))
    [domain.1.1.1; round_nearest (domain.1.1.2 - x_padding)]
    (st, true).

(** The locals [padded_prf_data], [xy_padding_start] and [domain] when
    [pad_prf_data] returns. *)
Definition pad_prf_data_state (prf_data : list sample) (cmdline_args : cmdline_args_t)
  : result (array4 * Z * (Q * Q * Q * Q)) :=
  let r := prf_range cmdline_args in
  let kept := List.filter (keep_prf_data cmdline_args) prf_data in
  let num_keep := num_keep prf_data cmdline_args in
  let x_padding := x_padding cmdline_args in
  let y_padding := y_padding cmdline_args in
  let domain := domain cmdline_args in
  let npoints := spline_pad_npoints cmdline_args in
  middle_npoints <- middle_npoints cmdline_args ;;
  padded <- empty4 (num_keep + 4 * npoints * (middle_npoints + npoints)) ;;
  r0 <- slice_assign (row0 padded) 0 num_keep (map s_x kept) ;;
  r1 <- slice_assign (row1 padded) 0 num_keep (map s_y kept) ;;
  r2 <- slice_assign (row2 padded) 0 num_keep (map s_value kept) ;;
  r3 <- slice_assign (row3 padded) 0 num_keep (map s_error kept) ;;
  let r2 := slice_fill r2 num_keep (Num 0) in
  min_error <- np_min (map s_error kept) ;;
  let r3 := slice_fill r3 num_keep (fdiv min_error (Num (inject_Z num_keep))) in
  let padded := {| row0 := r0; row1 := r1; row2 := r2; row3 := r3 |} in
  let xy_padding_start := num_keep in
  cx <- linspace 0 x_padding npoints ;;
  cy <- linspace 0 y_padding npoints ;;
  let corner_x := meshgrid_x cx cy in
  let corner_y := meshgrid_y cx cy in
  mxx <- linspace (- pr_x_offset r) (round_nearest (pr_width r - pr_x_offset r))
                  (middle_npoints + 2) ;;
  mxy <- linspace 0 y_padding npoints ;;
  let mid_x_x := meshgrid_x (strip_ends mxx) mxy in
  let mid_x_y := meshgrid_y (strip_ends mxx) mxy in
  myx <- linspace 0 x_padding npoints ;;
  myy <- linspace (- pr_y_offset r) (round_nearest (pr_height r - pr_y_offset r))
                  (middle_npoints + 2) ;;
  let mid_y_x := meshgrid_x myx (strip_ends myy) in
  let mid_y_y := meshgrid_y myx (strip_ends myy) in
  st <- fill_padding corner_x corner_y mid_x_x mid_x_y mid_y_x mid_y_y
                     domain x_padding y_padding (padded, xy_padding_start) ;;
  Ok (st.1, domain).

Definition pad_prf_data (prf_data : list sample) (cmdline_args : cmdline_args_t)
  : result (array4 * (Q * Q * Q * Q)) :=
  st <- pad_prf_data_state prf_data cmdline_args ;;
  Ok (st.1.1, st.2).

(** ** Notions the properties are stated with *)

(** The pixel [(y, x)] lies in the rectangle [min_x <= x < max_x],
    [min_y <= y < max_y]. *)
Definition in_rect (b : Z * Z * Z * Z) (y x : nat) : bool :=
  let '(min_x, max_x, min_y, max_y) := b in
  (min_x <=? Z.of_nat x) && (Z.of_nat x <? max_x)
  && (min_y <=? Z.of_nat y) && (Z.of_nat y <? max_y).

(** The pixel lies in the clipped extraction rectangle of a source. *)
Definition covers (prf_range : prf_range_t) (image_resolution : nat * nat)
    (s : source) (y x : nat) : bool :=
  match source_bounds prf_range image_resolution s with
  | Ok b => in_rect b y x
  | Raise _ => false
  end.

(** What a source stores in a pixel of its rectangle. *)
Definition assigned_cell (s : source) (y x : nat) : cell :=
  {| x_off := fadd (fsub (Num (inject_Z (Z.of_nat x))) (src_x s)) (Num (1 # 2));
     y_off := fadd (fsub (Num (inject_Z (Z.of_nat y))) (src_y s)) (Num (1 # 2));
     norm := src_flux s;
     zero_point := src_bg s |}.

(** The effect of one source on one pixel: its cell and its [shared] flag. *)
Definition pixel_step (prf_range : prf_range_t) (image_resolution : nat * nat)
    (y x : nat) (st : cell * bool) (sc : source * bool) : cell * bool :=
  if covers prf_range image_resolution sc.1 y x
  then (assigned_cell sc.1 y x, sc.2 || isfinite (x_off st.1) || st.2)
  else st.

(** The distance of two sources is at most [r]. *)
Definition distance_le (r : Q) (p q : source) : Prop :=
  exists px py qx qy : Q,
    src_x p = Num px /\ src_y p = Num py /\ src_x q = Num qx /\ src_y q = Num qy /\
    (0 <= r)%Q /\ ((px - qx) * (px - qx) + (py - qy) * (py - qy) <= r * r)%Q.


(** The range, the padding and with them the domain stay far below the
    largest [float64]: no operation of the domain overflows. *)
Definition finite_padding (cmdline_args : cmdline_args_t) : Prop :=
  let r := prf_range cmdline_args in
  let f := spline_pad_fraction cmdline_args in
  Forall (fun q => (- two_power 1022 < q < two_power 1022)%Q)
         [pr_width r; pr_height r; pr_x_offset r; pr_y_offset r;
          (pr_width r * f)%Q; (pr_height r * f)%Q].

(** The loop of [find_pixel_offsets] runs over [zip(sources, crowded_flags)]. *)
Definition source_list (sources : list source) (crowding_distance : Q)
  : list (source * bool) :=
  zip sources (crowded_flags sources crowding_distance).

(** A source passes through the loop body without raising; this depends on
    the source alone, not on the arrays. *)
Definition source_ok (pr : prf_range_t) (res : nat * nat) (s : source) : Prop :=
  exists min_x max_x min_y max_y xs ys,
    source_bounds pr res s = Ok (min_x, max_x, min_y, max_y) /\
    broadcast_to (slice_bound (snd res) max_x - slice_bound (snd res) min_x)
                 (offsets_1d min_x max_x (src_x s)) = Ok xs /\
    broadcast_to (slice_bound (fst res) max_y - slice_bound (fst res) min_y)
                 (offsets_1d min_y max_y (src_y s)) = Ok ys.

(** For one pixel and a list of sources with their flags: the number of
    rectangles that contain the pixel, whether a crowded source's rectangle
    does, and the cell the pixel ends with. *)
Definition cover_count (pr : prf_range_t) (res : nat * nat) (y x : nat)
    (l : list (source * bool)) : nat :=
  length (List.filter (fun sc => covers pr res sc.1 y x) l).

Definition crowded_cover (pr : prf_range_t) (res : nat * nat) (y x : nat)
    (l : list (source * bool)) : bool :=
  existsb (fun sc => covers pr res sc.1 y x && sc.2) l.

Definition final_cell (pr : prf_range_t) (res : nat * nat) (y x : nat)
    (l : list (source * bool)) : cell :=
  let st := fold_left (pixel_step pr res y x) l (nan_cell, false) in
  if st.2 then nan_cell else st.1.

(** The eight blocks of synthetic coordinates, in the order the loops store
    them: per x offset a strip of mid-edge points, then per y offset a strip
    (first x offset only) and a corner. *)
Definition padding_blocks (corner_x corner_y mid_x_x mid_x_y mid_y_x mid_y_y : list Q)
    (domain : Q * Q * Q * Q) (x_padding y_padding : Q)
  : list (list fval * list fval) :=
  let x_lo := domain.1.1.1 in
  let x_hi := round_nearest (domain.1.1.2 - x_padding) in
  let y_lo := domain.1.2 in
  let y_hi := round_nearest (domain.2 - y_padding) in
  [ (shifted mid_y_x x_lo, map Num mid_y_y);
    (map Num mid_x_x, shifted mid_x_y y_lo);
    (shifted corner_x x_lo, shifted corner_y y_lo);
    (map Num mid_x_x, shifted mid_x_y y_hi);
    (shifted corner_x x_lo, shifted corner_y y_hi);
    (shifted mid_y_x x_hi, map Num mid_y_y);
    (shifted corner_x x_hi, shifted corner_y y_lo);
    (shifted corner_x x_hi, shifted corner_y y_hi) ].

(** The blocks [pad_prf_data] stores for a configuration whose
    [middle_npoints] is [mid]. *)
Definition synthetic_blocks (cmdline_args : cmdline_args_t) (mid : Z)
  : list (list fval * list fval) :=
  let r := prf_range cmdline_args in
  let npoints := spline_pad_npoints cmdline_args in
  let cx := linspace_points 0 (x_padding cmdline_args) npoints in
  let cy := linspace_points 0 (y_padding cmdline_args) npoints in
  let mxx := linspace_points (- pr_x_offset r) (round_nearest (pr_width r - pr_x_offset r))
                             (mid + 2) in
  let myy := linspace_points (- pr_y_offset r) (round_nearest (pr_height r - pr_y_offset r))
                             (mid + 2) in
  padding_blocks (meshgrid_x cx cy) (meshgrid_y cx cy)
                 (meshgrid_x (strip_ends mxx) cy) (meshgrid_y (strip_ends mxx) cy)
                 (meshgrid_x cx (strip_ends myy)) (meshgrid_y cx (strip_ends myy))
                 (domain cmdline_args) (x_padding cmdline_args) (y_padding cmdline_args).

(** The real samples [pad_prf_data] keeps. *)
Definition kept_samples (prf_data : list sample) (cmdline_args : cmdline_args_t)
  : list sample :=
  List.filter (keep_prf_data cmdline_args) prf_data.

(** [padded_prf_data] when the fill loops start: the kept samples in the
    first columns, then [n] columns with value 0, the error floor, and
    coordinates not yet written. *)
Definition real_samples_array (kept : list sample) (n : nat) (error_floor : fval)
  : array4 :=
  {| row0 := map Some (map s_x kept) ++ replicate n None;
     row1 := map Some (map s_y kept) ++ replicate n None;
     row2 := map Some (map s_value kept) ++ replicate n (Some (Num 0));
     row3 := map Some (map s_error kept) ++ replicate n (Some error_floor) |}.

Definition write_all (blocks : list (list fval * list fval)) (st : array4 * Z)
  : result (array4 * Z) :=
  for_each (fun st w => write_xy st w.1 w.2) blocks st.

(** The PRF sample of one pixel, and the test a sample must pass to be
    returned. *)
Definition sample_of (v s : fval) (c : cell) : sample :=
  {| s_x := x_off c; s_y := y_off c;
     s_value := fdiv (fsub v (zero_point c)) (norm c);
     s_error := fdiv s (norm c) |}.

Definition included (error_threshold : Q) (smp : sample) : bool :=
  isfinite (s_value smp) && isfinite (s_error smp)
  && flt (s_error smp) (Num error_threshold).

(** The samples of all pixels of a patch, as an array of the patch's shape. *)
Definition samples2 (pixel_values pixel_stddev : array2 fval)
    (pixel_offsets : array2 cell) : array2 sample :=
  zip_with (zip_with (fun v sc => sample_of v sc.1 sc.2))
           pixel_values (zip_with zip pixel_stddev pixel_offsets).

(** ** Example inputs *)

(** The default [--prf-range] and a 20 x 20 image. *)
Definition range_11_8_4_4 : prf_range_t :=
  {| pr_width := 11; pr_height := 8; pr_x_offset := 4; pr_y_offset := 4 |}.

Definition res_20_20 : nat * nat := (20%nat, 20%nat).

Definition source_at (x y : Q) : source :=
  {| src_x := Num x; src_y := Num y; src_flux := Num 100; src_bg := Num 5 |}.

Definition sample_at (x y v e : Q) : sample :=
  {| s_x := Num x; s_y := Num y; s_value := Num v; s_error := Num e |}.

(** Three samples, the second outside the default rectangle; one padding
    point per direction and a pad fraction of one half. *)
Definition three_samples : list sample :=
  [sample_at 0 0 1 (1 # 10); sample_at 20 0 1 (1 # 100); sample_at 1 1 (1 # 2) (1 # 20)].

Definition args_half_1 : cmdline_args_t :=
  {| prf_range := range_11_8_4_4; spline_pad_fraction := 1 # 2;
     spline_pad_npoints := 1 |}.

Definition padded_three_samples : array4 * Z * (Q * Q * Q * Q) :=
  Eval vm_compute in
    match pad_prf_data_state three_samples args_half_1 with
    | Ok st => st
    | Raise _ => ({| row0 := []; row1 := []; row2 := []; row3 := [] |}, 0, (0, 0, 0, 0)%Q)
    end.

(** One padding point per direction and a pad fraction of -1, which
    [pad_prf_data] does not reject. *)
Definition args_minus_one_1 : cmdline_args_t :=
  {| prf_range := range_11_8_4_4; spline_pad_fraction := -1;
     spline_pad_npoints := 1 |}.

Definition padded_negative_fraction : array4 * Z * (Q * Q * Q * Q) :=
  Eval vm_compute in
    match pad_prf_data_state three_samples args_minus_one_1 with
    | Ok st => st
    | Raise _ => ({| row0 := []; row1 := []; row2 := []; row3 := [] |}, 0, (0, 0, 0, 0)%Q)
    end.

(** The defaults of the command line: 100 padding points and a pad fraction
    of 0.01, whose [float64] is a little above 1/100. *)
Definition args_defaults : cmdline_args_t :=
  {| prf_range := range_11_8_4_4;
     spline_pad_fraction := 5764607523034235 # 576460752303423488;
     spline_pad_npoints := 100 |}.

(** A pad fraction of [2^-60] and no padding points: the padding is far
    below the spacing of the floats around the edges of the rectangle. *)
Definition args_tiny_fraction : cmdline_args_t :=
  {| prf_range := range_11_8_4_4; spline_pad_fraction := 1 # 1152921504606846976;
     spline_pad_npoints := 0 |}.

Definition padded_tiny_fraction : array4 * Z * (Q * Q * Q * Q) :=
  Eval vm_compute in
    match pad_prf_data_state three_samples args_tiny_fraction with
    | Ok st => st
    | Raise _ => ({| row0 := []; row1 := []; row2 := []; row3 := [] |}, 0, (0, 0, 0, 0)%Q)
    end.

(** The smallest positive [float64] as pad fraction. *)
Definition args_subnormal_fraction : cmdline_args_t :=
  {| prf_range := range_11_8_4_4; spline_pad_fraction := two_power (-1074);
     spline_pad_npoints := 100 |}.

(** A width of [11 + 2^-49] in an image of 2000 columns, and the position
    [4 + 2^-50], the float next to 4. *)
Definition range_wider : prf_range_t :=
  {| pr_width := 6192449487634433 # 562949953421312; pr_height := 8;
     pr_x_offset := 4; pr_y_offset := 4 |}.

Definition res_20_2000 : nat * nat := (20%nat, 2000%nat).

Definition next_after_4 : Q := 4503599627370497 # 1125899906842624.

(** A 6 x 8 image, a 3 x 2 extraction rectangle, and two sources two pixels
    apart whose rectangles share the columns 3 and 4. *)
Definition range_3_2_1_1 : prf_range_t :=
  {| pr_width := 3; pr_height := 2; pr_x_offset := 1; pr_y_offset := 1 |}.

Definition res_6_8 : nat * nat := (6%nat, 8%nat).

Definition two_sources : list source :=
  [source_at (5 # 2) (5 # 2); source_at (9 # 2) (5 # 2)].

Definition grid_of (r : result (list (list cell))) : list (list cell) :=
  match r with
  | Ok g => g
  | Raise _ => []
  end.

Definition grid_two_sources : list (list cell) :=
  Eval vm_compute in grid_of (find_pixel_offsets two_sources range_3_2_1_1 res_6_8 1).

(** Two sources half a pixel apart, with a crowding distance of 1. *)
Definition close_sources : list source :=
  [source_at (5 # 2) (5 # 2); source_at 3 (5 # 2)].

Definition grid_close_sources : list (list cell) :=
  Eval vm_compute in grid_of (find_pixel_offsets close_sources range_3_2_1_1 res_6_8 1).

(** One source at (10, 10) in a 20 x 20 image, with the default range. *)
Definition grid_one_source : list (list cell) :=
  Eval vm_compute in
    grid_of (find_pixel_offsets [source_at 10 10] range_11_8_4_4 res_20_20 1).

(** A patch of two pixels: one assigned to that source, one invalid. *)
Definition patch_values : list (list fval) := [[Num 55; Num 3]].
Definition patch_stddev : list (list fval) := [[Num 1; Num 1]].
Definition patch_offsets : list (list cell) :=
  [[ {| x_off := Num (1 # 2); y_off := Num (1 # 2); norm := Num 100; zero_point := Num 5 |};
     nan_cell ]].

(** ** get_image_slices *)

(** The direction of an image split, ['x'] or ['y'] (parse_image_split
    asserts that it is one of the two). *)
Inductive direction : Type :=
| DirX
| DirY.

(** [slice(start, stop)]; a [stop] of [None] runs to the end of the axis. *)
Record py_slice : Type := {
  sl_start : Z;
  sl_stop : option Z
}.

(** The order of the tuples [(direction, value)]: by direction, ['x'] before
    ['y'], then by value. *)
Definition split_le (a b : direction * Z) : bool :=
  match a.1, b.1 with
  | DirX, DirY => true
  | DirY, DirX => false
  | _, _ => a.2 <=? b.2
  end.

(** [sorted(splits)] *)
Fixpoint insert_split (a : direction * Z) (l : list (direction * Z))
  : list (direction * Z) :=
  match l with
  | [] => [a]
  | b :: l' => if split_le a b then a :: l else b :: insert_split a l'
  end.

Definition py_sorted (l : list (direction * Z)) : list (direction * Z) :=
  fold_right insert_split [] l.

(** [l[-1] = slice(l[-1].start, value)] followed by
    [l.append(slice(value, None))]; on an empty list [l[-1]] raises. *)
Definition end_slice_at (l : list py_slice) (value : Z) : option (list py_slice) :=
  match last l with
  | None => None
  | Some s =>
      Some (removelast l ++ [{| sl_start := sl_start s; sl_stop := Some value |}]
            ++ [{| sl_start := value; sl_stop := None |}])
  end.

(** The body of the loop over the sorted splits; the state is the dictionary
    [split_slices], its ['x'] and its ['y'] entry. *)
Definition add_split (split_slices : list py_slice * list py_slice)
    (dv : direction * Z) : option (list py_slice * list py_slice) :=
  match dv.1 with
  | DirX => l ← end_slice_at split_slices.1 dv.2; Some (l, split_slices.2)
  | DirY => l ← end_slice_at split_slices.2 dv.2; Some (split_slices.1, l)
  end.

Fixpoint add_splits (l : list (direction * Z))
    (split_slices : list py_slice * list py_slice)
  : option (list py_slice * list py_slice) :=
  match l with
  | [] => Some split_slices
  | dv :: l' => d ← add_split split_slices dv; add_splits l' d
  end.

(** [get_image_slices]: [None] stands for the [IndexError] of [l[-1]] on an
    empty list; the line the function prints is left out. *)
Definition get_image_slices (splits : list (direction * Z))
  : option (list (py_slice * py_slice)) :=
  let whole := {| sl_start := 0; sl_stop := None |} in
  split_slices ← add_splits (py_sorted splits) ([whole], [whole]);
  Some (flat_map (fun x_split => map (fun y_split => (x_split, y_split)) split_slices.2)
                 split_slices.1).

(** ** Slicing arrays *)

(** The indices [a[s]] selects on an axis of length [n]: from the lower to the
    upper bound, both normalised as Python does. *)
Definition slice_lo (n : nat) (s : py_slice) : nat := slice_bound n (sl_start s).

Definition slice_hi (n : nat) (s : py_slice) : nat :=
  match sl_stop s with
  | None => n
  | Some v => slice_bound n v
  end.

Definition in_slice (n : nat) (s : py_slice) (i : nat) : bool :=
  (slice_lo n s <=? i)%nat && (i <? slice_hi n s)%nat.

(** [a[s]] *)
Definition slice1 {A : Type} (s : py_slice) (a : list A) : list A :=
  drop (slice_lo (length a) s) (take (slice_hi (length a) s) a).

(** [a[y_slice, x_slice]] *)
Definition slice2 {A : Type} (y_slice x_slice : py_slice) (a : array2 A) : array2 A :=
  map (slice1 x_slice) (slice1 y_slice a).

(** ** extract_pixel_data *)

(** What a call ends with when the function has [assert] statements. *)
Inductive outcome (A : Type) : Type :=
| Returns (a : A)
| Raises (e : exn)
| AssertionFails.
Arguments Returns {A} a.
Arguments Raises {A} e.
Arguments AssertionFails {A}.

Definition outcome_of {A : Type} (r : result A) : outcome A :=
  match r with
  | Ok a => Returns a
  | Raise e => Raises e
  end.

(** The HDU of the opened frame that holds the image (the first one whose
    header has a non-zero [NAXIS]): its header's [NAXIS1] and [NAXIS2], its
    data, and the data of the next HDU, the standard deviations. *)
Record frame_t : Type := {
  naxis1 : nat;
  naxis2 : nat;
  frame_data : list (list fval);
  frame_stddev : list (list fval)
}.

(** The attributes of [cmdline_args] that [extract_pixel_data] reads besides
    those of [pad_prf_data]. *)
Record extract_args_t : Type := {
  pad_args : cmdline_args_t;
  arg_flux_aperture : Q;
  arg_error_threshold : Q
}.

(** [data.shape == shape] *)
Definition has_shape {A : Type} (shape : nat * nat) (a : array2 A) : bool :=
  bool_decide (map length a = replicate shape.1 shape.2).

(** The two numbers the label of a region is formatted from:
    [(s.start + (s.stop or resolution)) / 2.0] along x and y. *)
Definition stop_or (s : py_slice) (n : nat) : Z :=
  match sl_stop s with
  | None => Z.of_nat n
  | Some v => if v =? 0 then Z.of_nat n else v
  end.

Definition region_centre (image_resolution : nat * nat) (x_slice y_slice : py_slice)
  : Q * Q :=
  ((inject_Z (sl_start x_slice + stop_or x_slice image_resolution.2) / 2)%Q,
   (inject_Z (sl_start y_slice + stop_or y_slice image_resolution.1) / 2)%Q).

(** A list comprehension whose element expression may raise. *)
Fixpoint map_result {A B : Type} (f : A -> result B) (l : list A) : result (list B) :=
  match l with
  | [] => Ok []
  | a :: l' => b <- f a ;; bs <- map_result f l' ;; Ok (b :: bs)
  end.

(** The PRF data of one region of the image. *)
Definition region_prf_data (cmdline_args : extract_args_t) (frame : frame_t)
    (pixel_offsets : list (list cell)) (region : py_slice * py_slice)
  : result (list sample) :=
  let '(x_image_slice, y_image_slice) := region in
  get_prf_data (slice2 y_image_slice x_image_slice (frame_data frame))
               (slice2 y_image_slice x_image_slice (frame_stddev frame))
               (slice2 y_image_slice x_image_slice pixel_offsets)
               (arg_error_threshold cmdline_args).

(** [extract_pixel_data] for a [sources] argument that is not [None]; the
    label of a region is kept as the two numbers it is formatted from. *)
Definition extract_pixel_data (cmdline_args : extract_args_t)
    (image_slices : list (py_slice * py_slice)) (frame : frame_t)
    (sources : list source)
  : outcome (list (array4 * (Q * Q * Q * Q) * (Q * Q))) :=
  let image_resolution := (naxis2 frame, naxis1 frame) in
  if negb (has_shape image_resolution (frame_data frame)) then AssertionFails
  else
    outcome_of
      (pixel_offsets <- find_pixel_offsets sources (prf_range (pad_args cmdline_args))
                                           image_resolution
                                           (2 * arg_flux_aperture cmdline_args)%Q ;;
       map_result
         (fun region : py_slice * py_slice =>
            prf_data <- region_prf_data cmdline_args frame pixel_offsets region ;;
            padded <- pad_prf_data prf_data (pad_args cmdline_args) ;;
            Ok (padded, region_centre image_resolution region.1 region.2))
         image_slices).

(** ** Notions for the regions of an image *)

Definition direction_eqb (a b : direction) : bool :=
  match a, b with
  | DirX, DirX | DirY, DirY => true
  | _, _ => false
  end.

(** The values of the splits along one direction, in the order of the list. *)
Definition split_values (d : direction) (splits : list (direction * Z)) : list Z :=
  map snd (List.filter (fun dv => direction_eqb dv.1 d) splits).

(** The slices that cut an axis at the given values, from [start] on: each
    value ends one slice and starts the next, the last slice is open. *)
Fixpoint tiles_from (start : Z) (values : list Z) : list py_slice :=
  match values with
  | [] => [{| sl_start := start; sl_stop := None |}]
  | v :: values' => {| sl_start := start; sl_stop := Some v |} :: tiles_from v values'
  end.

(** [[(x, y) for x in xs for y in ys]] *)
Definition pairs_of {A B : Type} (xs : list A) (ys : list B) : list (A * B) :=
  flat_map (fun x => map (fun y => (x, y)) ys) xs.

(** The pixel [(y, x)] of an array of the given shape belongs to the region
    [(x_slice, y_slice)]. *)
Definition region_has (shape : nat * nat) (region : py_slice * py_slice)
    (y x : nat) : bool :=
  in_slice shape.1 region.2 y && in_slice shape.2 region.1 x.

(** The values are all non-negative, or all negative. *)
Definition one_sign (values : list Z) : Prop :=
  Forall (fun v => 0 <= v) values \/ Forall (fun v => v < 0) values.

(** ** Notions for the sources of find_pixel_offsets *)


(** ** Example inputs for the regions and the extraction *)

(** A 6 x 8 frame with the value 10 and the standard deviation 1 in every
    pixel, and an extraction with the 3 x 2 rectangle, a crowding distance of
    1 (twice the flux aperture), one padding point and a pad fraction of one
    half. *)
Definition frame_6_8 : frame_t :=
  {| naxis1 := 8; naxis2 := 6;
     frame_data := full res_6_8 (Num 10);
     frame_stddev := full res_6_8 (Num 1) |}.

Definition extract_args_3_2 : extract_args_t :=
  {| pad_args := {| prf_range := range_3_2_1_1; spline_pad_fraction := 1 # 2;
                    spline_pad_npoints := 1 |};
     arg_flux_aperture := 1 # 2;
     arg_error_threshold := 1 # 10 |}.

(** The image split at column 4, between the two sources. *)
Definition split_x4 : list (direction * Z) := [(DirX, 4)].

Definition regions_x4 : list (py_slice * py_slice) :=
  Eval vm_compute in
    match get_image_slices split_x4 with
    | Some regions => regions
    | None => []
    end.

Definition extracted_x4 : list (array4 * (Q * Q * Q * Q) * (Q * Q)) :=
  Eval vm_compute in
    match extract_pixel_data extract_args_3_2 regions_x4 frame_6_8 two_sources with
    | Returns out => out
    | _ => []
    end.




(** A region without columns: the x slice [0:0] with all the rows. *)
Definition region_no_columns : py_slice * py_slice :=
  ({| sl_start := 0; sl_stop := Some 0 |}, {| sl_start := 0; sl_stop := None |}).
(** * Properties *)

(** ** Rounding to float64 *)

(** Powers of two. *)

Lemma two_power_pos (e : Z) : (0 < two_power e)%Q.
Proof. apply Qpower_0_lt. reflexivity. Qed.

Lemma two_power_add (a b : Z) : (two_power (a + b) == two_power a * two_power b)%Q.
Proof. apply Qpower_plus. discriminate. Qed.

Lemma two_power_le (a b : Z) : a <= b -> (two_power a <= two_power b)%Q.
Proof. intros H. apply Qpower_le_compat_l; [ exact H | discriminate ]. Qed.

Lemma two_power_Z (e : Z) : 0 <= e -> (two_power e == inject_Z (2 ^ e))%Q.
Proof. intros H. unfold two_power. rewrite Zpower_Qpower by exact H. reflexivity. Qed.

Lemma two_power_multiple (s e : Z) :
  s <= e -> (two_power e == inject_Z (2 ^ (e - s)) * two_power s)%Q.
Proof.
  intros H. rewrite <- two_power_Z by lia. rewrite <- two_power_add.
  replace (e - s + s) with e by lia. reflexivity.
Qed.

Lemma two_power_sub (a b : Z) : (two_power (a - b) == two_power a / two_power b)%Q.
Proof.
  pose proof (two_power_pos b) as Hb.
  assert (E : (two_power a == two_power (a - b) * two_power b)%Q).
  { rewrite <- two_power_add. replace (a - b + b) with a by lia. reflexivity. }
  rewrite E. field. intros H0. rewrite H0 in Hb. discriminate.
Qed.

(** ** The binary exponent of a positive rational *)

Lemma ilog2_bounds (x : Q) :
  (0 < x)%Q ->
  let e0 := Z.log2 (Qnum x) - Z.log2 (Zpos (Qden x)) in
  (two_power (e0 - 1) <= x)%Q /\ (x < two_power (e0 + 1))%Q.
Proof.
  intros Hx. destruct x as [n d]. cbn [Qnum Qden].
  assert (Hn : 0 < n) by (unfold Qlt in Hx; simpl in Hx; lia).
  destruct (Z.log2_spec n Hn) as [Ha1 Ha2].
  destruct (Z.log2_spec (Zpos d) (Pos2Z.is_pos d)) as [Hb1 Hb2].
  pose proof (Z.log2_nonneg n) as Ha0. pose proof (Z.log2_nonneg (Zpos d)) as Hb0.
  set (a := Z.log2 n) in *. set (b := Z.log2 (Zpos d)) in *.
  replace (Z.succ a) with (a + 1) in Ha2 by lia.
  replace (Z.succ b) with (b + 1) in Hb2 by lia.
  assert (P1 : 0 < 2 ^ a) by (apply Z.pow_pos_nonneg; lia).
  assert (P2 : 0 < 2 ^ b) by (apply Z.pow_pos_nonneg; lia).
  assert (P3 : 0 < 2 ^ (b + 1)) by (apply Z.pow_pos_nonneg; lia).
  assert (P4 : 0 < 2 ^ (a + 1)) by (apply Z.pow_pos_nonneg; lia).
  cbv zeta. split.
  - replace (a - b - 1) with (a - (b + 1)) by lia.
    rewrite two_power_sub, !two_power_Z by lia.
    apply Qle_shift_div_r.
    + change 0%Q with (inject_Z 0). rewrite <- Zlt_Qlt. exact P3.
    + unfold Qle, Qmult, inject_Z. simpl. nia.
  - replace (a - b + 1) with (a + 1 - b) by lia.
    rewrite two_power_sub, !two_power_Z by lia.
    apply Qlt_shift_div_l.
    + change 0%Q with (inject_Z 0). rewrite <- Zlt_Qlt. exact P2.
    + unfold Qlt, Qmult, inject_Z. simpl. nia.
Qed.

Lemma ilog2_spec (x : Q) :
  (0 < x)%Q -> (two_power (ilog2 x) <= x)%Q /\ (x < two_power (ilog2 x + 1))%Q.
Proof.
  intros Hx. destruct (ilog2_bounds x Hx) as [H1 H2]. cbv zeta in H1, H2.
  unfold ilog2.
  set (e0 := Z.log2 (Qnum x) - Z.log2 (Zpos (Qden x))) in *.
  destruct (Qle_bool (two_power e0) x) eqn:E.
  - apply Qle_bool_iff in E. auto.
  - split; [ exact H1 | ].
    replace (e0 - 1 + 1) with e0 by lia.
    apply Qnot_le_lt. intros H. apply Qle_bool_iff in H. congruence.
Qed.

Lemma ilog2_unique (x : Q) (e : Z) :
  (two_power e <= x)%Q -> (x < two_power (e + 1))%Q -> ilog2 x = e.
Proof.
  intros H1 H2.
  assert (Hx : (0 < x)%Q) by (pose proof (two_power_pos e); lra).
  destruct (ilog2_spec x Hx) as [S1 S2].
  destruct (Z.lt_trichotomy (ilog2 x) e) as [H|[H|H]]; [ exfalso | exact H | exfalso ].
  - pose proof (two_power_le (ilog2 x + 1) e ltac:(lia)). lra.
  - pose proof (two_power_le (e + 1) (ilog2 x) ltac:(lia)). lra.
Qed.

Lemma ilog2_mono (x y : Q) : (0 < x)%Q -> (x <= y)%Q -> ilog2 x <= ilog2 y.
Proof.
  intros Hx Hxy.
  destruct (ilog2_spec x Hx) as [X1 X2].
  destruct (ilog2_spec y ltac:(lra)) as [Y1 Y2].
  destruct (Z_le_gt_dec (ilog2 x) (ilog2 y)) as [H|H]; [ exact H | exfalso ].
  pose proof (two_power_le (ilog2 y + 1) (ilog2 x) ltac:(lia)). lra.
Qed.

(** ** Rounding to an integer, ties to even *)

Lemma round_half_even_bounds (x : Q) :
  Qfloor x <= round_half_even x <= Qfloor x + 1.
Proof.
  unfold round_half_even.
  destruct (x - inject_Z (Qfloor x) ?= 1 # 2)%Q; [ | lia | lia ].
  destruct (Z.even (Qfloor x)); lia.
Qed.

Lemma round_half_even_comp (x y : Q) : (x == y)%Q -> round_half_even x = round_half_even y.
Proof.
  intros H. unfold round_half_even. rewrite <- (Qfloor_comp x y H).
  destruct (Qcompare_spec (x - inject_Z (Qfloor x)) (1 # 2)) as [E|E|E],
    (Qcompare_spec (y - inject_Z (Qfloor x)) (1 # 2)) as [F|F|F];
    try reflexivity; exfalso; lra.
Qed.

Lemma round_half_even_Z (k : Z) : round_half_even (inject_Z k) = k.
Proof.
  unfold round_half_even. rewrite Qfloor_Z.
  destruct (Qcompare_spec (inject_Z k - inject_Z k) (1 # 2)) as [E|E|E];
    [ exfalso; lra | reflexivity | exfalso; lra ].
Qed.

Lemma round_half_even_mono (x y : Q) :
  (x <= y)%Q -> round_half_even x <= round_half_even y.
Proof.
  intros H. pose proof (Qfloor_resp_le x y H) as Hf.
  pose proof (round_half_even_bounds x) as Bx.
  pose proof (round_half_even_bounds y) as By.
  destruct (Z.eq_dec (Qfloor x) (Qfloor y)) as [E|E]; [ | lia ].
  unfold round_half_even in *. rewrite <- E in *.
  destruct (Qcompare_spec (x - inject_Z (Qfloor x)) (1 # 2)) as [X|X|X],
    (Qcompare_spec (y - inject_Z (Qfloor x)) (1 # 2)) as [Y|Y|Y];
    try destruct (Z.even (Qfloor x)); try lia; exfalso; lra.
Qed.

(** ** Rounding on the grid of the multiples of a power of two *)

Lemma grid_mono (s : Z) (x y : Q) :
  (x <= y)%Q ->
  (inject_Z (round_half_even (x / two_power s)) * two_power s
   <= inject_Z (round_half_even (y / two_power s)) * two_power s)%Q.
Proof.
  intros H. pose proof (two_power_pos s) as Hs.
  apply Qmult_le_compat_r; [ | lra ].
  rewrite <- Zle_Qle. apply round_half_even_mono.
  apply Qmult_le_compat_r; [ exact H | ].
  apply Qlt_le_weak, Qinv_lt_0_compat, Hs.
Qed.

Lemma grid_fix (s k : Z) :
  (inject_Z (round_half_even (inject_Z k * two_power s / two_power s)) * two_power s
   == inject_Z k * two_power s)%Q.
Proof.
  pose proof (two_power_pos s) as Hs.
  rewrite (round_half_even_comp _ (inject_Z k)).
  - rewrite round_half_even_Z. reflexivity.
  - apply Qdiv_mult_l. intros H0. rewrite H0 in Hs. discriminate.
Qed.

Lemma grid_comp (s : Z) (x y : Q) :
  (x == y)%Q ->
  (inject_Z (round_half_even (x / two_power s)) * two_power s
   == inject_Z (round_half_even (y / two_power s)) * two_power s)%Q.
Proof.
  intros H. rewrite (round_half_even_comp (x / two_power s) (y / two_power s)).
  - reflexivity.
  - rewrite H. reflexivity.
Qed.

(** ** Rounding a positive rational *)

Lemma round_magnitude_lower (x : Q) :
  (0 < x)%Q -> Z.max (ilog2 x - 52) (-1074) <= ilog2 x ->
  (two_power (ilog2 x) <= round_magnitude x)%Q.
Proof.
  intros Hx Hs. destruct (ilog2_spec x Hx) as [H1 _].
  unfold round_magnitude. set (s := Z.max (ilog2 x - 52) (-1074)) in *.
  pose proof (two_power_multiple s (ilog2 x) Hs) as E.
  rewrite E at 1. rewrite <- (grid_fix s (2 ^ (ilog2 x - s))).
  apply grid_mono. rewrite <- E. exact H1.
Qed.

Lemma round_magnitude_upper (x : Q) :
  (0 < x)%Q ->
  (round_magnitude x
   <= two_power (Z.max (ilog2 x + 1) (Z.max (ilog2 x - 52) (-1074))))%Q.
Proof.
  intros Hx. destruct (ilog2_spec x Hx) as [_ H2].
  unfold round_magnitude. set (s := Z.max (ilog2 x - 52) (-1074)) in *.
  set (u := Z.max (ilog2 x + 1) s).
  pose proof (two_power_multiple s u ltac:(lia)) as E.
  rewrite E. rewrite <- (grid_fix s (2 ^ (u - s))).
  apply grid_mono. rewrite <- E.
  pose proof (two_power_le (ilog2 x + 1) u ltac:(lia)). lra.
Qed.

Lemma round_magnitude_nonneg (x : Q) : (0 < x)%Q -> (0 <= round_magnitude x)%Q.
Proof.
  intros Hx. unfold round_magnitude. set (s := Z.max (ilog2 x - 52) (-1074)).
  assert (E : (0 == inject_Z 0 * two_power s)%Q) by ring.
  rewrite E at 1. rewrite <- (grid_fix s 0).
  apply grid_mono. rewrite <- E. lra.
Qed.

Lemma round_magnitude_mono (x y : Q) :
  (0 < x)%Q -> (x <= y)%Q -> (round_magnitude x <= round_magnitude y)%Q.
Proof.
  intros Hx Hxy. assert (Hy : (0 < y)%Q) by lra.
  pose proof (ilog2_mono x y Hx Hxy) as He.
  destruct (Z.eq_dec (Z.max (ilog2 x - 52) (-1074)) (Z.max (ilog2 y - 52) (-1074)))
    as [Es|Es].
  - unfold round_magnitude. rewrite Es. apply grid_mono. exact Hxy.
  - pose proof (round_magnitude_upper x Hx) as U.
    pose proof (round_magnitude_lower y Hy ltac:(lia)) as L.
    pose proof (two_power_le (Z.max (ilog2 x + 1) (Z.max (ilog2 x - 52) (-1074)))
                  (ilog2 y) ltac:(lia)).
    lra.
Qed.

Lemma round_magnitude_comp (x y : Q) :
  (0 < x)%Q -> (x == y)%Q -> (round_magnitude x == round_magnitude y)%Q.
Proof.
  intros Hx H. apply Qle_antisym; apply round_magnitude_mono; lra.
Qed.

(** A multiple [k * 2^t] of a power of two no smaller than the least
    subnormal, with a multiplier of at most 53 bits, is a float64 value. *)
Lemma round_magnitude_fix (k t : Z) :
  0 < k <= 2 ^ 53 -> -1074 <= t ->
  (round_magnitude (inject_Z k * two_power t) == inject_Z k * two_power t)%Q.
Proof.
  intros [Hk0 Hk] Ht. pose proof (two_power_pos t) as Pt.
  destruct (Z.log2_spec k Hk0) as [L1 L2].
  pose proof (Z.log2_nonneg k) as L0.
  replace (Z.succ (Z.log2 k)) with (Z.log2 k + 1) in L2 by lia.
  set (x := (inject_Z k * two_power t)%Q).
  assert (He : ilog2 x = Z.log2 k + t).
  { apply ilog2_unique; unfold x.
    - rewrite two_power_add, (two_power_Z (Z.log2 k)) by lia.
      apply Qmult_le_compat_r; [ | lra ]. rewrite <- Zle_Qle. exact L1.
    - replace (Z.log2 k + t + 1) with (Z.log2 k + 1 + t) by lia.
      rewrite two_power_add, (two_power_Z (Z.log2 k + 1)) by lia.
      apply Qmult_lt_compat_r; [ exact Pt | ]. rewrite <- Zlt_Qlt. exact L2. }
  unfold round_magnitude. rewrite He.
  set (s := Z.max (Z.log2 k + t - 52) (-1074)).
  destruct (Z_le_gt_dec s t) as [Hst|Hst].
  - assert (E : (x == inject_Z (k * 2 ^ (t - s)) * two_power s)%Q).
    { unfold x. rewrite (two_power_multiple s t Hst), inject_Z_mult. ring. }
    rewrite (grid_comp s _ _ E), grid_fix. symmetry. exact E.
  - assert (Hl : 53 <= Z.log2 k) by lia.
    assert (Hk53 : k = 2 ^ 53).
    { assert (2 ^ 53 <= 2 ^ Z.log2 k) by (apply Z.pow_le_mono_r; lia). lia. }
    assert (Hlog : Z.log2 k = 53) by (rewrite Hk53; reflexivity).
    assert (Hs : s = t + 1) by lia.
    assert (E : (x == inject_Z (2 ^ 52) * two_power s)%Q).
    { unfold x. rewrite Hs, Hk53, two_power_add.
      change (two_power 1) with 2%Q.
      change (inject_Z (2 ^ 53)) with (inject_Z (2 ^ 52) * 2)%Q. ring. }
    rewrite (grid_comp s _ _ E), grid_fix. symmetry. exact E.
Qed.

(** The rounded magnitude is such a multiple. *)
Lemma round_magnitude_form (x : Q) :
  (0 < x)%Q ->
  exists k t : Z,
    0 <= k <= 2 ^ 53 /\ -1074 <= t /\
    (round_magnitude x == inject_Z k * two_power t)%Q.
Proof.
  intros Hx. destruct (ilog2_spec x Hx) as [_ H2].
  set (s := Z.max (ilog2 x - 52) (-1074)).
  exists (round_half_even (x / two_power s)), s.
  pose proof (two_power_pos s) as Ps.
  split; [ split | split; [ lia | reflexivity ] ].
  - assert (H : round_half_even (inject_Z 0) <= round_half_even (x / two_power s)).
    { apply round_half_even_mono. apply Qle_shift_div_l; [ exact Ps | ].
      change (inject_Z 0) with 0%Q. lra. }
    rewrite round_half_even_Z in H. exact H.
  - assert (H : round_half_even (x / two_power s) <= round_half_even (inject_Z (2 ^ 53))).
    { apply round_half_even_mono. apply Qle_shift_div_r; [ exact Ps | ].
      rewrite <- (two_power_Z 53), <- two_power_add by lia.
      pose proof (two_power_le (ilog2 x + 1) (53 + s) ltac:(lia)). lra. }
    rewrite round_half_even_Z in H. exact H.
Qed.

(** ** Rounding to the nearest float64 value *)

Lemma round_nearest_pos (x : Q) :
  (0 < x)%Q -> (round_nearest x == round_magnitude x)%Q.
Proof.
  intros H. unfold round_nearest.
  destruct (Qcompare_spec x 0) as [E|E|E]; [ lra | lra | apply Qred_correct ].
Qed.

Lemma round_nearest_neg (x : Q) :
  (x < 0)%Q -> (round_nearest x == - round_magnitude (- x))%Q.
Proof.
  intros H. unfold round_nearest.
  destruct (Qcompare_spec x 0) as [E|E|E]; [ lra | apply Qred_correct | lra ].
Qed.

Lemma round_nearest_zero (x : Q) : (x == 0)%Q -> (round_nearest x == 0)%Q.
Proof.
  intros H. unfold round_nearest.
  destruct (Qcompare_spec x 0) as [E|E|E]; [ reflexivity | lra | lra ].
Qed.

Lemma round_nearest_nonneg (x : Q) : (0 <= x)%Q -> (0 <= round_nearest x)%Q.
Proof.
  intros H. destruct (Qlt_le_dec 0 x) as [Hx|Hx].
  - rewrite round_nearest_pos by exact Hx. apply round_magnitude_nonneg, Hx.
  - rewrite round_nearest_zero by lra. lra.
Qed.

Lemma round_nearest_nonpos (x : Q) : (x <= 0)%Q -> (round_nearest x <= 0)%Q.
Proof.
  intros H. destruct (Qlt_le_dec x 0) as [Hx|Hx].
  - rewrite round_nearest_neg by exact Hx.
    pose proof (round_magnitude_nonneg (- x) ltac:(lra)). lra.
  - rewrite round_nearest_zero by lra. lra.
Qed.

Lemma round_nearest_mono (x y : Q) :
  (x <= y)%Q -> (round_nearest x <= round_nearest y)%Q.
Proof.
  intros H. destruct (Qlt_le_dec 0 x) as [Hx|Hx].
  - rewrite !round_nearest_pos by lra. apply round_magnitude_mono; assumption.
  - destruct (Qlt_le_dec y 0) as [Hy|Hy].
    + rewrite !round_nearest_neg by lra.
      pose proof (round_magnitude_mono (- y) (- x) ltac:(lra) ltac:(lra)). lra.
    + pose proof (round_nearest_nonpos x Hx). pose proof (round_nearest_nonneg y Hy). lra.
Qed.

Lemma round_nearest_comp (x y : Q) : (x == y)%Q -> (round_nearest x == round_nearest y)%Q.
Proof. intros H. apply Qle_antisym; apply round_nearest_mono; lra. Qed.

Lemma round_nearest_opp (x : Q) : (round_nearest (- x) == - round_nearest x)%Q.
Proof.
  destruct (Qlt_le_dec 0 x) as [Hx|Hx].
  - rewrite round_nearest_neg, round_nearest_pos by lra.
    rewrite (round_magnitude_comp (- - x) x) by lra. reflexivity.
  - destruct (Qlt_le_dec x 0) as [Hn|Hn].
    + rewrite round_nearest_pos, round_nearest_neg by lra. ring.
    + rewrite !round_nearest_zero by lra. reflexivity.
Qed.

Lemma round_nearest_fix (k t : Z) :
  Z.abs k <= 2 ^ 53 -> -1074 <= t ->
  (round_nearest (inject_Z k * two_power t) == inject_Z k * two_power t)%Q.
Proof.
  intros Hk Ht. pose proof (two_power_pos t) as Pt.
  destruct (Z.lt_trichotomy k 0) as [H|[H|H]].
  - assert (E : (inject_Z k * two_power t == - (inject_Z (- k) * two_power t))%Q)
      by (rewrite inject_Z_opp; ring).
    rewrite (round_nearest_comp _ _ E), round_nearest_opp.
    assert (P : (0 < inject_Z (- k) * two_power t)%Q).
    { apply Qmult_lt_0_compat; [ | exact Pt ].
      change 0%Q with (inject_Z 0). rewrite <- Zlt_Qlt. lia. }
    rewrite (round_nearest_pos _ P), round_magnitude_fix by lia.
    symmetry. exact E.
  - subst k. rewrite round_nearest_zero; ring.
  - assert (P : (0 < inject_Z k * two_power t)%Q).
    { apply Qmult_lt_0_compat; [ | exact Pt ].
      change 0%Q with (inject_Z 0). rewrite <- Zlt_Qlt. lia. }
    rewrite (round_nearest_pos _ P), round_magnitude_fix by lia. reflexivity.
Qed.


Lemma round_nearest_idempotent (x : Q) :
  (round_nearest (round_nearest x) == round_nearest x)%Q.
Proof.
  assert (P : forall y, (0 < y)%Q ->
            (round_nearest (round_magnitude y) == round_magnitude y)%Q).
  { intros y Hy. destruct (round_magnitude_form y Hy) as (k & t & Hk & Ht & E).
    rewrite (round_nearest_comp _ _ E), round_nearest_fix by lia.
    symmetry. exact E. }
  destruct (Qlt_le_dec 0 x) as [Hx|Hx].
  - rewrite (round_nearest_comp _ _ (round_nearest_pos x Hx)).
    rewrite (round_nearest_pos x Hx). apply P, Hx.
  - destruct (Qlt_le_dec x 0) as [Hn|Hn].
    + rewrite (round_nearest_comp _ _ (round_nearest_neg x Hn)).
      rewrite (round_nearest_neg x Hn), round_nearest_opp, P by lra. reflexivity.
    + rewrite (round_nearest_comp _ _ (round_nearest_zero x ltac:(lra))).
      rewrite (round_nearest_zero x) by lra. apply round_nearest_zero. reflexivity.
Qed.

(** ** The error monad and arrays *)

Ltac bind_inv H :=
  match type of H with
  | bind ?r _ = Ok _ =>
      let E := fresh "E" in
      destruct r eqn:E; cbn [bind] in H; [ | discriminate H ]
  end.

Lemma at2_imap2 {A B : Type} (f : nat -> nat -> A -> B) (a : array2 A) (y x : nat) :
  at2 (imap2 f a) y x = f y x <$> at2 a y x.
Proof.
  unfold at2, imap2. rewrite list_lookup_imap.
  destruct (a !! y) as [row|]; simpl; [ | reflexivity ].
  apply list_lookup_imap.
Qed.

Lemma at2_full {A : Type} (shape : nat * nat) (v : A) (y x : nat) :
  at2 (full shape v) y x =
  if bool_decide (y < fst shape /\ x < snd shape)%nat then Some v else None.
Proof.
  unfold at2, full. destruct shape as [r c]; simpl.
  destruct (decide (y < r)%nat) as [Hy|Hy].
  - rewrite (lookup_replicate_2 r (replicate c v) y Hy). simpl.
    destruct (decide (x < c)%nat) as [Hx|Hx].
    + rewrite (lookup_replicate_2 c v x Hx).
      rewrite bool_decide_eq_true_2; [ reflexivity | split; assumption ].
    + assert (Hn : replicate c v !! x = None) by (apply lookup_replicate_None; lia).
      rewrite Hn.
      rewrite bool_decide_eq_false_2; [ reflexivity | intros [_ ?]; contradiction ].
  - assert (Hn : replicate r (replicate c v) !! y = None)
      by (apply lookup_replicate_None; lia).
    rewrite Hn. simpl.
    rewrite bool_decide_eq_false_2; [ reflexivity | intros [? _]; contradiction ].
Qed.

Lemma for_each_app {A S : Type} (body : S -> A -> result S) (l1 l2 : list A) (st : S) :
  for_each body (l1 ++ l2) st = (st' <- for_each body l1 st ;; for_each body l2 st').
Proof.
  revert st. induction l1 as [|a l1 IH]; intros st; simpl; [ reflexivity | ].
  destruct (body st a); simpl; auto.
Qed.

(** ** The rectangle of a source *)

Lemma Qle_bool_inject_Z (a b : Z) : Qle_bool (inject_Z a) (inject_Z b) = (a <=? b).
Proof.
  unfold Qle_bool, inject_Z; simpl. rewrite !Z.mul_1_r. reflexivity.
Qed.

Lemma py_int_inject_Z (z : Z) : py_int (Num (inject_Z z)) = Ok z.
Proof. simpl. rewrite Z.quot_1_r. reflexivity. Qed.

Lemma py_int_py_max (q : Q) :
  py_int (py_max (ffloor (Num q)) 0) = Ok (Z.max (Qfloor q) 0).
Proof.
  unfold py_max, fgt, ffloor, flt. rewrite Qle_bool_inject_Z.
  destruct (Z.leb_spec 0 (Qfloor q)); simpl negb; cbv iota;
    rewrite py_int_inject_Z; f_equal; lia.
Qed.

Lemma py_int_py_min (q : Q) (n : Z) :
  py_int (py_min (fceil (Num q)) n) = Ok (Z.min (Qceiling q) n).
Proof.
  unfold py_min, fceil, flt. rewrite Qle_bool_inject_Z.
  destruct (Z.leb_spec (Qceiling q) n); simpl negb; cbv iota;
    rewrite py_int_inject_Z; f_equal; lia.
Qed.

Lemma round64_Num (x v : Q) : round64 x = Num v -> v = round_nearest x.
Proof.
  unfold round64. destruct (Qle_bool _ _); [ discriminate | ].
  destruct (Qle_bool _ _); [ discriminate | ]. congruence.
Qed.


(** Along one axis: a source whose position is not finite, or whose distance
    from the offset is not, makes [int()] raise.  The sum with the width may
    overflow, and the upper bound is then the size of the image. *)
Lemma source_axis_inv (a : fval) (off w : Q) (n lo hi : Z) :
  py_int (py_max (ffloor (fsub64 a (Num off))) 0) = Ok lo ->
  py_int (py_min (fceil (fadd64 (fsub64 a (Num off)) (Num w))) n) = Ok hi ->
  exists q p : Q,
    a = Num q /\ fsub64 a (Num off) = Num p /\ lo = Z.max (Qfloor p) 0 /\
    ((exists b, fadd64 (Num p) (Num w) = Num b /\ hi = Z.min (Qceiling b) n)
     \/ (fadd64 (Num p) (Num w) = PInf /\ hi = n)).
Proof.
  intros Hlo Hhi.
  destruct (fsub64 a (Num off)) as [p| | |] eqn:Ep; try discriminate Hlo;
    try discriminate Hhi.
  destruct a as [q| | |]; try discriminate Ep.
  exists q, p. split; [ reflexivity | ]. split; [ reflexivity | ].
  rewrite py_int_py_max in Hlo. split; [ congruence | ].
  destruct (fadd64 (Num p) (Num w)) as [b| | |] eqn:Eb; try discriminate Hhi.
  - left. exists b. split; [ reflexivity | ].
    rewrite py_int_py_min in Hhi. congruence.
  - right. split; [ reflexivity | ].
    unfold fceil, py_min, flt in Hhi. rewrite py_int_inject_Z in Hhi. congruence.
Qed.

Lemma source_bounds_inv pr res s min_x max_x min_y max_y :
  source_bounds pr res s = Ok (min_x, max_x, min_y, max_y) ->
  exists qx qy ax ay : Q,
    src_x s = Num qx /\ src_y s = Num qy /\
    fsub64 (src_x s) (Num (pr_x_offset pr)) = Num ax /\
    fsub64 (src_y s) (Num (pr_y_offset pr)) = Num ay /\
    min_x = Z.max (Qfloor ax) 0 /\ min_y = Z.max (Qfloor ay) 0 /\
    ((exists bx, fadd64 (Num ax) (Num (pr_width pr)) = Num bx /\
                 max_x = Z.min (Qceiling bx) (Z.of_nat (snd res)))
     \/ (fadd64 (Num ax) (Num (pr_width pr)) = PInf /\ max_x = Z.of_nat (snd res))) /\
    ((exists by', fadd64 (Num ay) (Num (pr_height pr)) = Num by' /\
                  max_y = Z.min (Qceiling by') (Z.of_nat (fst res)))
     \/ (fadd64 (Num ay) (Num (pr_height pr)) = PInf /\ max_y = Z.of_nat (fst res))).
Proof.
  unfold source_bounds. intros H.
  bind_inv H. bind_inv H. bind_inv H. bind_inv H.
  injection H as <- <- <- <-.
  destruct (source_axis_inv _ _ _ _ _ _ E E0) as (qx & ax & Hx & Hax & -> & Hbx).
  destruct (source_axis_inv _ _ _ _ _ _ E1 E2) as (qy & ay & Hy & Hay & -> & Hby).
  exists qx, qy, ax, ay. auto 10.
Qed.

(** The bounds lie in the image, and the source is at a finite position. *)
Lemma source_bounds_range pr res s min_x max_x min_y max_y :
  source_bounds pr res s = Ok (min_x, max_x, min_y, max_y) ->
  (exists qx qy, src_x s = Num qx /\ src_y s = Num qy) /\
  0 <= min_x /\ max_x <= Z.of_nat (snd res) /\
  0 <= min_y /\ max_y <= Z.of_nat (fst res).
Proof.
  intros H.
  apply source_bounds_inv in H
    as (qx & qy & ax & ay & Hx & Hy & _ & _ & -> & -> & Hbx & Hby).
  split; [ eauto | ].
  destruct Hbx as [(bx & _ & ->)|[_ ->]], Hby as [(by' & _ & ->)|[_ ->]]; lia.
Qed.


(** A pixel of a rectangle lies in the image, and the source is at a finite
    position. *)
Lemma covers_inv pr res s y x :
  covers pr res s y x = true ->
  (y < fst res)%nat /\ (x < snd res)%nat /\
  exists qx qy, src_x s = Num qx /\ src_y s = Num qy.
Proof.
  unfold covers. destruct (source_bounds pr res s) as [[[[a b] c] d]|] eqn:E;
    [ | discriminate ].
  intros H. apply source_bounds_range in E as (Hfin & Ha & Hb & Hc & Hd).
  unfold in_rect in H.
  apply andb_prop in H as [H H4]. apply andb_prop in H as [H H3].
  apply andb_prop in H as [H1 H2].
  split; [ lia | ]. split; [ lia | ]. exact Hfin.
Qed.

(** ** Slices and the arrays assigned to them *)

Lemma slice_bound_nonneg (n : nat) (a : Z) :
  0 <= a -> slice_bound n a = Nat.min (Z.to_nat a) n.
Proof.
  intros Ha. unfold slice_bound. destruct (Z.ltb_spec a 0); lia.
Qed.

Lemma slice_bound_le (n : nat) (a : Z) : (slice_bound n a <= n)%nat.
Proof. unfold slice_bound. destruct (Z.ltb_spec a 0); lia. Qed.

Lemma length_offsets_1d lo hi c : length (offsets_1d lo hi c) = Z.to_nat (hi - lo).
Proof. unfold offsets_1d, arange. rewrite !length_map, length_seq. reflexivity. Qed.

Lemma nth_offsets_1d lo hi c (k : nat) :
  (k < Z.to_nat (hi - lo))%nat ->
  nth k (offsets_1d lo hi c) NaN =
  fadd (fsub (Num (inject_Z (lo + Z.of_nat k))) c) (Num (1 # 2)).
Proof.
  intros Hk. unfold offsets_1d, arange. rewrite map_map.
  rewrite (nth_indep _ NaN (fadd (fsub (Num (inject_Z (lo + Z.of_nat 0))) c) (Num (1 # 2))))
    by (rewrite length_map, length_seq; exact Hk).
  rewrite (map_nth (fun k0 => fadd (fsub (Num (inject_Z (lo + Z.of_nat k0))) c) (Num (1 # 2)))
                   (seq 0 (Z.to_nat (hi - lo))) 0%nat k).
  rewrite seq_nth by exact Hk. reflexivity.
Qed.

Lemma broadcast_to_inv {A : Type} (n : nat) (v v' : list A) :
  broadcast_to n v = Ok v' ->
  (length v = n /\ v' = v) \/ (exists a, v = [a] /\ v' = replicate n a).
Proof.
  unfold broadcast_to. destruct (Nat.eqb_spec (length v) n) as [He|He].
  - intros H. left. split; congruence.
  - destruct v as [|a [|b v]]; try discriminate. intros H. right. exists a.
    split; congruence.
Qed.

Lemma length_broadcast_to {A : Type} (n : nat) (v v' : list A) :
  broadcast_to n v = Ok v' -> length v' = n.
Proof.
  intros H. apply broadcast_to_inv in H as [[H ->]|(a & -> & ->)]; [ exact H | ].
  apply length_replicate.
Qed.

(** Along one axis of length [n], with [0 <= lo] and [hi <= n]: when the
    assignment of the offsets succeeded, the slice [lo : hi] selects the
    indices [lo <= k < hi], and index [k] receives the offset of [k]. *)
Lemma axis_slice (n : nat) (lo hi : Z) (c : fval) (v : list fval) :
  0 <= lo -> hi <= Z.of_nat n ->
  broadcast_to (slice_bound n hi - slice_bound n lo) (offsets_1d lo hi c) = Ok v ->
  forall k : nat,
    ((slice_bound n lo <=? k)%nat && (k <? slice_bound n hi)%nat
     = (lo <=? Z.of_nat k) && (Z.of_nat k <? hi)) /\
    (lo <= Z.of_nat k < hi ->
     nth (k - slice_bound n lo) v NaN =
     fadd (fsub (Num (inject_Z (Z.of_nat k))) c) (Num (1 # 2))).
Proof.
  intros Hlo Hhi Hb k.
  assert (Hs0 : slice_bound n lo = Z.to_nat (Z.min lo (Z.of_nat n))).
  { unfold slice_bound. destruct (Z.ltb_spec lo 0); [ lia | reflexivity ]. }
  apply broadcast_to_inv in Hb as [[Hlen ->]|(a & Hv & ->)].
  - rewrite length_offsets_1d in Hlen.
    destruct (Z.ltb_spec hi 0) as [Hneg|Hpos].
    + (* a negative upper bound: the slice must be empty *)
      assert (Hs1 : slice_bound n hi = Z.to_nat (Z.max (hi + Z.of_nat n) 0)).
      { unfold slice_bound. destruct (Z.ltb_spec hi 0); [ reflexivity | lia ]. }
      split.
      * destruct (Nat.leb_spec (slice_bound n lo) k), (Nat.ltb_spec k (slice_bound n hi)),
          (Z.leb_spec lo (Z.of_nat k)), (Z.ltb_spec (Z.of_nat k) hi); simpl;
          try reflexivity; lia.
      * lia.
    + assert (Hs1 : slice_bound n hi = Z.to_nat hi).
      { unfold slice_bound. destruct (Z.ltb_spec hi 0); [ lia | ]. f_equal. lia. }
      split.
      * destruct (Nat.leb_spec (slice_bound n lo) k), (Nat.ltb_spec k (slice_bound n hi)),
          (Z.leb_spec lo (Z.of_nat k)), (Z.ltb_spec (Z.of_nat k) hi); simpl;
          try reflexivity; lia.
      * intros Hk. rewrite nth_offsets_1d by lia.
        replace (lo + Z.of_nat (k - slice_bound n lo)) with (Z.of_nat k) by lia.
        reflexivity.
  - assert (Hl := length_offsets_1d lo hi c). rewrite Hv in Hl. simpl in Hl.
    assert (Hs1 : slice_bound n hi = Z.to_nat hi).
    { unfold slice_bound. destruct (Z.ltb_spec hi 0); [ lia | ]. f_equal. lia. }
    assert (Hn : (slice_bound n hi - slice_bound n lo = 1)%nat) by lia.
    split.
    + destruct (Nat.leb_spec (slice_bound n lo) k), (Nat.ltb_spec k (slice_bound n hi)),
        (Z.leb_spec lo (Z.of_nat k)), (Z.ltb_spec (Z.of_nat k) hi); simpl;
        try reflexivity; lia.
    + intros Hk. rewrite Hn. simpl.
      assert (Hk0 : (k - slice_bound n lo = 0)%nat) by lia. rewrite Hk0. simpl.
      assert (H0 := nth_offsets_1d lo hi c 0 ltac:(lia)).
      rewrite Hv in H0. simpl nth in H0. rewrite H0.
      replace (lo + Z.of_nat 0) with (Z.of_nat k) by lia. reflexivity.
Qed.

(** ** One pixel through the loop of find_pixel_offsets *)

Lemma process_source_ok pr res st s crowded :
  source_ok pr res s <-> exists st', process_source pr res st (s, crowded) = Ok st'.
Proof.
  unfold source_ok, process_source. destruct st as [R S]. split.
  - intros (min_x & max_x & min_y & max_y & xs & ys & Hb & Hx & Hy).
    rewrite Hb. simpl. rewrite Hx. simpl. rewrite Hy. simpl. eauto.
  - intros [st' H]. bind_inv H. destruct a as [[[min_x max_x] min_y] max_y].
    bind_inv H. bind_inv H.
    exists min_x, max_x, min_y, max_y, a, a0. auto.
Qed.

Lemma source_ok_patch pr res s b :
  source_ok pr res s -> source_bounds pr res s = Ok b ->
  forall y x, in_patch res b y x = in_rect b y x.
Proof.
  intros (min_x & max_x & min_y & max_y & xs & ys & Hb & Hx & Hy) Hb' y x.
  rewrite Hb in Hb'. injection Hb' as <-.
  apply source_bounds_range in Hb as (_ & Hx0 & Hx1 & Hy0 & Hy1).
  pose proof (axis_slice (snd res) min_x max_x (src_x s) xs ltac:(lia) ltac:(lia) Hx x)
    as [Hsx _].
  pose proof (axis_slice (fst res) min_y max_y (src_y s) ys ltac:(lia) ltac:(lia) Hy y)
    as [Hsy _].
  unfold in_patch, in_rect.
  rewrite <- (andb_assoc _ (slice_bound (snd res) min_x <=? x)%nat).
  rewrite Hsy, Hsx.
  destruct (min_y <=? Z.of_nat y), (Z.of_nat y <? max_y),
    (min_x <=? Z.of_nat x), (Z.of_nat x <? max_x); reflexivity.
Qed.

Lemma process_source_pixel pr res R S sc R' S' (y x : nat) :
  process_source pr res (R, S) sc = Ok (R', S') ->
  at2 R' y x = (fun c => (pixel_step pr res y x (c, false) sc).1) <$> at2 R y x /\
  forall c, at2 R y x = Some c ->
  at2 S' y x = (fun sh => (pixel_step pr res y x (c, sh) sc).2) <$> at2 S y x.
Proof.
  intros H. destruct sc as [s crowded].
  assert (Hok : source_ok pr res s).
  { apply (process_source_ok pr res (R, S) s crowded). eauto. }
  unfold process_source in H. bind_inv H. rename a into b.
  assert (Hp := source_ok_patch pr res s b Hok E).
  destruct b as [[[min_x max_x] min_y] max_y].
  bind_inv H. rename a into xs. bind_inv H. rename a into ys.
  injection H as <- <-.
  assert (Hb := E).
  apply source_bounds_range in Hb as (_ & Hx0 & Hx1 & Hy0 & Hy1).
  pose proof (axis_slice (snd res) min_x max_x (src_x s) xs ltac:(lia) ltac:(lia) E0 x)
    as [_ Hxs].
  pose proof (axis_slice (fst res) min_y max_y (src_y s) ys ltac:(lia) ltac:(lia) E1 y)
    as [_ Hys].
  rewrite !at2_imap2. unfold pixel_step, covers. simpl fst. simpl snd.
  unfold in_patch in Hp. rewrite E, Hp.
  destruct (in_rect (min_x, max_x, min_y, max_y) y x) eqn:Hin.
  - unfold in_rect in Hin.
    apply andb_prop in Hin as [Hin H4]. apply andb_prop in Hin as [Hin H3].
    apply andb_prop in Hin as [H1 H2].
    rewrite Hxs by lia. rewrite Hys by lia. split.
    + destruct (at2 R y x); reflexivity.
    + intros c Hc. unfold get_cell. rewrite Hc. simpl.
      destruct (at2 S y x) as [sh|]; [ | reflexivity ]. simpl. f_equal.
      destruct crowded, (isfinite (x_off c)), sh; reflexivity.
  - split.
    + destruct (at2 R y x); reflexivity.
    + intros c Hc. destruct (at2 S y x); reflexivity.
Qed.

Lemma pixel_step_fst pr res y x c sh sc :
  (pixel_step pr res y x (c, sh) sc).1 = (pixel_step pr res y x (c, false) sc).1.
Proof. unfold pixel_step. destruct (covers pr res sc.1 y x); reflexivity. Qed.

Lemma for_each_pixel pr res (y x : nat) l :
  forall R S R' S' c sh,
    for_each (process_source pr res) l (R, S) = Ok (R', S') ->
    at2 R y x = Some c -> at2 S y x = Some sh ->
    at2 R' y x = Some (fold_left (pixel_step pr res y x) l (c, sh)).1 /\
    at2 S' y x = Some (fold_left (pixel_step pr res y x) l (c, sh)).2.
Proof.
  induction l as [|sc l IH]; intros R S R' S' c sh H HR HS; simpl in H.
  - injection H as <- <-. simpl. auto.
  - bind_inv H. destruct a as [R1 S1].
    pose proof (process_source_pixel pr res R S sc R1 S1 y x E) as [H1 H2].
    specialize (H2 c HR). rewrite HR in H1. rewrite HS in H2. simpl in H1, H2.
    rewrite <- (pixel_step_fst pr res y x c sh sc) in H1.
    simpl fold_left.
    destruct (pixel_step pr res y x (c, sh) sc) as [c1 sh1] eqn:Est.
    simpl in H1, H2. eapply IH; eassumption.
Qed.

Lemma for_each_outside pr res (y x : nat) l :
  forall R S R' S',
    for_each (process_source pr res) l (R, S) = Ok (R', S') ->
    at2 R y x = None -> at2 R' y x = None.
Proof.
  induction l as [|sc l IH]; intros R S R' S' H HR; simpl in H.
  - injection H as <- <-. exact HR.
  - bind_inv H. destruct a as [R1 S1].
    pose proof (process_source_pixel pr res R S sc R1 S1 y x E) as [H1 _].
    rewrite HR in H1. simpl in H1. eapply IH; eassumption.
Qed.

(** The cell of a pixel of the image in the returned grid: the sources are
    applied to the pixel in turn, and a pixel flagged shared is invalidated. *)
Lemma find_pixel_offsets_pixel sources pr res cd g (y x : nat) :
  find_pixel_offsets sources pr res cd = Ok g ->
  (y < fst res)%nat -> (x < snd res)%nat ->
  at2 g y x =
  Some (let st := fold_left (pixel_step pr res y x) (source_list sources cd)
                            (nan_cell, false) in
        if st.2 then nan_cell else st.1).
Proof.
  unfold find_pixel_offsets. intros H Hy Hx. bind_inv H. destruct a as [R S].
  injection H as <-. simpl fst. simpl snd.
  pose proof (for_each_pixel pr res y x _ _ _ _ _ nan_cell false E) as [HR HS].
  { rewrite at2_full. rewrite bool_decide_eq_true_2; [ reflexivity | auto ]. }
  { rewrite at2_full. rewrite bool_decide_eq_true_2; [ reflexivity | auto ]. }
  unfold invalidate. rewrite at2_imap2, HR, HS. reflexivity.
Qed.

Lemma find_pixel_offsets_outside sources pr res cd g (y x : nat) :
  find_pixel_offsets sources pr res cd = Ok g ->
  ~ ((y < fst res)%nat /\ (x < snd res)%nat) ->
  at2 g y x = None.
Proof.
  unfold find_pixel_offsets. intros H Hyx. bind_inv H. destruct a as [R S].
  injection H as <-. simpl fst.
  unfold invalidate. rewrite at2_imap2.
  rewrite (for_each_outside pr res y x _ _ _ _ _ E); [ reflexivity | ].
  rewrite at2_full. rewrite bool_decide_eq_false_2; [ reflexivity | exact Hyx ].
Qed.

(** ** Lists: lookups, counts and permutations *)

Lemma lookup_map {A B : Type} (f : A -> B) (l : list A) (i : nat) :
  map f l !! i = f <$> l !! i.
Proof. exact (list_lookup_fmap f l i). Qed.

Lemma zip_map_r {A B : Type} (f : A -> B) (l : list A) :
  zip l (map f l) = map (fun a => (a, f a)) l.
Proof. induction l as [|a l IH]; simpl; [ reflexivity | ]. f_equal. exact IH. Qed.

Lemma count_perm {A : Type} (f : A -> bool) (l l' : list A) :
  Permutation l l' -> length (List.filter f l) = length (List.filter f l').
Proof.
  induction 1 as [|a l l' _ IH|a b l|l l' l'' _ IH1 _ IH2]; simpl.
  - reflexivity.
  - destruct (f a); simpl; congruence.
  - destruct (f a), (f b); reflexivity.
  - congruence.
Qed.

Lemma existsb_perm {A : Type} (f : A -> bool) (l l' : list A) :
  Permutation l l' -> existsb f l = existsb f l'.
Proof.
  intros Hp. apply eq_true_iff_eq. rewrite !existsb_exists.
  split; intros (a & Ha & Hf); exists a; split; try exact Hf.
  - exact (Permutation_in a Hp Ha).
  - exact (Permutation_in a (Permutation_sym Hp) Ha).
Qed.

Lemma count_two {A : Type} (f : A -> bool) (l : list A) :
  forall (i j : nat) (a b : A),
    i <> j -> l !! i = Some a -> l !! j = Some b -> f a = true -> f b = true ->
    (2 <= length (List.filter f l))%nat.
Proof.
  assert (Hone : forall (l0 : list A) (i : nat) (a : A),
             l0 !! i = Some a -> f a = true -> (1 <= length (List.filter f l0))%nat).
  { induction l0 as [|c l0 IH]; intros [|i] a Hi Ha; try discriminate; simpl in *.
    - injection Hi as ->. rewrite Ha. simpl. lia.
    - specialize (IH i a Hi Ha). destruct (f c); simpl; lia. }
  induction l as [|c l IH]; intros [|i] [|j] a b Hij Hi Hj Ha Hb;
    try discriminate; try congruence; simpl in *.
  - injection Hi as ->. rewrite Ha. simpl. specialize (Hone l j b Hj Hb). lia.
  - injection Hj as ->. rewrite Hb. simpl. specialize (Hone l i a Hi Ha). lia.
  - assert (Hij' : i <> j) by congruence.
    specialize (IH i j a b Hij' Hi Hj Ha Hb). destruct (f c); simpl; lia.
Qed.

Lemma count_two_inv {A : Type} (f : A -> bool) (l : list A) :
  (2 <= length (List.filter f l))%nat ->
  exists (i j : nat) (a b : A),
    i <> j /\ l !! i = Some a /\ l !! j = Some b /\ f a = true /\ f b = true.
Proof.
  assert (Hone : forall l0 : list A, (1 <= length (List.filter f l0))%nat ->
             exists (i : nat) (a : A), l0 !! i = Some a /\ f a = true).
  { induction l0 as [|c l0 IH]; simpl; [ lia | ]. destruct (f c) eqn:Hc.
    - intros _. exists 0%nat, c. auto.
    - intros H. destruct (IH H) as (i & a & Hi & Ha). exists (S i), a. auto. }
  induction l as [|c l IH]; simpl; [ lia | ]. destruct (f c) eqn:Hc; simpl.
  - intros H. destruct (Hone l ltac:(lia)) as (j & b & Hj & Hb).
    exists 0%nat, (S j), c, b. auto.
  - intros H. destruct (IH H) as (i & j & a & b & Hij & Hi & Hj & Ha & Hb).
    exists (S i), (S j), a, b. repeat split; auto.
Qed.

(** ** The state of one pixel after a list of sources *)

Section Pixel.

Variables (pr : prf_range_t) (res : nat * nat) (y x : nat).

Lemma assigned_cell_finite (s : source) :
  covers pr res s y x = true -> isfinite (x_off (assigned_cell s y x)) = true.
Proof.
  intros H. apply covers_inv in H as (_ & _ & qx & qy & Hx & _).
  simpl. rewrite Hx. reflexivity.
Qed.


Lemma fold_state (l : list (source * bool)) :
  let st := fold_left (pixel_step pr res y x) l (nan_cell, false) in
  isfinite (x_off st.1) = (0 <? cover_count pr res y x l)%nat /\
  st.2 = crowded_cover pr res y x l || (1 <? cover_count pr res y x l)%nat /\
  (cover_count pr res y x l = 0%nat -> st.1 = nan_cell).
Proof.
  induction l as [|sc l IH] using rev_ind; simpl.
  - auto.
  - rewrite fold_left_app. simpl.
    unfold cover_count, crowded_cover in *.
    rewrite List.filter_app, length_app, List.existsb_app. simpl.
    destruct IH as (IH1 & IH2 & IH3).
    destruct (fold_left (pixel_step pr res y x) l (nan_cell, false)) as [c sh].
    cbn [fst snd] in *. unfold pixel_step. cbn [fst snd].
    destruct (covers pr res sc.1 y x) eqn:Hc; cbn [fst snd length].
    + rewrite assigned_cell_finite by exact Hc. rewrite IH1, IH2.
      split; [ | split ].
      * symmetry. apply Nat.ltb_lt. lia.
      * set (n := length (List.filter (fun sc0 => covers pr res sc0.1 y x) l)).
        destruct (existsb (fun sc0 => covers pr res sc0.1 y x && sc0.2) l), sc.2;
          simpl;
          destruct (Nat.ltb_spec 0 n), (Nat.ltb_spec 1 n), (Nat.ltb_spec 1 (n + 1));
          simpl; try reflexivity; lia.
      * lia.
    + rewrite Nat.add_0_r. cbn [andb orb]. rewrite orb_false_r. auto.
Qed.

(** A pixel is invalid in the end exactly when no rectangle, a crowded
    source's rectangle, or more than one rectangle contains it. *)
Lemma final_cell_invalid (l : list (source * bool)) :
  final_cell pr res y x l = nan_cell <->
  crowded_cover pr res y x l || (1 <? cover_count pr res y x l)%nat
  || (cover_count pr res y x l =? 0)%nat = true.
Proof.
  unfold final_cell. destruct (fold_state l) as (H1 & H2 & H3).
  destruct (fold_left (pixel_step pr res y x) l (nan_cell, false)) as [c sh].
  simpl in *. rewrite <- H2. destruct sh; simpl.
  - tauto.
  - split.
    + intros ->. simpl in H1. symmetry in H1. apply Nat.ltb_ge in H1.
      apply Nat.eqb_eq. lia.
    + intros H. apply Nat.eqb_eq in H. auto.
Qed.

Lemma final_cell_perm (l l' : list (source * bool)) :
  Permutation l l' ->
  (final_cell pr res y x l = nan_cell <-> final_cell pr res y x l' = nan_cell).
Proof.
  intros Hp. rewrite !final_cell_invalid. unfold crowded_cover, cover_count.
  rewrite (existsb_perm _ l l' Hp), (count_perm _ l l' Hp). reflexivity.
Qed.


End Pixel.

(** ** When find_pixel_offsets returns *)

Lemma for_each_sources_ok pr res l :
  forall st,
    (exists st', for_each (process_source pr res) l st = Ok st') <->
    Forall (fun sc => source_ok pr res sc.1) l.
Proof.
  induction l as [|[s crowded] l IH]; intros st; simpl.
  - split; [ constructor | eauto ].
  - split.
    + intros [st' H]. bind_inv H. constructor.
      * apply (process_source_ok pr res st s crowded). eauto.
      * apply (IH a). eauto.
    + intros H. inversion H as [|? ? Hs Hl]; subst.
      apply (process_source_ok pr res st s crowded) in Hs as [st1 Hs].
      rewrite Hs. simpl. apply IH. exact Hl.
Qed.

Lemma source_list_eq sources cd :
  source_list sources cd =
  map (fun s => (s, (1 <? query_ball_count sources cd s)%nat)) sources.
Proof. unfold source_list, crowded_flags. apply zip_map_r. Qed.

Lemma find_pixel_offsets_ok sources pr res cd :
  (exists g, find_pixel_offsets sources pr res cd = Ok g) <->
  Forall (source_ok pr res) sources.
Proof.
  unfold find_pixel_offsets. fold (source_list sources cd).
  rewrite source_list_eq. split.
  - intros [g H]. bind_inv H.
    assert (Hf : Forall (fun sc : source * bool => source_ok pr res sc.1)
                   (map (fun s => (s, (1 <? query_ball_count sources cd s)%nat)) sources)).
    { apply (for_each_sources_ok pr res _ (full res nan_cell, full res false)). eauto. }
    rewrite List.Forall_map in Hf. exact Hf.
  - intros Hf.
    assert (Hf' : Forall (fun sc : source * bool => source_ok pr res sc.1)
                   (map (fun s => (s, (1 <? query_ball_count sources cd s)%nat)) sources)).
    { rewrite List.Forall_map. exact Hf. }
    apply (for_each_sources_ok pr res _ (full res nan_cell, full res false)) in Hf'
      as [st Hst].
    rewrite Hst. simpl. eauto.
Qed.

Lemma source_list_perm sources sources' cd :
  Permutation sources sources' ->
  Permutation (source_list sources cd) (source_list sources' cd).
Proof.
  intros Hp. rewrite !source_list_eq.
  rewrite (map_ext (fun s => (s, (1 <? query_ball_count sources' cd s)%nat))
                   (fun s => (s, (1 <? query_ball_count sources cd s)%nat))).
  - apply Permutation_map. exact Hp.
  - intros s. unfold query_ball_count.
    rewrite (count_perm (within cd s) sources sources' Hp). reflexivity.
Qed.

Lemma source_list_lookup sources cd (i : nat) :
  source_list sources cd !! i =
  (fun s => (s, (1 <? query_ball_count sources cd s)%nat)) <$> sources !! i.
Proof. rewrite source_list_eq. apply lookup_map. Qed.

Lemma crowded_flags_lookup sources cd (i : nat) :
  crowded_flags sources cd !! i =
  (fun s => (1 <? query_ball_count sources cd s)%nat) <$> sources !! i.
Proof. unfold crowded_flags. apply lookup_map. Qed.

Lemma find_pixel_offsets_cell sources pr res cd g (y x : nat) :
  find_pixel_offsets sources pr res cd = Ok g ->
  (y < fst res)%nat -> (x < snd res)%nat ->
  at2 g y x = Some (final_cell pr res y x (source_list sources cd)).
Proof. apply find_pixel_offsets_pixel. Qed.

(** ** Overlapping rectangles (C1) *)

(** C1.  When two sources of the list have clipped extraction rectangles that
    overlap, every pixel of the overlap is invalid (all four fields [nan]) in
    the grid [find_pixel_offsets] returns; and for every permutation of the
    source list the function returns as well, with the same set of invalid
    pixels. *)
Theorem overlap_invalid_any_order sources pr res cd g :
  find_pixel_offsets sources pr res cd = Ok g ->
  (forall (i j : nat) (si sj : source) (y x : nat),
      i <> j -> sources !! i = Some si -> sources !! j = Some sj ->
      covers pr res si y x = true -> covers pr res sj y x = true ->
      at2 g y x = Some nan_cell) /\
  (forall sources',
      Permutation sources sources' ->
      exists g',
        find_pixel_offsets sources' pr res cd = Ok g' /\
        forall y x : nat, at2 g y x = Some nan_cell <-> at2 g' y x = Some nan_cell).
Proof.
  intros Hg. split.
  - intros i j si sj y x Hij Hi Hj Hci Hcj.
    destruct (covers_inv pr res si y x Hci) as (Hy & Hx & _).
    rewrite (find_pixel_offsets_cell _ _ _ _ _ y x Hg Hy Hx). f_equal.
    apply final_cell_invalid.
    assert (H2 : (2 <= cover_count pr res y x (source_list sources cd))%nat).
    { unfold cover_count.
      apply (count_two _ _ i j
               (si, (1 <? query_ball_count sources cd si)%nat)
               (sj, (1 <? query_ball_count sources cd sj)%nat)); try assumption.
      - rewrite source_list_lookup, Hi. reflexivity.
      - rewrite source_list_lookup, Hj. reflexivity. }
    apply orb_true_iff. left. apply orb_true_iff. right. apply Nat.ltb_lt. lia.
  - intros sources' Hp.
    assert (Hok : exists g', find_pixel_offsets sources' pr res cd = Ok g').
    { apply find_pixel_offsets_ok.
      assert (Hf : Forall (source_ok pr res) sources)
        by (apply (find_pixel_offsets_ok sources pr res cd); eauto).
      exact (Permutation_Forall Hp Hf). }
    destruct Hok as [g' Hg']. exists g'. split; [ exact Hg' | ].
    intros y x.
    destruct (decide ((y < fst res)%nat /\ (x < snd res)%nat)) as [[Hy Hx]|Hout].
    + rewrite (find_pixel_offsets_cell _ _ _ _ _ y x Hg Hy Hx).
      rewrite (find_pixel_offsets_cell _ _ _ _ _ y x Hg' Hy Hx).
      pose proof (final_cell_perm pr res y x _ _ (source_list_perm _ _ cd Hp)) as Hf.
      split; intros H; f_equal; apply Hf; congruence.
    + rewrite (find_pixel_offsets_outside _ _ _ _ _ y x Hg Hout).
      rewrite (find_pixel_offsets_outside _ _ _ _ _ y x Hg' Hout). reflexivity.
Qed.

(** ** Crowded sources (C2) *)

Lemma within_distance_le cd s t :
  (0 <= cd)%Q -> (within cd s t = true <-> distance_le cd s t).
Proof.
  intros Hcd. unfold within, distance_le. split.
  - destruct (src_x s) as [px| | |], (src_y s) as [py| | |],
      (src_x t) as [qx| | |], (src_y t) as [qy| | |]; try discriminate.
    intros H. apply Qle_bool_iff in H. exists px, py, qx, qy. auto 10.
  - intros (px & py & qx & qy & -> & -> & -> & -> & _ & H).
    apply Qle_bool_iff. exact H.
Qed.

Lemma within_self cd s qx qy :
  src_x s = Num qx -> src_y s = Num qy -> within cd s s = true.
Proof.
  intros Hx Hy. unfold within. rewrite Hx, Hy. apply Qle_bool_iff. nra.
Qed.

Lemma find_pixel_offsets_finite sources pr res cd g (i : nat) s :
  find_pixel_offsets sources pr res cd = Ok g -> sources !! i = Some s ->
  exists qx qy, src_x s = Num qx /\ src_y s = Num qy.
Proof.
  intros Hg Hi.
  assert (Hf : Forall (source_ok pr res) sources)
    by (apply (find_pixel_offsets_ok sources pr res cd); eauto).
  rewrite Forall_lookup in Hf.
  destruct (Hf i s Hi) as (min_x & max_x & min_y & max_y & _ & _ & Hb & _).
  apply source_bounds_range in Hb as [Hfin _]. exact Hfin.
Qed.

(** C2.  With a crowding distance [cd >= 0], a source is flagged crowded
    exactly when more than one source of the list, itself included, lies at a
    distance of at most [cd] from it (the interval is closed), that is, when
    another source does; and every pixel of the rectangle of a source flagged
    crowded is invalid in the returned grid. *)
Theorem crowded_flag_closed_ball sources pr res cd g :
  (0 <= cd)%Q ->
  find_pixel_offsets sources pr res cd = Ok g ->
  forall (i : nat) (s : source),
    sources !! i = Some s ->
    (forall t, within cd s t = true <-> distance_le cd s t) /\
    (crowded_flags sources cd !! i = Some true <->
     (1 < length (List.filter (within cd s) sources))%nat) /\
    (crowded_flags sources cd !! i = Some true <->
     exists (j : nat) (t : source),
       j <> i /\ sources !! j = Some t /\ distance_le cd s t) /\
    (crowded_flags sources cd !! i = Some true ->
     forall y x : nat, covers pr res s y x = true -> at2 g y x = Some nan_cell).
Proof.
  intros Hcd Hg i s Hi.
  assert (Hflag : crowded_flags sources cd !! i = Some true <->
                  (1 < length (List.filter (within cd s) sources))%nat).
  { rewrite crowded_flags_lookup, Hi. simpl. unfold query_ball_count. split.
    - intros H. injection H as H. apply Nat.ltb_lt. exact H.
    - intros H. f_equal. apply Nat.ltb_lt. exact H. }
  split; [ | split; [ exact Hflag | split ] ].
  - intros t. apply within_distance_le. exact Hcd.
  - rewrite Hflag. split.
    + intros H.
      destruct (count_two_inv (within cd s) sources ltac:(lia))
        as (i1 & i2 & a & b & Hne & H1 & H2 & Ha & Hb).
      destruct (decide (i1 = i)) as [->|Hn1].
      * exists i2, b. split; [ congruence | ]. split; [ exact H2 | ].
        apply within_distance_le; assumption.
      * exists i1, a. split; [ exact Hn1 | ]. split; [ exact H1 | ].
        apply within_distance_le; assumption.
    + intros (j & t & Hne & Hj & Hd).
      destruct (find_pixel_offsets_finite _ _ _ _ _ i s Hg Hi) as (qx & qy & Hx & Hy).
      apply (count_two (within cd s) sources i j s t); auto.
      * exact (within_self cd s qx qy Hx Hy).
      * apply within_distance_le; assumption.
  - intros Hc y x Hcov.
    destruct (covers_inv pr res s y x Hcov) as (Hy & Hx & _).
    rewrite (find_pixel_offsets_cell _ _ _ _ _ y x Hg Hy Hx). f_equal.
    apply final_cell_invalid.
    apply orb_true_iff. left. apply orb_true_iff. left.
    unfold crowded_cover. apply existsb_exists.
    exists (s, true). split.
    + apply list_elem_of_In. apply (list_elem_of_lookup_2 _ i).
      rewrite source_list_lookup, Hi. simpl. do 2 f_equal.
      rewrite crowded_flags_lookup, Hi in Hc. simpl in Hc. congruence.
    + simpl. rewrite Hcov. reflexivity.
Qed.

(** ** Isolated sources (C3) *)


(** ** A rectangle left of the image *)

(** A source whose rectangle ends left of the image selects columns counted
    from the right edge, and the assignment of its (empty) offsets raises. *)
Example source_left_of_image_raises :
  find_pixel_offsets [source_at (-20) 10] range_11_8_4_4 res_20_20 1 = Raise ValueError.
Proof. vm_compute. reflexivity. Qed.

(** ** The size of the rectangle (C9) *)









(** The sum with the width is rounded: with a width of [11 + 2^-49] a source
    at x = 1028 gets the columns 1024 to 1035, eleven of them, where the
    width rounded up is 12. *)
Example rect_size_rounded_sum :
  source_bounds range_wider res_20_2000 (source_at 1028 10) = Ok (1024, 1035, 6, 14) /\
  Qceiling (pr_width range_wider) = 12.
Proof. split; vm_compute; reflexivity. Qed.

(** The extent can be the width although [x - x_offset] is not an integer:
    at x = [4 + 2^-50] the difference is [2^-50], and its sum with 11 rounds
    to 11. *)
Example rect_size_width_not_whole :
  source_bounds range_11_8_4_4 res_20_20 (source_at next_after_4 10) = Ok (0, 11, 6, 14) /\
  fsub64 (Num next_after_4) (Num 4) = Num (1 # 1125899906842624).
Proof. split; vm_compute; reflexivity. Qed.

(** ** get_prf_data (C4) *)

Lemma shape_zip_with {A B C : Type} (f : A -> B -> C) (a : array2 A) (b : array2 B) :
  map length a = map length b ->
  map length (zip_with (zip_with f) a b) = map length a.
Proof.
  revert b. induction a as [|ra a IH]; intros [|rb b] H; try discriminate;
    simpl in *; [ reflexivity | ].
  injection H as Hr H. f_equal; [ | apply IH; exact H ].
  rewrite length_zip_with. lia.
Qed.

Lemma concat_zip_with {A B C : Type} (f : A -> B -> C) (a : array2 A) (b : array2 B) :
  map length a = map length b ->
  concat (zip_with (zip_with f) a b) = zip_with f (concat a) (concat b).
Proof.
  revert b. induction a as [|ra a IH]; intros [|rb b] H; try discriminate;
    simpl in *; [ reflexivity | ].
  injection H as Hr H. rewrite zip_with_app by exact Hr. f_equal. apply IH. exact H.
Qed.

Lemma elementwise_same_shape {A B C : Type} (f : A -> B -> C) (a : array2 A) (b : array2 B) :
  map length a = map length b ->
  elementwise f a b = Ok (zip_with (zip_with f) a b).
Proof.
  intros H. unfold elementwise, same_shape.
  rewrite bool_decide_eq_true_2 by exact H. reflexivity.
Qed.



(** On the flattened arrays, the four boolean-index selections stacked are the
    samples that pass the test, in order. *)
Lemma stack4_select (thr : Q) (C : list cell) :
  forall V S : list fval,
    let M := zip_with (fun v c => fdiv (fsub v (zero_point c)) (norm c)) V C in
    let E := zip_with (fun s c => fdiv s (norm c)) S C in
    let I := zip_with (fun i e => i && flt e (Num thr))
               (zip_with (fun m e => isfinite m && isfinite e) M E) E in
    stack4 (mask_select (map x_off C) I) (mask_select (map y_off C) I)
           (mask_select M I) (mask_select E I)
    = List.filter (included thr)
        (zip_with (fun v sc => sample_of v sc.1 sc.2) V (zip S C)).
Proof.
  induction C as [|c C IH]; intros V S.
  - destruct V, S; reflexivity.
  - destruct V as [|v V]; [ reflexivity | ].
    destruct S as [|s S]; [ reflexivity | ].
    specialize (IH V S). cbn zeta in IH. cbn zeta.
    cbn [zip_with map mask_select List.filter].
    unfold included at 1. cbn [sample_of s_value s_error fst snd].
    destruct (isfinite (fdiv (fsub v (zero_point c)) (norm c))
              && isfinite (fdiv s (norm c))
              && flt (fdiv s (norm c)) (Num thr)).
    + unfold stack4 in *. cbn [zip_with fst snd]. f_equal. exact IH.
    + exact IH.
Qed.

Lemma get_prf_data_flat pv sd po thr :
  map length pv = map length po -> map length sd = map length po ->
  get_prf_data pv sd po thr
  = Ok (List.filter (included thr) (concat (samples2 pv sd po))).
Proof.
  intros Hv Hs. unfold get_prf_data.
  rewrite (elementwise_same_shape _ pv po Hv). cbn [bind].
  rewrite (elementwise_same_shape _ sd po Hs). cbn [bind].
  set (M := zip_with (zip_with (fun v c => fdiv (fsub v (zero_point c)) (norm c))) pv po).
  set (E := zip_with (zip_with (fun s c => fdiv s (norm c))) sd po).
  assert (HM : map length M = map length po)
    by (unfold M; rewrite shape_zip_with; assumption).
  assert (HE : map length E = map length po)
    by (unfold E; rewrite shape_zip_with; assumption).
  rewrite (elementwise_same_shape _ M E) by congruence. cbn [bind].
  set (I1 := zip_with (zip_with (fun m e => isfinite m && isfinite e)) M E).
  assert (HI1 : map length I1 = map length po)
    by (unfold I1; rewrite shape_zip_with; congruence).
  rewrite (elementwise_same_shape _ I1 E) by congruence. cbn [bind].
  f_equal. unfold mask_select2, field2.
  rewrite (concat_zip_with _ I1 E) by congruence.
  unfold I1. rewrite (concat_zip_with _ M E) by congruence.
  unfold M, E. rewrite (concat_zip_with _ pv po Hv), (concat_zip_with _ sd po Hs).
  assert (Hx : concat (map (map x_off) po) = map x_off (concat po))
    by (symmetry; apply concat_map).
  assert (Hy : concat (map (map y_off) po) = map y_off (concat po))
    by (symmetry; apply concat_map).
  rewrite ?Hx, ?Hy.
  rewrite (stack4_select thr (concat po) (concat pv) (concat sd)).
  f_equal. unfold samples2.
  rewrite concat_zip_with.
  - f_equal. symmetry. apply (concat_zip_with pair). exact Hs.
  - rewrite shape_zip_with; congruence.
Qed.





(** ** Slice assignment *)

Lemma length_slice_assign row a b vals row' :
  slice_assign row a b vals = Ok row' -> length row' = length row.
Proof.
  unfold slice_assign. intros H. bind_inv H. injection H as <-.
  apply length_broadcast_to in E.
  pose proof (slice_bound_le (length row) a).
  pose proof (slice_bound_le (length row) b).
  rewrite !length_app, length_map, length_take, length_drop, E. lia.
Qed.

(** An assignment to [row[a : b]] leaves the entries before [a] alone. *)
Lemma slice_assign_prefix row a b vals row' (k : nat) :
  slice_assign row a b vals = Ok row' -> Z.of_nat k <= a ->
  take k row' = take k row.
Proof.
  unfold slice_assign. intros H Hk. bind_inv H. injection H as <-.
  apply length_broadcast_to in E.
  pose proof (slice_bound_nonneg (length row) a ltac:(lia)) as Hs.
  pose proof (slice_bound_le (length row) b) as He.
  set (s := slice_bound (length row) a) in *.
  set (e := slice_bound (length row) b) in *.
  destruct (Nat.le_gt_cases k s) as [Hl|Hl].
  - rewrite take_app_le by (rewrite length_take; lia).
    rewrite take_take. f_equal. lia.
  - assert (Hn : s = length row) by lia.
    assert (Ha0 : length a0 = 0%nat) by lia.
    destruct a0; [ | discriminate ]. cbn [map app].
    replace (s + (e - s))%nat with (length row) by lia.
    rewrite Hn.
    rewrite (take_ge row (length row)), (drop_ge row (length row)) by lia.
    rewrite app_nil_r. reflexivity.
Qed.

(** Storing [vals] right after the written part of a row whose remainder is
    still unwritten. *)
Lemma slice_assign_app (pre : list (option fval)) (m : nat) (a b : Z) (vals : list fval) :
  a = Z.of_nat (length pre) -> b = a + Z.of_nat (length vals) ->
  (length vals <= m)%nat ->
  slice_assign (pre ++ replicate m None) a b vals
  = Ok ((pre ++ map Some vals) ++ replicate (m - length vals) None).
Proof.
  intros Ha Hb Hm. unfold slice_assign.
  rewrite length_app, length_replicate.
  rewrite !slice_bound_nonneg by lia.
  assert (Hs : Nat.min (Z.to_nat a) (length pre + m) = length pre) by lia.
  assert (He : Nat.min (Z.to_nat b) (length pre + m) = (length pre + length vals)%nat)
    by lia.
  rewrite Hs, He.
  replace (length pre + length vals - length pre)%nat with (length vals) by lia.
  unfold broadcast_to. rewrite Nat.eqb_refl. cbn [bind]. f_equal.
  rewrite take_app_length. rewrite drop_app, drop_ge by lia.
  rewrite drop_replicate. rewrite <- app_assoc. simpl. do 3 f_equal. lia.
Qed.

Lemma length_slice_fill row a v : length (slice_fill row a v) = length row.
Proof.
  unfold slice_fill. pose proof (slice_bound_le (length row) a).
  rewrite length_app, length_take, length_replicate. lia.
Qed.

Lemma slice_fill_app (pre : list (option fval)) (m : nat) (a : Z) (v : fval) :
  a = Z.of_nat (length pre) ->
  slice_fill (pre ++ replicate m None) a v = pre ++ replicate m (Some v).
Proof.
  intros Ha. unfold slice_fill. rewrite length_app, length_replicate.
  rewrite slice_bound_nonneg by lia.
  replace (Nat.min (Z.to_nat a) (length pre + m)) with (length pre) by lia.
  rewrite take_app_length. f_equal. f_equal. lia.
Qed.

(** ** Storing the blocks of synthetic coordinates *)

Lemma write_xy_inv padded start xs ys padded' start' :
  write_xy (padded, start) xs ys = Ok (padded', start') ->
  start' = start + Z.of_nat (length xs) /\
  length (row0 padded') = length (row0 padded) /\
  length (row1 padded') = length (row1 padded) /\
  row2 padded' = row2 padded /\ row3 padded' = row3 padded /\
  forall k : nat, Z.of_nat k <= start ->
    take k (row0 padded') = take k (row0 padded) /\
    take k (row1 padded') = take k (row1 padded).
Proof.
  unfold write_xy. intros H. bind_inv H. bind_inv H. injection H as <- <-. simpl.
  split; [ reflexivity | ].
  split; [ exact (length_slice_assign _ _ _ _ _ E) | ].
  split; [ exact (length_slice_assign _ _ _ _ _ E0) | ].
  split; [ reflexivity | ]. split; [ reflexivity | ].
  intros k Hk. split.
  - exact (slice_assign_prefix _ _ _ _ _ k E Hk).
  - exact (slice_assign_prefix _ _ _ _ _ k E0 Hk).
Qed.

Lemma write_all_inv blocks :
  forall padded start padded' start',
    0 <= start ->
    write_all blocks (padded, start) = Ok (padded', start') ->
    start' = start + Z.of_nat (length (concat (map fst blocks))) /\
    length (row0 padded') = length (row0 padded) /\
    length (row1 padded') = length (row1 padded) /\
    row2 padded' = row2 padded /\ row3 padded' = row3 padded /\
    forall k : nat, Z.of_nat k <= start ->
      take k (row0 padded') = take k (row0 padded) /\
      take k (row1 padded') = take k (row1 padded).
Proof.
  unfold write_all.
  induction blocks as [|[xs ys] blocks IH]; intros padded start padded' start' H0 H;
    simpl in H.
  - injection H as <- <-. simpl. repeat split; try reflexivity; lia.
  - bind_inv H. destruct a as [p1 s1].
    apply write_xy_inv in E as (-> & L0 & L1 & R2 & R3 & Hpre).
    apply IH in H as (-> & L0' & L1' & R2' & R3' & Hpre'); [ | lia ].
    simpl. rewrite length_app.
    split; [ lia | ]. split; [ congruence | ]. split; [ congruence | ].
    split; [ congruence | ]. split; [ congruence | ].
    intros k Hk. destruct (Hpre k Hk) as [A0 A1].
    destruct (Hpre' k ltac:(lia)) as [B0 B1]. split; congruence.
Qed.

(** When the unwritten remainder of rows 0 and 1 has room for all blocks,
    they are stored one after the other. *)
Lemma write_all_app blocks :
  forall (p0 p1 : list (option fval)) (m : nat) (r2 r3 : list (option fval)) (start : Z),
    length p0 = length p1 -> start = Z.of_nat (length p0) ->
    Forall (fun w : list fval * list fval => length w.1 = length w.2) blocks ->
    (length (concat (map fst blocks)) <= m)%nat ->
    write_all blocks
      ({| row0 := p0 ++ replicate m None; row1 := p1 ++ replicate m None;
          row2 := r2; row3 := r3 |}, start)
    = Ok ({| row0 := (p0 ++ map Some (concat (map fst blocks)))
                     ++ replicate (m - length (concat (map fst blocks))) None;
             row1 := (p1 ++ map Some (concat (map snd blocks)))
                     ++ replicate (m - length (concat (map fst blocks))) None;
             row2 := r2; row3 := r3 |},
          start + Z.of_nat (length (concat (map fst blocks)))).
Proof.
  unfold write_all.
  induction blocks as [|[xs ys] blocks IH]; intros p0 p1 m r2 r3 start Hp Hs Hf Hm.
  - simpl. rewrite !app_nil_r, Nat.sub_0_r, Z.add_0_r. reflexivity.
  - inversion Hf as [|? ? Hxy Hf']; subst. simpl in Hxy, Hm.
    rewrite length_app in Hm.
    cbn [for_each]. unfold write_xy at 1. cbn [row0 row1 row2 row3 fst snd].
    rewrite (slice_assign_app p0 m _ _ xs) by lia. cbn [bind].
    rewrite (slice_assign_app p1 m _ _ ys) by lia. cbn [bind].
    rewrite <- Hxy.
    rewrite (IH (p0 ++ map Some xs) (p1 ++ map Some ys) (m - length xs)%nat r2 r3).
    + cbn [map concat fst snd]. rewrite !length_app, !map_app, !app_assoc.
      replace (m - length xs - length (concat (map fst blocks)))%nat
        with (m - (length xs + length (concat (map fst blocks))))%nat by lia.
      rewrite Nat2Z.inj_add, Z.add_assoc. reflexivity.
    + rewrite !length_app, !length_map. lia.
    + rewrite length_app, length_map. lia.
    + exact Hf'.
    + lia.
Qed.

Lemma fill_padding_blocks corner_x corner_y mid_x_x mid_x_y mid_y_x mid_y_y
    dom xp yp st :
  fill_padding corner_x corner_y mid_x_x mid_x_y mid_y_x mid_y_y dom xp yp st
  = (st' <- write_all (padding_blocks corner_x corner_y mid_x_x mid_x_y mid_y_x mid_y_y
                                      dom xp yp) st ;;
     Ok (st', false)).
Proof.
  unfold fill_padding, write_all, padding_blocks. destruct st as [padded start].
  cbn [for_each fst snd].
  repeat (match goal with
          | |- context [bind (write_xy ?s ?a ?b) _] =>
              destruct (write_xy s a b) as [[? ?]|]; cbn [bind for_each fst snd];
              try reflexivity
          end).
Qed.

(** ** The pieces of pad_prf_data *)

Lemma length_linspace_points a b num : length (linspace_points a b num) = Z.to_nat num.
Proof. unfold linspace_points. rewrite length_map, length_seq. reflexivity. Qed.

Lemma linspace_inv a b num l :
  linspace a b num = Ok l -> 0 <= num /\ l = linspace_points a b num.
Proof.
  unfold linspace. destruct (Z.ltb_spec num 0) as [Hn|Hn]; [ discriminate | ].
  intros H. injection H as <-. auto.
Qed.

Lemma linspace_nonneg a b num :
  0 <= num -> linspace a b num = Ok (linspace_points a b num).
Proof. intros H. unfold linspace. destruct (Z.ltb_spec num 0); [ lia | reflexivity ]. Qed.

Lemma length_strip_ends {A : Type} (l : list A) :
  length (strip_ends l) = (length l - 2)%nat.
Proof.
  unfold strip_ends. rewrite removelast_firstn_len, length_take.
  destruct l as [|a [|b l]]; simpl; lia.
Qed.

Lemma length_meshgrid_x {A B : Type} (xs : list A) (ys : list B) :
  length (meshgrid_x xs ys) = (length ys * length xs)%nat.
Proof.
  unfold meshgrid_x. induction ys as [|y ys IH]; simpl; [ reflexivity | ].
  rewrite length_app, IH. reflexivity.
Qed.

Lemma length_meshgrid_y {A B : Type} (xs : list A) (ys : list B) :
  length (meshgrid_y xs ys) = (length ys * length xs)%nat.
Proof.
  unfold meshgrid_y. induction ys as [|y ys IH]; simpl; [ reflexivity | ].
  rewrite length_app, length_map, IH. reflexivity.
Qed.

Lemma length_shifted l off : length (shifted l off) = length l.
Proof. unfold shifted. apply length_map. Qed.

Lemma Qnum_nonneg (q : Q) : (0 <= q)%Q -> 0 <= Qnum q.
Proof. unfold Qle. simpl. lia. Qed.

Lemma py_truediv_inv (n : Z) (f : Q) (q : fval) :
  py_truediv n f = Ok q ->
  ~ f == 0 /\ q = round64 (round_nearest (inject_Z n) / f).
Proof.
  unfold py_truediv. destruct (round64 (inject_Z n)) as [n'| | |] eqn:En;
    try discriminate.
  apply round64_Num in En. subst n'.
  destruct (Z.eqb_spec (Qsign f) 0) as [H0|H0]; [ discriminate | ].
  intros H. injection H as <-. split; [ | reflexivity ].
  unfold Qeq, Qsign in *. simpl. lia.
Qed.

Lemma middle_npoints_inv cfg mid :
  middle_npoints cfg = Ok mid ->
  exists v : Q,
    ~ spline_pad_fraction cfg == 0 /\
    v = round_nearest (round_nearest (inject_Z (spline_pad_npoints cfg))
                       / spline_pad_fraction cfg) /\
    mid = Z.quot (Qnum v) (Zpos (Qden v)).
Proof.
  unfold middle_npoints. intros H. bind_inv H.
  apply py_truediv_inv in E as [Hf ->].
  destruct (round64 _) as [v| | |] eqn:Ev; try discriminate H.
  apply round64_Num in Ev. exists v. simpl in H. split; [ exact Hf | ].
  split; [ exact Ev | congruence ].
Qed.

(** With a positive pad fraction and no negative number of points,
    [middle_npoints] is not negative. *)
Lemma middle_npoints_nonneg cfg mid :
  (0 < spline_pad_fraction cfg)%Q -> 0 <= spline_pad_npoints cfg ->
  middle_npoints cfg = Ok mid -> 0 <= mid.
Proof.
  intros Hf Hn H. apply middle_npoints_inv in H as (v & _ & Hv & ->).
  apply Z.quot_pos; [ | lia ]. apply Qnum_nonneg. subst v.
  apply round_nearest_nonneg.
  apply Qle_shift_div_l; [ exact Hf | ].
  rewrite Qmult_0_l. apply round_nearest_nonneg.
  change 0%Q with (inject_Z 0). rewrite <- Zle_Qle. exact Hn.
Qed.

(** Without padding points [middle_npoints] is zero. *)
Lemma middle_npoints_zero cfg mid :
  middle_npoints cfg = Ok mid -> spline_pad_npoints cfg = 0 -> mid = 0.
Proof.
  intros H H0. apply middle_npoints_inv in H as (v & _ & Hv & ->).
  rewrite H0 in Hv.
  assert (E : v == 0).
  { subst v. apply round_nearest_zero.
    rewrite (round_nearest_zero (inject_Z 0)) by reflexivity.
    unfold Qdiv. ring. }
  assert (E0 : Qnum v = 0) by (unfold Qeq in E; simpl in E; lia).
  rewrite E0. reflexivity.
Qed.

Lemma np_min_inv l m : np_min l = Ok m -> l <> [].
Proof. destruct l; [ discriminate | congruence ]. Qed.

Lemma np_min_nonempty l : l <> [] -> exists m, np_min l = Ok m.
Proof. destruct l; [ congruence | ]. simpl. eauto. Qed.

Lemma empty4_inv n padded :
  empty4 n = Ok padded ->
  0 <= n /\
  padded = {| row0 := replicate (Z.to_nat n) None; row1 := replicate (Z.to_nat n) None;
              row2 := replicate (Z.to_nat n) None; row3 := replicate (Z.to_nat n) None |}.
Proof.
  unfold empty4. destruct (Z.ltb_spec n 0) as [Hn|Hn]; [ discriminate | ].
  intros H. injection H as <-. auto.
Qed.

(** The real samples go to the front of a freshly allocated row. *)
Lemma slice_assign_first (t k : nat) (vals : list fval) r :
  slice_assign (replicate t None) 0 (Z.of_nat k) vals = Ok r ->
  length vals = k -> (k = 1%nat -> t <> 0%nat) ->
  (k <= t)%nat /\ r = map Some vals ++ replicate (t - k) None.
Proof.
  intros H Hk Ht.
  destruct (Nat.le_gt_cases k t) as [Hle|Hgt].
  - split; [ exact Hle | ].
    pose proof (slice_assign_app [] t 0 (Z.of_nat k) vals) as H'.
    cbn [app length] in H'. rewrite H' in H by lia.
    injection H as <-. rewrite Hk. reflexivity.
  - exfalso. unfold slice_assign in H. bind_inv H.
    rewrite length_replicate in E. rewrite !slice_bound_nonneg in E by lia.
    apply broadcast_to_inv in E as [[E _]|(v & -> & _)]; simpl in *; lia.
Qed.

Lemma length_padding_blocks cx cy mxx mxy myx myy dom xp yp :
  length mxy = length mxx -> length myy = length myx -> length cy = length cx ->
  Forall (fun w : list fval * list fval => length w.1 = length w.2)
         (padding_blocks cx cy mxx mxy myx myy dom xp yp) /\
  length (concat (map fst (padding_blocks cx cy mxx mxy myx myy dom xp yp)))
  = (2 * length myx + 2 * length mxx + 4 * length cx)%nat.
Proof.
  intros H1 H2 H3. unfold padding_blocks. split.
  - repeat constructor; simpl; rewrite ?length_shifted, ?length_map; congruence.
  - cbn [map concat fst]. rewrite !length_app, !length_shifted, !length_map.
    simpl. lia.
Qed.

Lemma length_synthetic_blocks cfg mid :
  0 <= spline_pad_npoints cfg -> 0 <= mid ->
  Forall (fun w : list fval * list fval => length w.1 = length w.2)
         (synthetic_blocks cfg mid) /\
  length (concat (map fst (synthetic_blocks cfg mid)))
  = Z.to_nat (4 * spline_pad_npoints cfg * (mid + spline_pad_npoints cfg)).
Proof.
  intros Hn Hm. unfold synthetic_blocks.
  match goal with
  | |- context [padding_blocks ?cx ?cy ?mxx ?mxy ?myx ?myy ?d ?xp ?yp] =>
      destruct (length_padding_blocks cx cy mxx mxy myx myy d xp yp) as [HF HL]
  end.
  - rewrite length_meshgrid_x, length_meshgrid_y. reflexivity.
  - rewrite length_meshgrid_x, length_meshgrid_y. reflexivity.
  - rewrite length_meshgrid_x, length_meshgrid_y. reflexivity.
  - split; [ exact HF | ]. rewrite HL.
    rewrite !length_meshgrid_x, !length_strip_ends, !length_linspace_points.
    nia.
Qed.

(** ** The state of pad_prf_data at its return *)

Lemma num_keep_length data cfg :
  num_keep data cfg = Z.of_nat (length (kept_samples data cfg)).
Proof. reflexivity. Qed.

(** Whenever [pad_prf_data] returns: a real sample was kept, the allocation
    and the preparations went through, and the fill loops stored the blocks
    of the configuration into the array of the real samples. *)
Lemma pad_prf_data_state_writes data cfg padded pos dom :
  pad_prf_data_state data cfg = Ok (padded, pos, dom) ->
  exists (mid : Z) (min_error : fval),
    let kept := kept_samples data cfg in
    let n := Z.to_nat (4 * spline_pad_npoints cfg * (mid + spline_pad_npoints cfg)) in
    middle_npoints cfg = Ok mid /\
    np_min (map s_error kept) = Ok min_error /\
    1 <= num_keep data cfg /\
    0 <= 4 * spline_pad_npoints cfg * (mid + spline_pad_npoints cfg) /\
    0 <= spline_pad_npoints cfg /\ 0 <= mid + 2 /\
    write_all (synthetic_blocks cfg mid)
              (real_samples_array kept n
                 (fdiv min_error (Num (inject_Z (num_keep data cfg)))),
               num_keep data cfg)
    = Ok (padded, pos) /\
    dom = domain cfg.
Proof.
  unfold pad_prf_data_state. cbv zeta. fold (kept_samples data cfg).
  rewrite num_keep_length.
  set (kept := kept_samples data cfg). set (k := length kept).
  intros H. bind_inv H. rename a into mid. bind_inv H.
  apply empty4_inv in E0 as [Htot ->]. cbn [row0 row1 row2 row3] in H.
  set (t := Z.to_nat (Z.of_nat k + 4 * spline_pad_npoints cfg
                                   * (mid + spline_pad_npoints cfg))) in *.
  bind_inv H. bind_inv H. bind_inv H. bind_inv H. bind_inv H.
  rename a3 into min_error.
  assert (Hk : (1 <= k)%nat).
  { apply np_min_inv in E4. destruct kept eqn:Ek; [ contradiction | ].
    unfold k. simpl. lia. }
  assert (Hkt : k = 1%nat -> t <> 0%nat) by (unfold t; lia).
  apply slice_assign_first in E0 as [Hle ->]; [ | apply length_map | exact Hkt ].
  apply slice_assign_first in E1 as [_ ->]; [ | apply length_map | exact Hkt ].
  apply slice_assign_first in E2 as [_ ->]; [ | apply length_map | exact Hkt ].
  apply slice_assign_first in E3 as [_ ->]; [ | apply length_map | exact Hkt ].
  rewrite !slice_fill_app in H by (rewrite !length_map; reflexivity).
  do 4 bind_inv H.
  apply linspace_inv in E0 as [Hnp ->]. apply linspace_inv in E1 as [_ ->].
  apply linspace_inv in E2 as [Hm2 ->]. apply linspace_inv in E3 as [_ ->].
  rewrite fill_padding_blocks in H.
  change (padding_blocks _ _ _ _ _ _ _ _ _) with (synthetic_blocks cfg mid) in H.
  match type of H with
  | context [write_all ?b ?s] =>
      destruct (write_all b s) as [[padded' pos']|] eqn:Ew
  end; cbn [bind fst snd] in H; [ | discriminate H ].
  injection H as <- <- <-.
  assert (Hn : (t - k)%nat
               = Z.to_nat (4 * spline_pad_npoints cfg * (mid + spline_pad_npoints cfg)))
    by (unfold t; lia).
  rewrite Hn in Ew.
  exists mid, min_error. cbn zeta.
  split; [ reflexivity | ]. split; [ reflexivity | ].
  split; [ lia | ]. split; [ unfold t in Hle; lia | ].
  split; [ exact Hnp | ]. split; [ exact Hm2 | ].
  split; [ exact Ew | reflexivity ].
Qed.

(** What is known of the returned array in every case. *)
Lemma pad_prf_data_state_inv data cfg padded pos dom :
  pad_prf_data_state data cfg = Ok (padded, pos, dom) ->
  exists (mid : Z) (min_error : fval),
    let kept := kept_samples data cfg in
    let n := Z.to_nat (4 * spline_pad_npoints cfg * (mid + spline_pad_npoints cfg)) in
    middle_npoints cfg = Ok mid /\
    np_min (map s_error kept) = Ok min_error /\
    1 <= num_keep data cfg /\
    0 <= 4 * spline_pad_npoints cfg * (mid + spline_pad_npoints cfg) /\
    length (row0 padded) = (length kept + n)%nat /\
    length (row1 padded) = (length kept + n)%nat /\
    take (length kept) (row0 padded) = map Some (map s_x kept) /\
    take (length kept) (row1 padded) = map Some (map s_y kept) /\
    row2 padded = map Some (map s_value kept) ++ replicate n (Some (Num 0)) /\
    row3 padded = map Some (map s_error kept)
                  ++ replicate n (Some (fdiv min_error (Num (inject_Z (num_keep data cfg))))) /\
    dom = domain cfg.
Proof.
  intros H. apply pad_prf_data_state_writes in H as (mid & m & H). cbn zeta in H.
  destruct H as (Hmid & Hmin & Hk & HX & _ & _ & Hw & Hd).
  rewrite num_keep_length in Hw, Hk.
  apply write_all_inv in Hw as (_ & L0 & L1 & R2 & R3 & Hpre); [ | lia ].
  unfold real_samples_array in *. cbn [row0 row1 row2 row3] in *.
  destruct (Hpre (length (kept_samples data cfg)) ltac:(lia)) as [P0 P1].
  exists mid, m. cbn zeta.
  split; [ exact Hmid | ]. split; [ exact Hmin | ].
  split; [ rewrite num_keep_length; exact Hk | ]. split; [ exact HX | ].
  split; [ rewrite L0, length_app, !length_map, length_replicate; reflexivity | ].
  split; [ rewrite L1, length_app, !length_map, length_replicate; reflexivity | ].
  split; [ rewrite P0; apply take_app_length'; rewrite !length_map; reflexivity | ].
  split; [ rewrite P1; apply take_app_length'; rewrite !length_map; reflexivity | ].
  split; [ exact R2 | ]. split; [ exact R3 | exact Hd ].
Qed.

(** The state with which the model of [pad_prf_data] returns when
    [middle_npoints] and the number of padding points are not negative and a
    real sample is kept (an array of any size can be allocated here). *)
Lemma pad_prf_data_state_total data cfg (mid : Z) :
  middle_npoints cfg = Ok mid -> 0 <= mid -> 0 <= spline_pad_npoints cfg ->
  1 <= num_keep data cfg ->
  exists min_error : fval,
    let kept := kept_samples data cfg in
    let n := Z.to_nat (4 * spline_pad_npoints cfg * (mid + spline_pad_npoints cfg)) in
    np_min (map s_error kept) = Ok min_error /\
    pad_prf_data_state data cfg
    = Ok ({| row0 := map Some (map s_x kept
                               ++ concat (map fst (synthetic_blocks cfg mid)));
             row1 := map Some (map s_y kept
                               ++ concat (map snd (synthetic_blocks cfg mid)));
             row2 := map Some (map s_value kept) ++ replicate n (Some (Num 0));
             row3 := map Some (map s_error kept)
                     ++ replicate n (Some (fdiv min_error
                                                (Num (inject_Z (num_keep data cfg))))) |},
          num_keep data cfg
          + 4 * spline_pad_npoints cfg * (mid + spline_pad_npoints cfg),
          domain cfg).
Proof.
  intros Hmid Hm0 Hnp Hk.
  assert (Hne : map s_error (kept_samples data cfg) <> []).
  { rewrite num_keep_length in Hk. destruct (kept_samples data cfg); simpl in *;
      [ lia | congruence ]. }
  destruct (np_min_nonempty _ Hne) as [min_error Hmin].
  exists min_error. cbn zeta. split; [ exact Hmin | ].
  destruct (length_synthetic_blocks cfg mid Hnp Hm0) as [HF HL].
  unfold pad_prf_data_state. cbv zeta. fold (kept_samples data cfg).
  rewrite Hmid. cbn [bind]. rewrite num_keep_length in *.
  set (kept := kept_samples data cfg) in *. set (k := length kept) in *.
  set (X := 4 * spline_pad_npoints cfg * (mid + spline_pad_npoints cfg)) in *.
  assert (HX : 0 <= X) by (unfold X; nia).
  unfold empty4. destruct (Z.ltb_spec (Z.of_nat k + X) 0) as [Hneg|_]; [ lia | ].
  cbn [bind row0 row1 row2 row3].
  replace (Z.to_nat (Z.of_nat k + X)) with (k + Z.to_nat X)%nat by lia.
  assert (Hfirst : forall vals : list fval, length vals = k ->
             slice_assign (replicate (k + Z.to_nat X) None) 0 (Z.of_nat k) vals
             = Ok (map Some vals ++ replicate (Z.to_nat X) None)).
  { intros vals Hv.
    pose proof (slice_assign_app [] (k + Z.to_nat X) 0 (Z.of_nat k) vals) as H'.
    cbn [app length] in H'. rewrite H' by lia. do 3 f_equal. lia. }
  rewrite !Hfirst by apply length_map. cbn [bind].
  rewrite Hmin. cbn [bind].
  rewrite !slice_fill_app by (rewrite !length_map; reflexivity).
  rewrite !linspace_nonneg by lia. cbn [bind].
  rewrite fill_padding_blocks.
  change (padding_blocks _ _ _ _ _ _ _ _ _) with (synthetic_blocks cfg mid).
  rewrite (write_all_app (synthetic_blocks cfg mid)
             (map Some (map s_x kept)) (map Some (map s_y kept)) (Z.to_nat X));
    [ | rewrite !length_map; reflexivity | rewrite !length_map; reflexivity
      | exact HF | lia ].
  cbn [bind fst snd]. rewrite HL, Nat.sub_diag. cbn [replicate].
  rewrite !app_nil_r, !map_app. do 3 f_equal. lia.
Qed.

(** ** A negative middle_npoints *)

Lemma write_xy_bound padded start xs ys padded' start' :
  write_xy (padded, start) xs ys = Ok (padded', start') ->
  0 <= start -> length xs <> 1%nat ->
  length xs = 0%nat \/
  start + Z.of_nat (length xs) <= Z.of_nat (length (row0 padded)).
Proof.
  unfold write_xy. intros H Hs H1. bind_inv H. clear H.
  unfold slice_assign in E. bind_inv E. clear E.
  rewrite !slice_bound_nonneg in E0 by lia.
  apply broadcast_to_inv in E0 as [[E0 _]|(v & -> & _)]; [ lia | ].
  simpl in H1. congruence.
Qed.

(** A block that is not a single point is stored only where there is room
    for all of it. *)
Lemma write_all_bound blocks :
  forall padded start padded' start',
    write_all blocks (padded, start) = Ok (padded', start') ->
    0 <= start ->
    Forall (fun w : list fval * list fval => length w.1 <> 1%nat) blocks ->
    length (concat (map fst blocks)) = 0%nat \/
    start + Z.of_nat (length (concat (map fst blocks)))
    <= Z.of_nat (length (row0 padded)).
Proof.
  induction blocks as [|[xs ys] blocks IH]; intros padded start padded' start' H Hs Hf.
  - left. reflexivity.
  - unfold write_all in H. cbn [for_each fst snd] in H. bind_inv H.
    destruct a as [p1 s1]. fold (write_all blocks (p1, s1)) in H.
    inversion Hf as [|? ? H1 Hf']; subst. cbn [fst] in H1.
    pose proof (write_xy_bound _ _ _ _ _ _ E Hs H1) as Hb.
    apply write_xy_inv in E as (-> & L0 & _).
    apply IH in H; [ | lia | exact Hf' ].
    cbn [map concat fst]. rewrite length_app. rewrite L0 in H. lia.
Qed.

Lemma synthetic_blocks_negative_middle cfg mid :
  0 <= spline_pad_npoints cfg -> mid < 0 ->
  length (concat (map fst (synthetic_blocks cfg mid)))
  = (4 * (Z.to_nat (spline_pad_npoints cfg) * Z.to_nat (spline_pad_npoints cfg)))%nat /\
  (2 <= spline_pad_npoints cfg ->
   Forall (fun w : list fval * list fval => length w.1 <> 1%nat)
          (synthetic_blocks cfg mid)).
Proof.
  intros Hn Hm. unfold synthetic_blocks, padding_blocks. split.
  - cbn [map concat fst]. rewrite !length_app, !length_shifted, !length_map.
    rewrite !length_meshgrid_x, !length_strip_ends, !length_linspace_points.
    simpl. nia.
  - intros H2. repeat constructor; cbn [fst];
      rewrite ?length_shifted, ?length_map, !length_meshgrid_x,
        ?length_strip_ends, !length_linspace_points; nia.
Qed.

(** With a negative [middle_npoints] the function returns only when no
    synthetic column is allocated. *)
Lemma negative_middle_no_padding data cfg padded pos dom mid :
  pad_prf_data_state data cfg = Ok (padded, pos, dom) ->
  middle_npoints cfg = Ok mid -> mid < 0 ->
  4 * spline_pad_npoints cfg * (mid + spline_pad_npoints cfg) = 0.
Proof.
  intros H Hmid Hneg.
  apply pad_prf_data_state_writes in H as (mid' & m & H). cbn zeta in H.
  destruct H as (Hmid' & _ & Hk & HX & Hnp & _ & Hw & _).
  rewrite Hmid in Hmid'. injection Hmid' as <-.
  destruct (Z.eq_dec (4 * spline_pad_npoints cfg * (mid + spline_pad_npoints cfg)) 0)
    as [H0|H0]; [ exact H0 | exfalso ].
  assert (H2 : 2 <= spline_pad_npoints cfg) by nia.
  destruct (synthetic_blocks_negative_middle cfg mid Hnp Hneg) as [HL HF].
  apply write_all_bound in Hw; [ | lia | exact (HF H2) ].
  rewrite HL in Hw. unfold real_samples_array in Hw. cbn [row0] in Hw.
  rewrite length_app, !length_map, length_replicate in Hw.
  rewrite num_keep_length in Hw. nia.
Qed.

(** ** The minimum and the kept samples *)









(** ** pad_prf_data without a real sample (C5) *)

Lemma pad_prf_data_inv data cfg out dom :
  pad_prf_data data cfg = Ok (out, dom) ->
  exists pos, pad_prf_data_state data cfg = Ok (out, pos, dom).
Proof.
  unfold pad_prf_data. intros H. bind_inv H. destruct a as [[p pos] d].
  injection H as <- <-. eauto.
Qed.

(** C5.  When no input sample lies strictly inside the unpadded rectangle, in
    particular when there is no input sample, [pad_prf_data] raises an
    exception and returns nothing. *)
Theorem pad_prf_data_no_real_sample data cfg :
  num_keep data cfg = 0 ->
  (exists e, pad_prf_data data cfg = Raise e) /\
  (exists e, pad_prf_data [] cfg = Raise e).
Proof.
  assert (Hgen : forall d, num_keep d cfg = 0 -> exists e, pad_prf_data d cfg = Raise e).
  { intros d H0. destruct (pad_prf_data d cfg) as [[out dom]|e] eqn:E; [ | eauto ].
    apply pad_prf_data_inv in E as [pos E].
    apply pad_prf_data_state_inv in E as (mid & m & _ & _ & Hk & _). lia. }
  intros H0. split; [ exact (Hgen data H0) | exact (Hgen [] eq_refl) ].
Qed.

Lemma pad_prf_data_no_real_sample_witness :
  num_keep [sample_at 20 0 1 (1 # 100)] args_half_1 = 0 /\
  (exists e, pad_prf_data [sample_at 20 0 1 (1 # 100)] args_half_1 = Raise e) /\
  (exists e, pad_prf_data [] args_half_1 = Raise e).
Proof.
  split; [ reflexivity | ].
  apply (pad_prf_data_no_real_sample [sample_at 20 0 1 (1 # 100)] args_half_1).
  reflexivity.
Defined.

(** ** The number of columns (C6) *)

(** With the defaults of the command line the exact quotient of 100 and the
    pad fraction is below 10000; the float quotient, which the code
    truncates, is 10000. *)
Example middle_npoints_defaults :
  middle_npoints args_defaults = Ok 10000 /\
  Z.quot (spline_pad_npoints args_defaults
          * Zpos (Qden (spline_pad_fraction args_defaults)))
         (Qnum (spline_pad_fraction args_defaults)) = 9999.
Proof. split; vm_compute; reflexivity. Qed.

(** With the smallest positive float as pad fraction the quotient overflows
    to infinity, and [int()] raises. *)
Example middle_npoints_overflow :
  middle_npoints args_subnormal_fraction = Raise OverflowError.
Proof. vm_compute. reflexivity. Qed.

(** C6.  Whenever [pad_prf_data] returns, a real sample was kept and each of
    the four rows of the array has
    [num_keep + 4 * pad_npoints^2 + 4 * pad_npoints * middle_npoints] columns,
    where [middle_npoints] is the float quotient [pad_npoints / pad_fraction]
    truncated towards zero. *)
Theorem pad_prf_data_columns data cfg out dom :
  pad_prf_data data cfg = Ok (out, dom) ->
  exists (mid : Z) (q : Q),
    middle_npoints cfg = Ok mid /\
    py_truediv (spline_pad_npoints cfg) (spline_pad_fraction cfg) = Ok (Num q) /\
    mid = Z.quot (Qnum q) (Zpos (Qden q)) /\
    1 <= num_keep data cfg /\
    forall row, In row [row0 out; row1 out; row2 out; row3 out] ->
      Z.of_nat (length row)
      = num_keep data cfg
        + 4 * (spline_pad_npoints cfg * spline_pad_npoints cfg)
        + 4 * spline_pad_npoints cfg * mid.
Proof.
  intros H. apply pad_prf_data_inv in H as [pos H].
  apply pad_prf_data_state_inv in H
    as (mid & m & Hmid & _ & Hk & HX & L0 & L1 & _ & _ & R2 & R3 & _).
  cbn zeta in *.
  assert (Hq : exists q, py_truediv (spline_pad_npoints cfg) (spline_pad_fraction cfg)
                         = Ok (Num q) /\ mid = Z.quot (Qnum q) (Zpos (Qden q))).
  { unfold middle_npoints in Hmid. bind_inv Hmid.
    destruct a as [q| | |]; try discriminate Hmid.
    exists q. split; [ reflexivity | ]. simpl in Hmid. congruence. }
  destruct Hq as (q & Hq & Hm).
  exists mid, q. split; [ exact Hmid | ]. split; [ exact Hq | ].
  split; [ exact Hm | ]. split; [ exact Hk | ].
  rewrite num_keep_length in *.
  intros row [<-|[<-|[<-|[<-|[]]]]].
  - rewrite L0. lia.
  - rewrite L1. lia.
  - rewrite R2, length_app, !length_map, length_replicate. lia.
  - rewrite R3, length_app, !length_map, length_replicate. lia.
Qed.

(** ** Real samples first, then the synthetic ones (C7) *)


(** ** The fit domain (C8) *)

(** C8, as the code has it.  With a range and a padding far below the
    largest float, the domain [pad_prf_data] returns is computed in floats:
    the padding is the float [width * pad_fraction], the lower bound the
    float [-x_offset - padding], the upper bound the float sum of the float
    [width - x_offset] and the padding; likewise in y.  With a pad fraction,
    a width and a height that are not negative, the unpadded rectangle lies
    inside the domain, its edges included: a padding below the spacing of
    the floats leaves a bound where it was. *)
Theorem pad_prf_data_domain data cfg out (xmin xmax ymin ymax : Q) :
  pad_prf_data data cfg = Ok (out, (xmin, xmax, ymin, ymax)) ->
  finite_padding cfg ->
  let r := prf_range cfg in
  let f := spline_pad_fraction cfg in
  let xp := round_nearest (pr_width r * f) in
  let yp := round_nearest (pr_height r * f) in
  (xmin = round_nearest (- pr_x_offset r - xp) /\
   xmax = round_nearest (round_nearest (pr_width r - pr_x_offset r) + xp) /\
   ymin = round_nearest (- pr_y_offset r - yp) /\
   ymax = round_nearest (round_nearest (pr_height r - pr_y_offset r) + yp)) /\
  ((0 <= f)%Q -> (0 <= pr_width r)%Q -> (0 <= pr_height r)%Q ->
   is_float64 (pr_x_offset r) -> is_float64 (pr_y_offset r) ->
   (xmin <= - pr_x_offset r)%Q /\
   (round_nearest (pr_width r - pr_x_offset r) <= xmax)%Q /\
   (ymin <= - pr_y_offset r)%Q /\
   (round_nearest (pr_height r - pr_y_offset r) <= ymax)%Q).
Proof.
  intros H _ r f xp yp. apply pad_prf_data_inv in H as [pos H].
  apply pad_prf_data_state_inv in H as (mid & m & H). cbn zeta in H.
  destruct H as (_ & _ & _ & _ & _ & _ & _ & _ & _ & _ & Hd).
  unfold domain, x_padding, y_padding in Hd. fold r f in Hd. fold xp yp in Hd.
  injection Hd as -> -> -> ->.
  split; [ auto | ].
  intros Hf Hw Hh Fx Fy.
  assert (Px : (0 <= xp)%Q).
  { apply round_nearest_nonneg, Qmult_le_0_compat; assumption. }
  assert (Py : (0 <= yp)%Q).
  { apply round_nearest_nonneg, Qmult_le_0_compat; assumption. }
  assert (Lo : forall o p : Q, is_float64 o -> (0 <= p)%Q ->
                 (round_nearest (- o - p) <= - o)%Q).
  { intros o p Fo Hp. unfold is_float64 in Fo.
    apply Qle_trans with (round_nearest (- o)).
    - apply round_nearest_mono. lra.
    - rewrite round_nearest_opp, Fo. lra. }
  assert (Hi : forall e p : Q, (0 <= p)%Q ->
                 (round_nearest e <= round_nearest (round_nearest e + p))%Q).
  { intros e p Hp. rewrite <- (round_nearest_idempotent e) at 1.
    apply round_nearest_mono. lra. }
  auto.
Qed.

(** C8, as stated, fails: with the default range and a pad fraction of
    [2^-60] the padding is absorbed by the rounding of every bound, and the
    domain is the unpadded rectangle itself, [(-4, 7) x (-4, 4)]. *)
Lemma pad_prf_data_domain_counterexample :
  ~ (forall data cfg out (xmin xmax ymin ymax : Q),
        pad_prf_data data cfg = Ok (out, (xmin, xmax, ymin, ymax)) ->
        (0 < spline_pad_fraction cfg)%Q ->
        (0 < pr_width (prf_range cfg))%Q -> (0 < pr_height (prf_range cfg))%Q ->
        (xmin < - pr_x_offset (prf_range cfg))%Q /\
        (pr_width (prf_range cfg) - pr_x_offset (prf_range cfg) < xmax)%Q /\
        (ymin < - pr_y_offset (prf_range cfg))%Q /\
        (pr_height (prf_range cfg) - pr_y_offset (prf_range cfg) < ymax)%Q).
Proof.
  intros H.
  destruct (H three_samples args_tiny_fraction padded_tiny_fraction.1.1
              (-4) 7 (-4) 4)%Q as [Hx _].
  - vm_compute. reflexivity.
  - vm_compute. reflexivity.
  - vm_compute. reflexivity.
  - vm_compute. reflexivity.
  - vm_compute in Hx. discriminate Hx.
Qed.

(** ** Every synthetic column is written (C10) *)

Lemma Forall_is_Some_map {A : Type} (l : list A) : Forall is_Some (map Some l).
Proof. induction l; simpl; constructor; eauto. Qed.

Lemma Forall_is_Some_replicate {A : Type} (n : nat) (v : A) :
  Forall is_Some (replicate n (Some v)).
Proof. induction n; simpl; constructor; eauto. Qed.

Lemma length_blocks_snd (blocks : list (list fval * list fval)) :
  Forall (fun w : list fval * list fval => length w.1 = length w.2) blocks ->
  length (concat (map snd blocks)) = length (concat (map fst blocks)).
Proof.
  induction 1 as [|[xs ys] l Hw _ IH]; simpl; [ reflexivity | ].
  rewrite !length_app, IH. simpl in Hw. lia.
Qed.

(** C10, as the code has it.  Whenever [pad_prf_data] returns, no entry of
    the returned array is left unwritten; and when [middle_npoints] is not
    negative, as it is with every positive pad fraction, the fill loops
    store the eight blocks of synthetic coordinates one after the other
    behind the real samples, each synthetic column once, and the write
    position [xy_padding_start] ends at
    [num_keep + 4 * pad_npoints * (middle_npoints + pad_npoints)], the
    allocated number of columns. *)
Theorem pad_prf_data_fill_complete data cfg padded pos dom :
  pad_prf_data_state data cfg = Ok (padded, pos, dom) ->
  pad_prf_data data cfg = Ok (padded, dom) /\
  (forall row, In row [row0 padded; row1 padded; row2 padded; row3 padded] ->
               Forall is_Some row) /\
  exists mid : Z,
    middle_npoints cfg = Ok mid /\
    ((0 < spline_pad_fraction cfg)%Q -> 0 <= mid) /\
    (0 <= mid ->
     pos = num_keep data cfg
           + 4 * spline_pad_npoints cfg * (mid + spline_pad_npoints cfg) /\
     row0 padded
     = map Some (map s_x (kept_samples data cfg)
                 ++ concat (map fst (synthetic_blocks cfg mid))) /\
     row1 padded
     = map Some (map s_y (kept_samples data cfg)
                 ++ concat (map snd (synthetic_blocks cfg mid))) /\
     length (concat (map fst (synthetic_blocks cfg mid)))
     = Z.to_nat (4 * spline_pad_npoints cfg * (mid + spline_pad_npoints cfg)) /\
     length (concat (map snd (synthetic_blocks cfg mid)))
     = Z.to_nat (4 * spline_pad_npoints cfg * (mid + spline_pad_npoints cfg)) /\
     forall row, In row [row0 padded; row1 padded; row2 padded; row3 padded] ->
                 Z.of_nat (length row) = pos).
Proof.
  intros H.
  split; [ unfold pad_prf_data; rewrite H; reflexivity | ].
  destruct (pad_prf_data_state_writes _ _ _ _ _ H) as (mid & m0 & Hw).
  cbn zeta in Hw. destruct Hw as (Hmid & _ & Hk & HX & Hnp & _ & _ & _).
  assert (Hexp : 0 <= mid ->
            exists m,
              padded
              = {| row0 := map Some (map s_x (kept_samples data cfg)
                                     ++ concat (map fst (synthetic_blocks cfg mid)));
                   row1 := map Some (map s_y (kept_samples data cfg)
                                     ++ concat (map snd (synthetic_blocks cfg mid)));
                   row2 := map Some (map s_value (kept_samples data cfg))
                           ++ replicate
                                (Z.to_nat (4 * spline_pad_npoints cfg
                                           * (mid + spline_pad_npoints cfg)))
                                (Some (Num 0));
                   row3 := map Some (map s_error (kept_samples data cfg))
                           ++ replicate
                                (Z.to_nat (4 * spline_pad_npoints cfg
                                           * (mid + spline_pad_npoints cfg)))
                                (Some m) |} /\
              pos = num_keep data cfg
                    + 4 * spline_pad_npoints cfg * (mid + spline_pad_npoints cfg)).
  { intros Hm0.
    destruct (pad_prf_data_state_total data cfg mid Hmid Hm0 Hnp Hk) as (m & _ & Ht).
    cbn zeta in Ht. rewrite Ht in H. injection H as <- <- _. eauto. }
  split.
  - destruct (Z.lt_ge_cases mid 0) as [Hneg|Hm0].
    + pose proof (negative_middle_no_padding _ _ _ _ _ _ H Hmid Hneg) as H0.
      apply pad_prf_data_state_inv in H as (mid' & m & Hi). cbn zeta in Hi.
      destruct Hi as (Hmid' & _ & _ & _ & L0 & L1 & P0 & P1 & R2 & R3 & _).
      rewrite Hmid in Hmid'. injection Hmid' as <-.
      rewrite H0 in *. simpl in L0, L1. rewrite Nat.add_0_r in L0, L1.
      rewrite take_ge in P0, P1 by lia.
      intros row [<-|[<-|[<-|[<-|[]]]]].
      * rewrite P0. apply Forall_is_Some_map.
      * rewrite P1. apply Forall_is_Some_map.
      * rewrite R2. apply List.Forall_app. split;
          [ apply Forall_is_Some_map | apply Forall_is_Some_replicate ].
      * rewrite R3. apply List.Forall_app. split;
          [ apply Forall_is_Some_map | apply Forall_is_Some_replicate ].
    + destruct (Hexp Hm0) as (m & -> & _). cbn [row0 row1 row2 row3].
      intros row [<-|[<-|[<-|[<-|[]]]]]; try apply Forall_is_Some_map;
        apply List.Forall_app; split;
        auto using Forall_is_Some_map, Forall_is_Some_replicate.
  - exists mid. split; [ exact Hmid | ].
    split; [ intros Hf; exact (middle_npoints_nonneg cfg mid Hf Hnp Hmid) | ].
    intros Hm0.
    destruct (Hexp Hm0) as (m & -> & ->). cbn [row0 row1 row2 row3].
    destruct (length_synthetic_blocks cfg mid Hnp Hm0) as [HF HL].
    assert (HL' : length (concat (map snd (synthetic_blocks cfg mid)))
                  = Z.to_nat (4 * spline_pad_npoints cfg
                              * (mid + spline_pad_npoints cfg))).
    { rewrite <- HL. apply length_blocks_snd. exact HF. }
    split; [ reflexivity | ]. split; [ reflexivity | ]. split; [ reflexivity | ].
    split; [ exact HL | ]. split; [ exact HL' | ].
    rewrite num_keep_length.
    intros row [<-|[<-|[<-|[<-|[]]]]].
    + rewrite length_map, length_app, length_map, HL. lia.
    + rewrite length_map, length_app, length_map, HL'. lia.
    + rewrite length_app, !length_map, length_replicate. lia.
    + rewrite length_app, !length_map, length_replicate. lia.
Qed.

(** C10, as stated, fails for a configuration the function does not reject:
    with one padding point and a pad fraction of -1, [middle_npoints] is -1,
    no synthetic column is allocated, the one-element corner blocks are
    assigned to empty slices without an error, and the write position ends
    four columns past the end of the array. *)
Lemma pad_prf_data_fill_counterexample :
  ~ (forall data cfg padded pos dom mid,
        1 <= num_keep data cfg ->
        pad_prf_data_state data cfg = Ok (padded, pos, dom) ->
        middle_npoints cfg = Ok mid ->
        pos = num_keep data cfg
              + 4 * spline_pad_npoints cfg * (mid + spline_pad_npoints cfg) /\
        Z.of_nat (length (row0 padded)) = pos).
Proof.
  intros H.
  destruct (H three_samples args_minus_one_1
              padded_negative_fraction.1.1 padded_negative_fraction.1.2
              padded_negative_fraction.2 (-1)) as [Hpos _].
  - vm_compute. discriminate.
  - vm_compute. reflexivity.
  - vm_compute. reflexivity.
  - vm_compute in Hpos. discriminate Hpos.
Qed.

(** ** The properties at concrete inputs *)

Lemma overlap_invalid_any_order_witness :
  (forall (i j : nat) (si sj : source) (y x : nat),
      i <> j -> two_sources !! i = Some si -> two_sources !! j = Some sj ->
      covers range_3_2_1_1 res_6_8 si y x = true ->
      covers range_3_2_1_1 res_6_8 sj y x = true ->
      at2 grid_two_sources y x = Some nan_cell) /\
  (forall sources',
      Permutation two_sources sources' ->
      exists g',
        find_pixel_offsets sources' range_3_2_1_1 res_6_8 1 = Ok g' /\
        forall y x : nat,
          at2 grid_two_sources y x = Some nan_cell <-> at2 g' y x = Some nan_cell).
Proof.
  apply (overlap_invalid_any_order two_sources range_3_2_1_1 res_6_8 1 grid_two_sources).
  vm_compute. reflexivity.
Defined.

Lemma crowded_flag_closed_ball_witness :
  (0 <= 1)%Q /\
  find_pixel_offsets close_sources range_3_2_1_1 res_6_8 1 = Ok grid_close_sources /\
  forall (i : nat) (s : source),
    close_sources !! i = Some s ->
    (forall t, within 1 s t = true <-> distance_le 1 s t) /\
    (crowded_flags close_sources 1 !! i = Some true <->
     (1 < length (List.filter (within 1 s) close_sources))%nat) /\
    (crowded_flags close_sources 1 !! i = Some true <->
     exists (j : nat) (t : source),
       j <> i /\ close_sources !! j = Some t /\ distance_le 1 s t) /\
    (crowded_flags close_sources 1 !! i = Some true ->
     forall y x : nat,
       covers range_3_2_1_1 res_6_8 s y x = true ->
       at2 grid_close_sources y x = Some nan_cell).
Proof.
  assert (Hcd : (0 <= 1)%Q) by (unfold Qle; simpl; lia).
  assert (Hg : find_pixel_offsets close_sources range_3_2_1_1 res_6_8 1
               = Ok grid_close_sources) by (vm_compute; reflexivity).
  split; [ exact Hcd | ]. split; [ exact Hg | ].
  exact (crowded_flag_closed_ball close_sources range_3_2_1_1 res_6_8 1
                                  grid_close_sources Hcd Hg).
Defined.



Lemma pad_prf_data_columns_witness :
  exists (mid : Z) (q : Q),
    middle_npoints args_half_1 = Ok mid /\
    py_truediv 1 (1 # 2) = Ok (Num q) /\
    mid = Z.quot (Qnum q) (Zpos (Qden q)) /\
    1 <= num_keep three_samples args_half_1 /\
    forall row, In row [row0 padded_three_samples.1.1; row1 padded_three_samples.1.1;
                        row2 padded_three_samples.1.1; row3 padded_three_samples.1.1] ->
      Z.of_nat (length row) = num_keep three_samples args_half_1 + 4 * (1 * 1) + 4 * 1 * mid.
Proof.
  apply (pad_prf_data_columns three_samples args_half_1
                              padded_three_samples.1.1 padded_three_samples.2).
  vm_compute. reflexivity.
Defined.


Lemma pad_prf_data_domain_witness :
  finite_padding args_half_1 /\
  ((-19 # 2)%Q = round_nearest (- (4) - round_nearest (11 * (1 # 2))) /\
   (25 # 2)%Q = round_nearest (round_nearest (11 - 4) + round_nearest (11 * (1 # 2))) /\
   (-8)%Q = round_nearest (- (4) - round_nearest (8 * (1 # 2))) /\
   8%Q = round_nearest (round_nearest (8 - 4) + round_nearest (8 * (1 # 2)))) /\
  ((0 <= 1 # 2)%Q -> (0 <= 11)%Q -> (0 <= 8)%Q -> is_float64 4 -> is_float64 4 ->
   ((-19 # 2) <= - (4))%Q /\ (round_nearest (11 - 4) <= 25 # 2)%Q /\
   (-8 <= - (4))%Q /\ (round_nearest (8 - 4) <= 8)%Q).
Proof.
  assert (F : finite_padding args_half_1).
  { unfold finite_padding. cbn.
    repeat (constructor; [ split; vm_compute; reflexivity | ]). constructor. }
  split; [ exact F | ].
  apply (pad_prf_data_domain three_samples args_half_1 padded_three_samples.1.1
                             (-19 # 2) (25 # 2) (-8) 8);
    [ vm_compute; reflexivity | exact F ].
Defined.

Lemma pad_prf_data_fill_complete_witness :
  pad_prf_data three_samples args_half_1
  = Ok (padded_three_samples.1.1, padded_three_samples.2) /\
  (forall row, In row [row0 padded_three_samples.1.1; row1 padded_three_samples.1.1;
                       row2 padded_three_samples.1.1; row3 padded_three_samples.1.1] ->
               Forall is_Some row) /\
  exists mid : Z,
    middle_npoints args_half_1 = Ok mid /\
    ((0 < 1 # 2)%Q -> 0 <= mid) /\
    (0 <= mid ->
     padded_three_samples.1.2 = num_keep three_samples args_half_1 + 4 * 1 * (mid + 1) /\
     row0 padded_three_samples.1.1
     = map Some (map s_x (kept_samples three_samples args_half_1)
                 ++ concat (map fst (synthetic_blocks args_half_1 mid))) /\
     row1 padded_three_samples.1.1
     = map Some (map s_y (kept_samples three_samples args_half_1)
                 ++ concat (map snd (synthetic_blocks args_half_1 mid))) /\
     length (concat (map fst (synthetic_blocks args_half_1 mid)))
     = Z.to_nat (4 * 1 * (mid + 1)) /\
     length (concat (map snd (synthetic_blocks args_half_1 mid)))
     = Z.to_nat (4 * 1 * (mid + 1)) /\
     forall row, In row [row0 padded_three_samples.1.1; row1 padded_three_samples.1.1;
                         row2 padded_three_samples.1.1; row3 padded_three_samples.1.1] ->
                 Z.of_nat (length row) = padded_three_samples.1.2).
Proof.
  apply (pad_prf_data_fill_complete three_samples args_half_1
           padded_three_samples.1.1 padded_three_samples.1.2
           padded_three_samples.2).
  vm_compute. reflexivity.
Defined.

(** ** The scenarios of the specification *)

(** One isolated source at (10, 10) with flux 100 and background 5: the cell
    of pixel (10, 10), and the sample a pixel value of 55 with a standard
    deviation of 1 gives there. *)
Example scenario_isolated_source :
  (exists c, at2 grid_one_source 10 10 = Some c /\
             feq (x_off c) (Num (1 # 2)) /\ feq (y_off c) (Num (1 # 2)) /\
             feq (norm c) (Num 100) /\ feq (zero_point c) (Num 5)) /\
  (exists smp, get_prf_data patch_values patch_stddev patch_offsets (1 # 10) = Ok [smp] /\
               feq (s_value smp) (Num (1 # 2)) /\ feq (s_error smp) (Num (1 # 100))).
Proof.
  split.
  - eexists. split; [ vm_compute; reflexivity | ]. simpl. repeat split; reflexivity.
  - eexists. split; [ vm_compute; reflexivity | ]. simpl. split; reflexivity.
Qed.

(** Two sources half a pixel apart with a crowding distance of 1: both are
    flagged crowded, and no pixel of the image keeps an assignment. *)
Example scenario_close_sources :
  crowded_flags close_sources 1 = [true; true] /\
  Forall (Forall (fun c => c = nan_cell)) grid_close_sources.
Proof.
  split; [ reflexivity | ].
  repeat (constructor; [ repeat (constructor; [ reflexivity | ]); constructor | ]).
  constructor.
Qed.

(** * Further properties *)

(** ** The regions of get_image_slices *)

Lemma split_le_total (a b : direction * Z) : split_le a b = true \/ split_le b a = true.
Proof.
  unfold split_le. destruct a as [[] a], b as [[] b]; simpl; auto;
    destruct (Z.leb_spec a b), (Z.leb_spec b a); auto; lia.
Qed.

Lemma split_le_trans (a b c : direction * Z) :
  split_le a b = true -> split_le b c = true -> split_le a c = true.
Proof.
  unfold split_le. destruct a as [[] a], b as [[] b], c as [[] c]; simpl;
    try discriminate; auto; rewrite !Z.leb_le; lia.
Qed.

Lemma insert_split_perm (a : direction * Z) (l : list (direction * Z)) :
  Permutation (insert_split a l) (a :: l).
Proof.
  induction l as [|b l IH]; simpl.
  - reflexivity.
  - destruct (split_le a b); [ reflexivity | ].
    rewrite IH. apply perm_swap.
Qed.

Lemma py_sorted_perm (l : list (direction * Z)) : Permutation (py_sorted l) l.
Proof.
  induction l as [|a l IH]; simpl.
  - reflexivity.
  - rewrite insert_split_perm. constructor. exact IH.
Qed.

Lemma insert_split_sorted (a : direction * Z) (l : list (direction * Z)) :
  StronglySorted (fun u v => split_le u v = true) l ->
  StronglySorted (fun u v => split_le u v = true) (insert_split a l).
Proof.
  induction 1 as [|b l Hl IH Hb]; simpl.
  - repeat constructor.
  - destruct (split_le a b) eqn:E.
    + constructor; [ constructor; assumption | ].
      constructor; [ exact E | ].
      eapply Forall_impl; [ exact Hb | ].
      intros c Hc. simpl in Hc. exact (split_le_trans a b c E Hc).
    + constructor; [ exact IH | ].
      apply (Permutation_Forall (Permutation_sym (insert_split_perm a l))).
      constructor; [ | exact Hb ].
      destruct (split_le_total a b) as [H|H]; [ congruence | exact H ].
Qed.

Lemma py_sorted_sorted (l : list (direction * Z)) :
  StronglySorted (fun u v => split_le u v = true) (py_sorted l).
Proof.
  induction l as [|a l IH]; simpl.
  - constructor.
  - apply insert_split_sorted. exact IH.
Qed.

Lemma split_values_perm (d : direction) (l l' : list (direction * Z)) :
  Permutation l l' -> Permutation (split_values d l) (split_values d l').
Proof.
  intros H. unfold split_values. apply Permutation_map.
  induction H; simpl.
  - reflexivity.
  - destruct (direction_eqb x.1 d); [ constructor | ]; assumption.
  - destruct (direction_eqb x.1 d), (direction_eqb y.1 d);
      try reflexivity. apply perm_swap.
  - etransitivity; eassumption.
Qed.

Lemma split_values_sorted (d : direction) (l : list (direction * Z)) :
  StronglySorted (fun u v => split_le u v = true) l ->
  StronglySorted Z.le (split_values d l).
Proof.
  unfold split_values.
  induction 1 as [|a l Hl IH Ha]; simpl.
  - constructor.
  - destruct (direction_eqb a.1 d) eqn:E; [ | exact IH ].
    simpl. constructor; [ exact IH | ].
    rewrite List.Forall_map. rewrite List.Forall_forall in Ha |- *.
    intros b Hb. apply List.filter_In in Hb as [Hb Hd].
    specialize (Ha b Hb). unfold split_le in Ha.
    destruct a as [[] a], b as [[] b], d; simpl in *; try discriminate;
      apply Z.leb_le; exact Ha.
Qed.

Lemma split_values_app (d : direction) (l l' : list (direction * Z)) :
  split_values d (l ++ l') = split_values d l ++ split_values d l'.
Proof. unfold split_values. rewrite List.filter_app, map_app. reflexivity. Qed.

Lemma tiles_from_nonempty (s : Z) (vs : list Z) : tiles_from s vs <> [].
Proof. destruct vs; discriminate. Qed.

Lemma length_tiles_from (s : Z) (vs : list Z) :
  length (tiles_from s vs) = S (length vs).
Proof. revert s. induction vs as [|v vs IH]; intros s; simpl; [ | rewrite IH ]; reflexivity. Qed.

Lemma end_slice_at_tiles (s : Z) (vs : list Z) (v : Z) :
  end_slice_at (tiles_from s vs) v = Some (tiles_from s (vs ++ [v])).
Proof.
  unfold end_slice_at. revert s. induction vs as [|w vs IH]; intros s.
  - reflexivity.
  - specialize (IH w). cbn [tiles_from app].
    destruct (tiles_from w vs) as [|t ts] eqn:E; [ destruct vs; discriminate | ].
    change (last ({| sl_start := s; sl_stop := Some w |} :: t :: ts))
      with (last (t :: ts)).
    destruct (last (t :: ts)) as [u|]; [ | discriminate ].
    injection IH as IH. f_equal.
    change (removelast ({| sl_start := s; sl_stop := Some w |} :: t :: ts))
      with ({| sl_start := s; sl_stop := Some w |} :: removelast (t :: ts)).
    simpl app at 1. f_equal. exact IH.
Qed.

Lemma add_splits_tiles (l : list (direction * Z)) (xs ys : list Z) :
  add_splits l (tiles_from 0 xs, tiles_from 0 ys)
  = Some (tiles_from 0 (xs ++ split_values DirX l),
          tiles_from 0 (ys ++ split_values DirY l)).
Proof.
  revert xs ys. induction l as [|[d v] l IH]; intros xs ys.
  - simpl. unfold split_values. simpl. rewrite !app_nil_r. reflexivity.
  - cbn [add_splits]. unfold add_split. cbn [fst snd].
    destruct d; rewrite end_slice_at_tiles; simpl; rewrite IH;
      unfold split_values; simpl; rewrite <- ?app_assoc; reflexivity.
Qed.

(** The regions are the pairs of an x and a y slice, the slices of a
    direction cutting the axis at its sorted values. *)
Lemma get_image_slices_tiles (splits : list (direction * Z)) :
  get_image_slices splits
  = Some (pairs_of (tiles_from 0 (split_values DirX (py_sorted splits)))
                   (tiles_from 0 (split_values DirY (py_sorted splits)))).
Proof.
  unfold get_image_slices.
  change [{| sl_start := 0; sl_stop := None |}] with (tiles_from 0 []).
  rewrite add_splits_tiles. reflexivity.
Qed.

Lemma length_pairs_of {A B : Type} (xs : list A) (ys : list B) :
  length (pairs_of xs ys) = (length xs * length ys)%nat.
Proof.
  unfold pairs_of. induction xs as [|a xs IH]; simpl.
  - reflexivity.
  - rewrite length_app, length_map, IH. reflexivity.
Qed.

(** X1.  [get_image_slices] never raises.  Its regions are all the pairs of
    an x slice and a y slice, x slices outermost; along each direction the
    slices run from 0 to the smallest split value, from each value to the
    next larger one, and from the largest to the end of the axis.  There are
    (1 + number of x splits) * (1 + number of y splits) of them. *)
Theorem get_image_slices_regions (splits : list (direction * Z)) :
  exists xs ys : list Z,
    Permutation xs (split_values DirX splits) /\ StronglySorted Z.le xs /\
    Permutation ys (split_values DirY splits) /\ StronglySorted Z.le ys /\
    get_image_slices splits = Some (pairs_of (tiles_from 0 xs) (tiles_from 0 ys)) /\
    length (pairs_of (tiles_from 0 xs) (tiles_from 0 ys))
    = ((1 + length (split_values DirX splits))
       * (1 + length (split_values DirY splits)))%nat.
Proof.
  exists (split_values DirX (py_sorted splits)), (split_values DirY (py_sorted splits)).
  pose proof (split_values_perm DirX _ _ (py_sorted_perm splits)) as Hx.
  pose proof (split_values_perm DirY _ _ (py_sorted_perm splits)) as Hy.
  split; [ exact Hx | ].
  split; [ apply split_values_sorted, py_sorted_sorted | ].
  split; [ exact Hy | ].
  split; [ apply split_values_sorted, py_sorted_sorted | ].
  split; [ apply get_image_slices_tiles | ].
  rewrite length_pairs_of, !length_tiles_from.
  rewrite (Permutation_length Hx), (Permutation_length Hy). reflexivity.
Qed.

(** ** The regions partition the image *)

Lemma slice_bound_mono_nonneg (n : nat) (a b : Z) :
  0 <= a -> a <= b -> (slice_bound n a <= slice_bound n b)%nat.
Proof.
  intros Ha Hab. unfold slice_bound.
  destruct (Z.ltb_spec a 0), (Z.ltb_spec b 0); lia.
Qed.

Lemma slice_bound_mono_neg (n : nat) (a b : Z) :
  a <= b -> b < 0 -> (slice_bound n a <= slice_bound n b)%nat.
Proof.
  intros Hab Hb. unfold slice_bound.
  destruct (Z.ltb_spec a 0), (Z.ltb_spec b 0); lia.
Qed.

Lemma slice_bound_0 (n : nat) : slice_bound n 0 = 0%nat.
Proof. unfold slice_bound. simpl. lia. Qed.

Lemma one_sign_bounds (n : nat) (vs : list Z) :
  StronglySorted Z.le vs -> one_sign vs ->
  StronglySorted le (map (slice_bound n) (0 :: vs)).
Proof.
  intros Hs Hsign. cbn [map]. rewrite slice_bound_0. constructor.
  - induction Hs as [|v vs Hs IH Hv]; simpl; constructor.
    + apply IH. destruct Hsign as [H|H]; [ left | right ];
        inversion H; assumption.
    + rewrite List.Forall_map. rewrite List.Forall_forall in Hv |- *.
      intros w Hw. specialize (Hv w Hw).
      destruct Hsign as [H|H]; rewrite List.Forall_forall in H.
      * apply slice_bound_mono_nonneg; [ apply H; left; reflexivity | exact Hv ].
      * apply slice_bound_mono_neg; [ exact Hv | apply H; right; exact Hw ].
  - apply List.Forall_forall. intros; lia.
Qed.

Lemma one_sign_perm (vs vs' : list Z) : Permutation vs vs' -> one_sign vs -> one_sign vs'.
Proof.
  intros Hp [H|H]; [ left | right ]; exact (Permutation_Forall Hp H).
Qed.

(** The slices that cut an axis at bounds in increasing order select
    consecutive pieces: together they give the array from the first bound
    on. *)
Lemma tiles_concat {A : Type} (l : list A) (s : Z) (vs : list Z) :
  StronglySorted le (map (slice_bound (length l)) (s :: vs)) ->
  concat (map (fun t => slice1 t l) (tiles_from s vs))
  = drop (slice_bound (length l) s) l.
Proof.
  revert s. induction vs as [|v vs IH]; intros s Hs.
  - simpl. unfold slice1, slice_lo, slice_hi. simpl.
    rewrite firstn_all, app_nil_r. reflexivity.
  - cbn [tiles_from map concat]. rewrite IH.
    + unfold slice1, slice_lo, slice_hi. cbn [sl_start sl_stop].
      inversion Hs as [|? ? _ Hle]; subst. inversion Hle as [|? ? Hsv _]; subst.
      pose proof (slice_bound_le (length l) v) as Hv.
      set (a := slice_bound (length l) s) in *.
      set (b := slice_bound (length l) v) in *.
      assert (E : drop a l = drop a (take b l ++ drop b l))
        by (rewrite take_drop; reflexivity).
      rewrite E, drop_app_le; [ reflexivity | ].
      rewrite length_take. lia.
    + cbn [map] in Hs. inversion Hs; assumption.
Qed.

Lemma tiles_count_before (n : nat) (s : Z) (vs : list Z) (i : nat) :
  StronglySorted le (map (slice_bound n) (s :: vs)) ->
  (i < slice_bound n s)%nat ->
  List.filter (fun t => in_slice n t i) (tiles_from s vs) = [].
Proof.
  revert s. induction vs as [|v vs IH]; intros s Hs Hi.
  - simpl. unfold in_slice, slice_lo. cbn [sl_start].
    destruct (Nat.leb_spec (slice_bound n s) i); [ lia | reflexivity ].
  - cbn [tiles_from List.filter]. unfold in_slice at 1, slice_lo. cbn [sl_start].
    destruct (Nat.leb_spec (slice_bound n s) i); [ lia | ]. cbn [andb].
    cbn [map] in Hs. inversion Hs as [|? ? Hs' Hle]; subst.
    inversion Hle as [|? ? Hsv _]; subst.
    apply IH; [ exact Hs' | lia ].
Qed.

Lemma tiles_count (n : nat) (s : Z) (vs : list Z) (i : nat) :
  StronglySorted le (map (slice_bound n) (s :: vs)) ->
  (slice_bound n s <= i)%nat -> (i < n)%nat ->
  length (List.filter (fun t => in_slice n t i) (tiles_from s vs)) = 1%nat.
Proof.
  revert s. induction vs as [|v vs IH]; intros s Hs Hlo Hi.
  - simpl. unfold in_slice, slice_lo, slice_hi. cbn [sl_start sl_stop].
    destruct (Nat.leb_spec (slice_bound n s) i); [ | lia ].
    destruct (Nat.ltb_spec i n); [ reflexivity | lia ].
  - cbn [tiles_from List.filter].
    cbn [map] in Hs. inversion Hs as [|? ? Hs' Hle]; subst.
    unfold in_slice at 1, slice_lo, slice_hi. cbn [sl_start sl_stop].
    destruct (Nat.leb_spec (slice_bound n s) i); [ | lia ]. cbn [andb].
    destruct (Nat.ltb_spec i (slice_bound n v)).
    + rewrite (tiles_count_before n v vs i Hs') by assumption. reflexivity.
    + apply IH; assumption.
Qed.

Lemma count_pairs_of {A B : Type} (f : A -> bool) (g : B -> bool)
    (xs : list A) (ys : list B) :
  length (List.filter (fun r : A * B => g r.2 && f r.1) (pairs_of xs ys))
  = (length (List.filter f xs) * length (List.filter g ys))%nat.
Proof.
  unfold pairs_of. induction xs as [|a xs IH]; simpl.
  - reflexivity.
  - rewrite List.filter_app, length_app, IH.
    assert (H : length (List.filter (fun r : A * B => g r.2 && f r.1)
                                    (map (fun y => (a, y)) ys))
                = if f a then length (List.filter g ys) else 0%nat).
    { clear IH. induction ys as [|b ys IHy]; simpl.
      - destruct (f a); reflexivity.
      - destruct (f a), (g b); simpl in *; rewrite ?IHy; reflexivity. }
    rewrite H. destruct (f a); simpl; lia.
Qed.

Lemma sorted_split_bounds (d : direction) (splits : list (direction * Z)) (n : nat) :
  one_sign (split_values d splits) ->
  StronglySorted le (map (slice_bound n) (0 :: split_values d (py_sorted splits))).
Proof.
  intros H. apply one_sign_bounds.
  - apply split_values_sorted, py_sorted_sorted.
  - apply (one_sign_perm (split_values d splits)); [ | exact H ].
    apply Permutation_sym, split_values_perm, py_sorted_perm.
Qed.

(** X2.  When the split values of each direction are all non-negative or all
    negative, the regions of [get_image_slices] partition an image of any
    shape: every pixel belongs to exactly one region. *)
Theorem get_image_slices_partition (splits : list (direction * Z))
    (regions : list (py_slice * py_slice)) (shape : nat * nat) (y x : nat) :
  one_sign (split_values DirX splits) -> one_sign (split_values DirY splits) ->
  get_image_slices splits = Some regions ->
  (y < shape.1)%nat -> (x < shape.2)%nat ->
  length (List.filter (fun region => region_has shape region y x) regions) = 1%nat.
Proof.
  intros Hx Hy Hr Hly Hlx. rewrite get_image_slices_tiles in Hr.
  injection Hr as <-. unfold region_has.
  rewrite (count_pairs_of (fun t => in_slice shape.2 t x) (fun t => in_slice shape.1 t y)).
  rewrite (tiles_count shape.2 0 _ x (sorted_split_bounds DirX splits _ Hx))
    by (rewrite ?slice_bound_0; lia).
  rewrite (tiles_count shape.1 0 _ y (sorted_split_bounds DirY splits _ Hy))
    by (rewrite ?slice_bound_0; lia).
  reflexivity.
Qed.

Lemma get_image_slices_partition_witness :
  one_sign (split_values DirX [(DirY, 5); (DirX, 3); (DirX, 1)]) /\
  one_sign (split_values DirY [(DirY, 5); (DirX, 3); (DirX, 1)]) /\
  length (List.filter (fun region => region_has (8%nat, 6%nat) region 5 2)
            (pairs_of (tiles_from 0 [1; 3]) (tiles_from 0 [5]))) = 1%nat.
Proof.
  assert (Hx : one_sign (split_values DirX [(DirY, 5); (DirX, 3); (DirX, 1)]))
    by (left; cbn; repeat constructor; lia).
  assert (Hy : one_sign (split_values DirY [(DirY, 5); (DirX, 3); (DirX, 1)]))
    by (left; cbn; repeat constructor; lia).
  split; [ exact Hx | ]. split; [ exact Hy | ].
  apply (get_image_slices_partition [(DirY, 5); (DirX, 3); (DirX, 1)] _ (8%nat, 6%nat) 5 2
           Hx Hy); [ reflexivity | simpl; lia | simpl; lia ].
Defined.

(** ** Slicing and the samples of a region *)

Lemma length_slice1 {A : Type} (s : py_slice) (l : list A) :
  length (slice1 s l) = (slice_hi (length l) s - slice_lo (length l) s)%nat.
Proof.
  unfold slice1. rewrite length_drop, length_take.
  assert (slice_hi (length l) s <= length l)%nat; [ | lia ].
  unfold slice_hi. destruct (sl_stop s); [ apply slice_bound_le | lia ].
Qed.

Lemma slice1_map {A B : Type} (f : A -> B) (s : py_slice) (l : list A) :
  slice1 s (map f l) = map f (slice1 s l).
Proof.
  unfold slice1. rewrite length_map, firstn_map, skipn_map. reflexivity.
Qed.

Lemma slice1_zip_with {A B C : Type} (f : A -> B -> C) (s : py_slice)
    (a : list A) (b : list B) :
  length a = length b ->
  slice1 s (zip_with f a b) = zip_with f (slice1 s a) (slice1 s b).
Proof.
  intros H. unfold slice1. rewrite length_zip_with, <- H, Nat.min_id.
  rewrite zip_with_take, zip_with_drop. reflexivity.
Qed.

Lemma shape_slice2 {A B : Type} (ys xs : py_slice) (a : array2 A) (b : array2 B) :
  map length a = map length b ->
  map length (slice2 ys xs a) = map length (slice2 ys xs b).
Proof.
  intros H. unfold slice2. rewrite !map_map.
  rewrite (map_ext (fun row : list A => length (slice1 xs row))
                   (fun row => (slice_hi (length row) xs - slice_lo (length row) xs)%nat))
    by (intros; apply length_slice1).
  rewrite (map_ext (fun row : list B => length (slice1 xs row))
                   (fun row => (slice_hi (length row) xs - slice_lo (length row) xs)%nat))
    by (intros; apply length_slice1).
  rewrite <- (map_map length (fun n => (slice_hi n xs - slice_lo n xs)%nat)).
  rewrite <- (map_map (A := list B) length (fun n => (slice_hi n xs - slice_lo n xs)%nat)).
  rewrite <- !slice1_map, H. reflexivity.
Qed.

Lemma map_slice1_zip_with {A B C : Type} (f : A -> B -> C) (s : py_slice)
    (a : array2 A) (b : array2 B) :
  map length a = map length b ->
  map (slice1 s) (zip_with (zip_with f) a b)
  = zip_with (zip_with f) (map (slice1 s) a) (map (slice1 s) b).
Proof.
  revert b. induction a as [|ra a IH]; intros [|rb b] H; try discriminate;
    [ reflexivity | ].
  injection H as Hr H. cbn [zip_with map].
  rewrite slice1_zip_with by exact Hr. f_equal. apply IH, H.
Qed.

Lemma slice2_zip_with {A B C : Type} (f : A -> B -> C) (ys xs : py_slice)
    (a : array2 A) (b : array2 B) :
  map length a = map length b ->
  slice2 ys xs (zip_with (zip_with f) a b)
  = zip_with (zip_with f) (slice2 ys xs a) (slice2 ys xs b).
Proof.
  intros H. unfold slice2.
  assert (Hl : length a = length b)
    by (rewrite <- (length_map length a), H, length_map; reflexivity).
  rewrite slice1_zip_with by exact Hl.
  apply map_slice1_zip_with.
  rewrite <- !slice1_map, H. reflexivity.
Qed.

(** Slicing the three arrays and then taking the samples is slicing the array
    of the samples. *)
Lemma slice2_samples2 (ys xs : py_slice) pv sd po :
  map length pv = map length po -> map length sd = map length po ->
  samples2 (slice2 ys xs pv) (slice2 ys xs sd) (slice2 ys xs po)
  = slice2 ys xs (samples2 pv sd po).
Proof.
  intros Hv Hs. unfold samples2.
  rewrite slice2_zip_with.
  - f_equal. symmetry. apply slice2_zip_with. exact Hs.
  - rewrite (shape_zip_with pair sd po Hs). congruence.
Qed.

Lemma region_prf_data_flat args frame po (xs ys : py_slice) :
  map length (frame_data frame) = map length po ->
  map length (frame_stddev frame) = map length po ->
  region_prf_data args frame po (xs, ys)
  = Ok (List.filter (included (arg_error_threshold args))
          (concat (slice2 ys xs (samples2 (frame_data frame) (frame_stddev frame) po)))).
Proof.
  intros Hv Hs. unfold region_prf_data.
  rewrite get_prf_data_flat by (apply shape_slice2; assumption).
  rewrite slice2_samples2 by assumption. reflexivity.
Qed.

Lemma map_result_ok {A B : Type} (f : A -> result B) (g : A -> B) (l : list A) :
  (forall a, In a l -> f a = Ok (g a)) -> map_result f l = Ok (map g l).
Proof.
  induction l as [|a l IH]; intros H; simpl.
  - reflexivity.
  - rewrite (H a) by (left; reflexivity). cbn [bind].
    rewrite IH by (intros; apply H; right; assumption). reflexivity.
Qed.

Lemma map_result_inv {A B : Type} (f : A -> result B) (l : list A) (out : list B) :
  map_result f l = Ok out ->
  length out = length l /\
  forall (i : nat) (a : A), l !! i = Some a -> exists b, out !! i = Some b /\ f a = Ok b.
Proof.
  revert out. induction l as [|a l IH]; intros out H; simpl in H.
  - injection H as <-. split; [ reflexivity | ]. intros i a Hi. discriminate.
  - bind_inv H. bind_inv H. injection H as <-.
    destruct (IH _ eq_refl) as [Hlen Hall]. split; [ simpl; congruence | ].
    intros [|i] a' Hi; simpl in *.
    + injection Hi as <-. eauto.
    + apply Hall. exact Hi.
Qed.

Lemma filter_concat_map {A B : Type} (p : A -> bool) (g : B -> list A) (l : list B) :
  concat (map (fun b => List.filter p (g b)) l) = List.filter p (concat (map g l)).
Proof.
  induction l as [|b l IH]; simpl.
  - reflexivity.
  - rewrite List.filter_app, IH. reflexivity.
Qed.

Lemma filter_perm {A : Type} (p : A -> bool) (l l' : list A) :
  Permutation l l' -> Permutation (List.filter p l) (List.filter p l').
Proof.
  induction 1 as [|a l l' _ IH|a b l|l l' l'' _ IH1 _ IH2]; simpl.
  - reflexivity.
  - destruct (p a); [ constructor | ]; exact IH.
  - destruct (p a), (p b); try reflexivity. apply perm_swap.
  - etransitivity; eassumption.
Qed.

Lemma concat_map_app_perm {A B : Type} (f g : B -> list A) (l : list B) :
  Permutation (concat (map (fun b => f b ++ g b) l))
              (concat (map f l) ++ concat (map g l)).
Proof.
  induction l as [|b l IH]; simpl.
  - reflexivity.
  - rewrite IH. rewrite <- !app_assoc. apply Permutation_app_head.
    rewrite !app_assoc. apply Permutation_app_tail. apply Permutation_app_comm.
Qed.

(** Collecting block by block what each row contributes to each block is a
    rearrangement of collecting row by row. *)
Lemma concat_swap_perm {A B C : Type} (f : C -> B -> list A) (cs : list C) (l : list B) :
  Permutation (concat (map (fun c => concat (map (f c) l)) cs))
              (concat (map (fun b => concat (map (fun c => f c b) cs)) l)).
Proof.
  induction cs as [|c cs IH]; simpl.
  - induction l as [|b l IHl]; simpl; [ reflexivity | exact IHl ].
  - rewrite IH. symmetry. apply concat_map_app_perm.
Qed.

Lemma concat_pairs_of {A B C : Type} (h : A * B -> list C) (xs : list A) (ys : list B) :
  concat (map h (pairs_of xs ys))
  = concat (map (fun x => concat (map (fun y => h (x, y)) ys)) xs).
Proof.
  unfold pairs_of. induction xs as [|a xs IH]; simpl.
  - reflexivity.
  - rewrite map_app, concat_app, IH, map_map. reflexivity.
Qed.

Lemma concat_map_concat {A B C : Type} (g : B -> list A) (h : C -> list B) (l : list C) :
  concat (map (fun c => concat (map g (h c))) l) = concat (map g (concat (map h l))).
Proof.
  induction l as [|c l IH]; simpl.
  - reflexivity.
  - rewrite map_app, concat_app, IH. reflexivity.
Qed.

(** The parts of an array in the regions cut at increasing bounds are a
    rearrangement of the array. *)
Lemma regions_concat_perm {A : Type} (a : array2 A) (xv yv : list Z) :
  (forall n, StronglySorted le (map (slice_bound n) (0 :: xv))) ->
  (forall n, StronglySorted le (map (slice_bound n) (0 :: yv))) ->
  Permutation
    (concat (map (fun region : py_slice * py_slice => concat (slice2 region.2 region.1 a))
                 (pairs_of (tiles_from 0 xv) (tiles_from 0 yv))))
    (concat a).
Proof.
  intros Hx Hy. rewrite concat_pairs_of. cbn [fst snd].
  assert (E : forall x : py_slice,
             concat (map (fun y => concat (slice2 y x a)) (tiles_from 0 yv))
             = concat (map (slice1 x) a)).
  { intros x. unfold slice2.
    rewrite (concat_map_concat (slice1 x) (fun y => slice1 y a)).
    rewrite (tiles_concat a 0 yv (Hy (length a))), slice_bound_0. reflexivity. }
  rewrite (map_ext _ _ E).
  rewrite (concat_swap_perm (fun x row => slice1 x row) (tiles_from 0 xv) a).
  assert (E' : forall row : list A,
             concat (map (fun x => slice1 x row) (tiles_from 0 xv)) = row).
  { intros row. rewrite (tiles_concat row 0 xv (Hx (length row))), slice_bound_0.
    reflexivity. }
  rewrite (map_ext _ _ E'), map_id. reflexivity.
Qed.

(** X3.  Splitting the image loses and duplicates no sample: with split
    values of one sign per direction, [get_prf_data] returns for every region
    and for the whole image, and the samples of all the regions together are a
    rearrangement of the samples of the whole image. *)
Theorem split_regions_keep_samples (splits : list (direction * Z))
    (regions : list (py_slice * py_slice)) (args : extract_args_t) (frame : frame_t)
    (pixel_offsets : list (list cell)) :
  one_sign (split_values DirX splits) -> one_sign (split_values DirY splits) ->
  get_image_slices splits = Some regions ->
  map length (frame_data frame) = map length pixel_offsets ->
  map length (frame_stddev frame) = map length pixel_offsets ->
  exists (per_region : list (list sample)) (whole : list sample),
    map_result (region_prf_data args frame pixel_offsets) regions = Ok per_region /\
    get_prf_data (frame_data frame) (frame_stddev frame) pixel_offsets
                 (arg_error_threshold args) = Ok whole /\
    Permutation (concat per_region) whole.
Proof.
  intros Hx Hy Hr Hv Hs. rewrite get_image_slices_tiles in Hr. injection Hr as <-.
  set (S := samples2 (frame_data frame) (frame_stddev frame) pixel_offsets).
  set (thr := arg_error_threshold args).
  exists (map (fun region : py_slice * py_slice =>
                 List.filter (included thr) (concat (slice2 region.2 region.1 S)))
              (pairs_of (tiles_from 0 (split_values DirX (py_sorted splits)))
                        (tiles_from 0 (split_values DirY (py_sorted splits))))).
  exists (List.filter (included thr) (concat S)).
  split; [ | split ].
  - apply map_result_ok. intros [xs ys] _.
    apply region_prf_data_flat; assumption.
  - apply get_prf_data_flat; assumption.
  - rewrite (filter_concat_map (included thr)
               (fun region : py_slice * py_slice => concat (slice2 region.2 region.1 S))).
    apply filter_perm. apply regions_concat_perm.
    + intros n. apply sorted_split_bounds. exact Hx.
    + intros n. apply sorted_split_bounds. exact Hy.
Qed.

(** ** extract_pixel_data *)

Lemma elementwise_inv {A B C : Type} (f : A -> B -> C) (a : array2 A) (b : array2 B) r :
  elementwise f a b = Ok r -> map length a = map length b.
Proof.
  unfold elementwise, same_shape.
  destruct (bool_decide_reflect (map length a = map length b)) as [H|H];
    [ auto | discriminate ].
Qed.

Lemma get_prf_data_inv pv sd po thr l :
  get_prf_data pv sd po thr = Ok l ->
  map length pv = map length po /\ map length sd = map length po.
Proof.
  unfold get_prf_data. intros H. bind_inv H. bind_inv H.
  apply elementwise_inv in E, E0. auto.
Qed.

Lemma pad_prf_data_keeps data cfg r :
  pad_prf_data data cfg = Ok r -> 1 <= num_keep data cfg.
Proof.
  destruct r as [out dom]. intros H.
  apply pad_prf_data_inv in H as [pos H].
  apply pad_prf_data_state_inv in H as (mid & m & _ & _ & Hk & _). exact Hk.
Qed.

Lemma concat_empty_rows {A : Type} (a : array2 A) :
  Forall (fun n => n = 0%nat) (map length a) -> concat a = [].
Proof.
  induction a as [|row a IH]; simpl; intros H.
  - reflexivity.
  - inversion H as [|? ? H0 H']; subst.
    destruct row; [ | discriminate ]. apply IH, H'.
Qed.

(** A region with an empty range of rows or of columns has no pixel. *)
Lemma slice2_empty {A : Type} (shape : nat * nat) (ys xs : py_slice) (a : array2 A) :
  has_shape shape a = true ->
  (slice_hi shape.2 xs <= slice_lo shape.2 xs)%nat
  \/ (slice_hi shape.1 ys <= slice_lo shape.1 ys)%nat ->
  Forall (fun n => n = 0%nat) (map length (slice2 ys xs a)).
Proof.
  unfold has_shape. intros Hs He. apply bool_decide_eq_true in Hs.
  assert (Hlen : length a = shape.1)
    by (rewrite <- (length_map length a), Hs, length_replicate; reflexivity).
  unfold slice2. rewrite map_map. rewrite List.Forall_map.
  destruct He as [He|He].
  - apply List.Forall_forall. intros row Hrow.
    assert (Hr : In row a).
    { unfold slice1 in Hrow. apply list_elem_of_In in Hrow.
      apply subseteq_drop, subseteq_take in Hrow. apply list_elem_of_In. exact Hrow. }
    assert (Hl : length row = shape.2).
    { apply (in_map length) in Hr. rewrite Hs in Hr.
      apply list_elem_of_In, elem_of_replicate in Hr as [Hr _]. exact Hr. }
    rewrite length_slice1, Hl. lia.
  - assert (E : slice1 ys a = []).
    { apply length_zero_iff_nil. rewrite length_slice1, Hlen. lia. }
    rewrite E. constructor.
Qed.

Lemma region_prf_data_empty args frame po (xs ys : py_slice) l :
  has_shape (naxis2 frame, naxis1 frame) (frame_data frame) = true ->
  (slice_hi (naxis1 frame) xs <= slice_lo (naxis1 frame) xs)%nat
  \/ (slice_hi (naxis2 frame) ys <= slice_lo (naxis2 frame) ys)%nat ->
  region_prf_data args frame po (xs, ys) = Ok l -> l = [].
Proof.
  intros Hs He H. unfold region_prf_data in H.
  pose proof (get_prf_data_inv _ _ _ _ _ H) as [Hv Hd].
  rewrite get_prf_data_flat in H by assumption. injection H as <-.
  rewrite concat_empty_rows; [ reflexivity | ].
  unfold samples2. rewrite shape_zip_with.
  - exact (slice2_empty (naxis2 frame, naxis1 frame) ys xs _ Hs He).
  - rewrite (shape_zip_with pair) by exact Hd. congruence.
Qed.

(** What a returning call went through. *)
Lemma extract_pixel_data_inv args image_slices frame sources out :
  extract_pixel_data args image_slices frame sources = Returns out ->
  has_shape (naxis2 frame, naxis1 frame) (frame_data frame) = true /\
  exists pixel_offsets : list (list cell),
    find_pixel_offsets sources (prf_range (pad_args args)) (naxis2 frame, naxis1 frame)
                       (2 * arg_flux_aperture args)%Q = Ok pixel_offsets /\
    length out = length image_slices /\
    forall (i : nat) (region : py_slice * py_slice),
      image_slices !! i = Some region ->
      exists (prf_data : list sample) (padded : array4 * (Q * Q * Q * Q)),
        out !! i = Some (padded, region_centre (naxis2 frame, naxis1 frame)
                                               region.1 region.2) /\
        region_prf_data args frame pixel_offsets region = Ok prf_data /\
        pad_prf_data prf_data (pad_args args) = Ok padded.
Proof.
  unfold extract_pixel_data. cbv zeta.
  destruct (has_shape (naxis2 frame, naxis1 frame) (frame_data frame));
    [ | discriminate ].
  cbn [negb]. intros H. split; [ reflexivity | ].
  destruct (find_pixel_offsets sources (prf_range (pad_args args))
              (naxis2 frame, naxis1 frame) (2 * arg_flux_aperture args)%Q)
    as [po|e]; [ | discriminate ].
  cbn [bind] in H. exists po. split; [ reflexivity | ].
  match type of H with
  | outcome_of ?r = _ => destruct r as [res|e] eqn:E; [ | discriminate ]
  end.
  injection H as <-.
  apply map_result_inv in E as [Hlen Hall]. split; [ exact Hlen | ].
  intros i region Hi. destruct (Hall i region Hi) as (b & Hb & Hf).
  bind_inv Hf. bind_inv Hf. injection Hf as <-. eauto.
Qed.

(** X4.  [extract_pixel_data] is all or nothing: when it returns, the frame
    has the shape its header announces, [find_pixel_offsets] returned, the
    result has one entry per region in the order of the regions, and every
    region gave at least one sample that [pad_prf_data] keeps. *)
Theorem extract_pixel_data_every_region args image_slices frame sources out :
  extract_pixel_data args image_slices frame sources = Returns out ->
  map length (frame_data frame) = replicate (naxis2 frame) (naxis1 frame) /\
  exists pixel_offsets : list (list cell),
    find_pixel_offsets sources (prf_range (pad_args args)) (naxis2 frame, naxis1 frame)
                       (2 * arg_flux_aperture args)%Q = Ok pixel_offsets /\
    length out = length image_slices /\
    forall (i : nat) (region : py_slice * py_slice),
      image_slices !! i = Some region ->
      exists (prf_data : list sample) (padded : array4 * (Q * Q * Q * Q)),
        out !! i = Some (padded, region_centre (naxis2 frame, naxis1 frame)
                                               region.1 region.2) /\
        region_prf_data args frame pixel_offsets region = Ok prf_data /\
        pad_prf_data prf_data (pad_args args) = Ok padded /\
        1 <= num_keep prf_data (pad_args args).
Proof.
  intros H. apply extract_pixel_data_inv in H as (Hs & po & Hpo & Hlen & Hall).
  split; [ apply bool_decide_eq_true in Hs; exact Hs | ].
  exists po. split; [ exact Hpo | ]. split; [ exact Hlen | ].
  intros i region Hi. destruct (Hall i region Hi) as (d & p & Ho & Hd & Hp).
  exists d, p. pose proof (pad_prf_data_keeps _ _ _ Hp). auto.
Qed.

Lemma extract_pixel_data_no_empty_region args image_slices frame sources
    (region : py_slice * py_slice) out :
  In region image_slices ->
  (slice_hi (naxis1 frame) region.1 <= slice_lo (naxis1 frame) region.1)%nat
  \/ (slice_hi (naxis2 frame) region.2 <= slice_lo (naxis2 frame) region.2)%nat ->
  extract_pixel_data args image_slices frame sources <> Returns out.
Proof.
  intros Hin He H.
  apply extract_pixel_data_inv in H as (Hs & po & _ & _ & Hall).
  apply list_elem_of_In, list_elem_of_lookup_1 in Hin as [i Hi].
  destruct (Hall i region Hi) as (d & p & _ & Hd & Hp).
  destruct region as [xs ys].
  apply (region_prf_data_empty args frame po xs ys d Hs He) in Hd. subst d.
  apply pad_prf_data_keeps in Hp. unfold num_keep in Hp. simpl in Hp. lia.
Qed.

(** X5.  A region that selects no row or no column of the frame makes
    [extract_pixel_data] fail for all regions: it returns nothing. *)
Theorem extract_pixel_data_empty_region args image_slices frame sources
    (region : py_slice * py_slice) :
  In region image_slices ->
  (slice_hi (naxis1 frame) region.1 <= slice_lo (naxis1 frame) region.1)%nat
  \/ (slice_hi (naxis2 frame) region.2 <= slice_lo (naxis2 frame) region.2)%nat ->
  forall out, extract_pixel_data args image_slices frame sources <> Returns out.
Proof.
  intros Hin He out.
  exact (extract_pixel_data_no_empty_region args image_slices frame sources region out
           Hin He).
Qed.

Lemma tiles_from_In (s : Z) (vs : list Z) (v : Z) :
  In v vs ->
  (exists t, In t (tiles_from s vs) /\ sl_stop t = Some v) /\
  (exists t, In t (tiles_from s vs) /\ sl_start t = v).
Proof.
  revert s. induction vs as [|w vs IH]; intros s Hin; [ destruct Hin | ].
  cbn [tiles_from]. destruct Hin as [->|Hin].
  - split.
    + eexists. split; [ left; reflexivity | reflexivity ].
    + destruct vs as [|u vs]; eexists; (split; [ right; left; reflexivity | reflexivity ]).
  - destruct (IH w Hin) as [(t1 & H1 & E1) (t2 & H2 & E2)].
    split; [ exists t1 | exists t2 ]; (split; [ right; assumption | assumption ]).
Qed.

Lemma tiles_from_inv (s : Z) (vs : list Z) (t : py_slice) :
  In t (tiles_from s vs) ->
  (sl_start t = s \/ In (sl_start t) vs) /\
  (sl_stop t = None \/ exists v, sl_stop t = Some v /\ In v vs).
Proof.
  revert s. induction vs as [|w vs IH]; intros s Hin; cbn [tiles_from] in Hin.
  - destruct Hin as [<-|[]]. simpl. auto.
  - destruct Hin as [<-|Hin].
    + simpl. split; [ auto | ]. right. exists w. split; [ reflexivity | left; reflexivity ].
    + destruct (IH w Hin) as [[H1|H1] [H2|(v & H2 & H2')]].
      * split; [ right; left; congruence | auto ].
      * split; [ right; left; congruence | ].
        right. exists v. split; [ exact H2 | right; exact H2' ].
      * split; [ right; right; exact H1 | auto ].
      * split; [ right; right; exact H1 | ].
        right. exists v. split; [ exact H2 | right; exact H2' ].
Qed.

Lemma in_pairs_of {A B : Type} (xs : list A) (ys : list B) (a : A) (b : B) :
  In (a, b) (pairs_of xs ys) <-> In a xs /\ In b ys.
Proof.
  unfold pairs_of. rewrite in_flat_map. split.
  - intros (x & Hx & H). apply in_map_iff in H as (y & E & Hy).
    injection E as -> ->. auto.
  - intros [Ha Hb]. exists a. split; [ exact Ha | ].
    apply in_map_iff. exists b. auto.
Qed.

Lemma split_values_In (d : direction) (v : Z) (splits : list (direction * Z)) :
  In v (split_values d splits) <-> In (d, v) splits.
Proof.
  unfold split_values. rewrite in_map_iff. split.
  - intros ([d' v'] & E & H). simpl in E. subst v'.
    apply List.filter_In in H as [H Hd]. simpl in Hd.
    destruct d', d; try discriminate; exact H.
  - intros H. exists (d, v). split; [ reflexivity | ].
    apply List.filter_In. split; [ exact H | ]. destruct d; reflexivity.
Qed.

Lemma empty_tile (n : nat) (vs : list Z) (v : Z) :
  In v vs -> v = 0 \/ Z.of_nat n <= v \/ v <= - Z.of_nat n ->
  exists t, In t (tiles_from 0 vs) /\ (slice_hi n t <= slice_lo n t)%nat.
Proof.
  intros Hin Hv. destruct (tiles_from_In 0 vs v Hin) as [(t1 & H1 & E1) (t2 & H2 & E2)].
  destruct (Z_le_gt_dec (Z.of_nat n) v) as [Hge|Hlt].
  - exists t2. split; [ exact H2 | ].
    assert (slice_hi n t2 <= n)%nat
      by (unfold slice_hi; destruct (sl_stop t2); [ apply slice_bound_le | lia ]).
    unfold slice_lo. rewrite E2. unfold slice_bound.
    destruct (Z.ltb_spec v 0); lia.
  - exists t1. split; [ exact H1 | ].
    unfold slice_hi. rewrite E1. unfold slice_bound.
    destruct (Z.ltb_spec v 0); lia.
Qed.

(** X6.  A split value that is 0, or whose magnitude reaches the length of
    its axis, gives a region without pixels: with the regions of
    [get_image_slices] for such splits, [extract_pixel_data] returns
    nothing. *)
Theorem extract_pixel_data_split_outside args splits regions frame sources
    (d : direction) (v : Z) :
  let n := match d with DirX => naxis1 frame | DirY => naxis2 frame end in
  In (d, v) splits -> v = 0 \/ Z.of_nat n <= v \/ v <= - Z.of_nat n ->
  get_image_slices splits = Some regions ->
  forall out, extract_pixel_data args regions frame sources <> Returns out.
Proof.
  intros n Hin Hv Hr out. rewrite get_image_slices_tiles in Hr. injection Hr as <-.
  assert (Hin' : In v (split_values d (py_sorted splits))).
  { apply split_values_In. apply (Permutation_in _ (Permutation_sym (py_sorted_perm splits))).
    exact Hin. }
  destruct (empty_tile n _ v Hin' Hv) as (t & Ht & He).
  destruct d.
  - destruct (tiles_from 0 (split_values DirY (py_sorted splits))) as [|u us] eqn:E.
    + exfalso. exact (tiles_from_nonempty _ _ E).
    + rewrite <- E.
      apply (extract_pixel_data_no_empty_region args _ frame sources (t, u)).
      * apply in_pairs_of. split; [ exact Ht | rewrite E; left; reflexivity ].
      * left. exact He.
  - destruct (tiles_from 0 (split_values DirX (py_sorted splits))) as [|u us] eqn:E.
    + exfalso. exact (tiles_from_nonempty _ _ E).
    + rewrite <- E.
      apply (extract_pixel_data_no_empty_region args _ frame sources (u, t)).
      * apply in_pairs_of. split; [ rewrite E; left; reflexivity | exact Ht ].
      * right. exact He.
Qed.

(** ** find_pixel_offsets: when it returns, and the grid it returns *)

Lemma broadcast_to_ok_iff {A : Type} (n : nat) (v : list A) :
  (exists v', broadcast_to n v = Ok v') <-> length v = n \/ length v = 1%nat.
Proof.
  unfold broadcast_to. destruct (Nat.eqb_spec (length v) n) as [He|He].
  - split; eauto.
  - destruct v as [|a [|b v]]; simpl in *; split;
      try (intros [v' H]; discriminate H); try (intros [H|H]; lia); eauto.
Qed.

(** Along an axis of length [n], with bounds in [0, n]: the offsets can be
    assigned when the upper bound is not negative, or lies so far below zero
    that the slice it ends, counted from the end of the axis, is empty. *)
Lemma axis_broadcast_iff (n : nat) (lo hi : Z) (c : fval) :
  0 <= lo -> hi <= Z.of_nat n ->
  (exists v, broadcast_to (slice_bound n hi - slice_bound n lo) (offsets_1d lo hi c) = Ok v)
  <-> (0 <= hi \/ hi + Z.of_nat n <= lo).
Proof.
  intros Hlo Hhi. rewrite broadcast_to_ok_iff, length_offsets_1d.
  unfold slice_bound.
  destruct (Z.ltb_spec hi 0), (Z.ltb_spec lo 0); lia.
Qed.

(** X7.  [find_pixel_offsets] returns only if every source has a finite
    position and, along each axis, the upper bound of its clipped rectangle
    is not negative or is at least one axis length below the lower bound: a
    [nan] or infinite coordinate, or a rectangle that ends less than one axis
    length before the image, makes it raise. *)
Theorem find_pixel_offsets_returns_only_if sources pr res cd g :
  find_pixel_offsets sources pr res cd = Ok g ->
  Forall (fun s =>
            (exists qx qy : Q, src_x s = Num qx /\ src_y s = Num qy) /\
            exists min_x max_x min_y max_y : Z,
              source_bounds pr res s = Ok (min_x, max_x, min_y, max_y) /\
              (0 <= max_x \/ max_x + Z.of_nat res.2 <= min_x) /\
              (0 <= max_y \/ max_y + Z.of_nat res.1 <= min_y))
         sources.
Proof.
  intros Hg.
  assert (H : Forall (source_ok pr res) sources)
    by (apply (find_pixel_offsets_ok sources pr res cd); eauto).
  eapply Forall_impl; [ exact H | ].
  intros s (min_x & max_x & min_y & max_y & xs & ys & Hb & Hx & Hy). simpl.
  destruct (source_bounds_range _ _ _ _ _ _ _ Hb) as (Hfin & Hx0 & Hx1 & Hy0 & Hy1).
  split; [ exact Hfin | ].
  exists min_x, max_x, min_y, max_y. split; [ exact Hb | ]. split.
  - apply (axis_broadcast_iff res.2 min_x max_x (src_x s) Hx0 Hx1). eauto.
  - apply (axis_broadcast_iff res.1 min_y max_y (src_y s) Hy0 Hy1). eauto.
Qed.

Lemma shape_imap {A B : Type} (h : nat -> list A -> list B) (a : array2 A) :
  (forall y row, length (h y row) = length row) ->
  map length (imap h a) = map length a.
Proof.
  revert h. induction a as [|row a IH]; intros h Hh; simpl.
  - reflexivity.
  - rewrite Hh. f_equal. apply IH. intros y r. apply Hh.
Qed.

Lemma shape_imap2 {A B : Type} (f : nat -> nat -> A -> B) (a : array2 A) :
  map length (imap2 f a) = map length a.
Proof.
  unfold imap2. apply shape_imap. intros y row. apply length_imap.
Qed.

Lemma shape_full {A : Type} (shape : nat * nat) (v : A) :
  map length (full shape v) = replicate shape.1 shape.2.
Proof.
  unfold full. induction shape.1 as [|n IH]; simpl.
  - reflexivity.
  - rewrite length_replicate, IH. reflexivity.
Qed.

Lemma process_source_shape pr res R S sc R' S' :
  process_source pr res (R, S) sc = Ok (R', S') ->
  map length R' = map length R /\ map length S' = map length S.
Proof.
  unfold process_source. destruct sc as [s crowded]. intros H.
  bind_inv H. destruct a as [[[min_x max_x] min_y] max_y].
  bind_inv H. bind_inv H. injection H as <- <-.
  split; apply shape_imap2.
Qed.

Lemma for_each_shape pr res l R S R' S' :
  for_each (process_source pr res) l (R, S) = Ok (R', S') ->
  map length R' = map length R /\ map length S' = map length S.
Proof.
  revert R S. induction l as [|sc l IH]; intros R S H; simpl in H.
  - injection H as <- <-. auto.
  - bind_inv H. destruct a as [R1 S1].
    apply process_source_shape in E as [E1 E2].
    apply IH in H as [H1 H2]. split; congruence.
Qed.

(** X9.  The grid [find_pixel_offsets] returns has the shape
    [image_resolution]: [image_resolution[0]] rows of [image_resolution[1]]
    cells, whatever the sources. *)
Theorem find_pixel_offsets_shape sources pr res cd g :
  find_pixel_offsets sources pr res cd = Ok g ->
  map length g = replicate res.1 res.2.
Proof.
  unfold find_pixel_offsets. intros H. bind_inv H. destruct a as [R S].
  injection H as <-. cbn [fst snd].
  apply for_each_shape in E as [E _].
  unfold invalidate. rewrite shape_imap2, E. apply shape_full.
Qed.



Lemma find_pixel_offsets_inside sources pr res cd g (y x : nat) (c : cell) :
  find_pixel_offsets sources pr res cd = Ok g -> at2 g y x = Some c ->
  (y < res.1)%nat /\ (x < res.2)%nat /\
  c = final_cell pr res y x (source_list sources cd).
Proof.
  intros Hg Hc.
  destruct (decide ((y < res.1)%nat /\ (x < res.2)%nat)) as [[Hy Hx]|H].
  - rewrite (find_pixel_offsets_cell _ _ _ _ _ y x Hg Hy Hx) in Hc.
    injection Hc as <-. auto.
  - rewrite (find_pixel_offsets_outside _ _ _ _ _ y x Hg H) in Hc. discriminate.
Qed.



(** ** The samples of a grid of find_pixel_offsets *)



(** ** When pad_prf_data returns *)

(** X14.  [pad_prf_data] returns only if a real sample is kept, the number
    of padding points is not negative, the pad fraction is not zero (so that
    [middle_npoints] is computed) and [middle_npoints] is not negative, or
    is -1 with one padding point; in every other case it raises. *)
Theorem pad_prf_data_returns_only_if data cfg r :
  pad_prf_data data cfg = Ok r ->
  1 <= num_keep data cfg /\ 0 <= spline_pad_npoints cfg /\
  ~ spline_pad_fraction cfg == 0 /\
  exists mid : Z,
    middle_npoints cfg = Ok mid /\
    (0 <= mid \/ (spline_pad_npoints cfg = 1 /\ mid = -1)).
Proof.
  destruct r as [out dom]. intros H. apply pad_prf_data_inv in H as [pos H].
  apply pad_prf_data_state_writes in H as (mid & m & H). cbn zeta in H.
  destruct H as (Hmid & _ & Hk & HX & Hnp & Hm2 & Hw & _).
  split; [ exact Hk | ]. split; [ exact Hnp | ].
  split; [ destruct (middle_npoints_inv cfg mid Hmid) as (v & Hf & _); exact Hf | ].
  exists mid. split; [ exact Hmid | ].
  destruct (Z_le_gt_dec 0 mid) as [Hpos|Hneg]; [ left; exact Hpos | right ].
  assert (Hn0 : spline_pad_npoints cfg <> 0).
  { intros E. pose proof (middle_npoints_zero cfg mid Hmid E). lia. }
  assert (Hn2 : spline_pad_npoints cfg < 2).
  { destruct (Z_lt_ge_dec (spline_pad_npoints cfg) 2) as [Hlt|Hge]; [ exact Hlt | ].
    exfalso.
    destruct (synthetic_blocks_negative_middle cfg mid Hnp ltac:(lia)) as [HL HF].
    apply write_all_bound in Hw; [ | lia | apply HF; lia ].
    rewrite HL in Hw. unfold real_samples_array in Hw. cbn [row0] in Hw.
    rewrite length_app, !length_map, length_replicate in Hw.
    rewrite num_keep_length in Hw. nia. }
  split; [ lia | ]. nia.
Qed.

(** ** The order of the splits, and the labels of the regions *)

Lemma split_le_antisym (a b : direction * Z) :
  split_le a b = true -> split_le b a = true -> a = b.
Proof.
  unfold split_le. destruct a as [[] a], b as [[] b]; simpl; try discriminate;
    rewrite !Z.leb_le; intros; f_equal; lia.
Qed.

Lemma sorted_perm_eq (l l' : list (direction * Z)) :
  StronglySorted (fun u v => split_le u v = true) l ->
  StronglySorted (fun u v => split_le u v = true) l' ->
  Permutation l l' -> l = l'.
Proof.
  intros Hl. revert l'. induction Hl as [|a l Hl IH Ha]; intros l' Hl' Hp.
  - apply Permutation_nil in Hp. congruence.
  - destruct Hl' as [|b l' Hl' Hb].
    + apply Permutation_sym, Permutation_nil in Hp. discriminate.
    + assert (E : a = b).
      { assert (Hab : In a (b :: l')) by (apply (Permutation_in _ Hp); left; reflexivity).
        assert (Hba : In b (a :: l))
          by (apply (Permutation_in _ (Permutation_sym Hp)); left; reflexivity).
        destruct Hab as [->|Hab]; [ reflexivity | ].
        destruct Hba as [->|Hba]; [ reflexivity | ].
        rewrite List.Forall_forall in Ha, Hb.
        apply split_le_antisym; [ apply Ha, Hba | apply Hb, Hab ]. }
      subst b. f_equal. apply IH; [ exact Hl' | ].
      exact (Permutation_cons_inv Hp).
Qed.

(** X15.  The order in which the splits are given does not matter:
    [get_image_slices] returns the same regions, in the same order, for any
    rearrangement of the list of splits. *)
Theorem get_image_slices_order_irrelevant (splits splits' : list (direction * Z)) :
  Permutation splits splits' ->
  get_image_slices splits = get_image_slices splits'.
Proof.
  intros Hp. rewrite !get_image_slices_tiles.
  assert (E : py_sorted splits = py_sorted splits').
  { apply sorted_perm_eq; try apply py_sorted_sorted.
    rewrite (py_sorted_perm splits), (py_sorted_perm splits'). exact Hp. }
  rewrite E. reflexivity.
Qed.

Lemma tile_centre (n : nat) (vs : list Z) (t : py_slice) :
  Forall (fun v => 0 < v <= Z.of_nat n) vs -> In t (tiles_from 0 vs) ->
  sl_start t + stop_or t n = Z.of_nat (slice_lo n t + slice_hi n t).
Proof.
  intros Hv Ht. rewrite List.Forall_forall in Hv.
  destruct (tiles_from_inv 0 vs t Ht) as [Hs He].
  assert (Hs' : 0 <= sl_start t <= Z.of_nat n)
    by (destruct Hs as [->|Hs]; [ lia | specialize (Hv _ Hs); lia ]).
  unfold slice_lo, slice_hi, stop_or.
  rewrite slice_bound_nonneg by lia.
  destruct He as [->|(v & -> & Hin)].
  - lia.
  - specialize (Hv v Hin). rewrite slice_bound_nonneg by lia.
    destruct (Z.eqb_spec v 0); lia.
Qed.

(** X16.  When every split value lies inside the image (greater than 0 and
    at most the length of its axis), the two numbers of the label of each
    region of [get_image_slices] are the midpoints of the columns and of the
    rows the region selects. *)
Theorem region_centre_midpoint (splits : list (direction * Z))
    (regions : list (py_slice * py_slice)) (shape : nat * nat)
    (region : py_slice * py_slice) :
  Forall (fun v => 0 < v <= Z.of_nat shape.2) (split_values DirX splits) ->
  Forall (fun v => 0 < v <= Z.of_nat shape.1) (split_values DirY splits) ->
  get_image_slices splits = Some regions -> In region regions ->
  region_centre shape region.1 region.2
  = ((inject_Z (Z.of_nat (slice_lo shape.2 region.1 + slice_hi shape.2 region.1)) / 2)%Q,
     (inject_Z (Z.of_nat (slice_lo shape.1 region.2 + slice_hi shape.1 region.2)) / 2)%Q).
Proof.
  intros Hx Hy Hr Hin. rewrite get_image_slices_tiles in Hr. injection Hr as <-.
  destruct region as [xs ys]. apply in_pairs_of in Hin as [Hxs Hys].
  pose proof (split_values_perm DirX _ _ (py_sorted_perm splits)) as Px.
  pose proof (split_values_perm DirY _ _ (py_sorted_perm splits)) as Py.
  apply (Permutation_Forall (Permutation_sym Px)) in Hx.
  apply (Permutation_Forall (Permutation_sym Py)) in Hy.
  unfold region_centre. cbn [fst snd].
  rewrite (tile_centre shape.2 _ xs Hx Hxs), (tile_centre shape.1 _ ys Hy Hys).
  reflexivity.
Qed.

(** ** The crowding distance *)

Lemma within_mono (cd cd' : Q) (s t : source) :
  (0 <= cd)%Q -> (cd <= cd')%Q -> within cd s t = true -> within cd' s t = true.
Proof.
  intros H0 Hle. unfold within.
  destruct (src_x s), (src_y s), (src_x t), (src_y t); try discriminate.
  rewrite !Qle_bool_iff. intros H.
  assert (cd * cd <= cd' * cd')%Q by nra. lra.
Qed.

Lemma filter_length_mono {A : Type} (f g : A -> bool) (l : list A) :
  (forall a, f a = true -> g a = true) ->
  (length (List.filter f l) <= length (List.filter g l))%nat.
Proof.
  intros H. induction l as [|a l IH]; simpl; [ lia | ].
  destruct (f a) eqn:E.
  - rewrite (H a E). simpl. lia.
  - destruct (g a); simpl; lia.
Qed.

Lemma count_map_pair {A B : Type} (f : A -> bool) (flag : A -> B) (l : list A) :
  length (List.filter (fun sc : A * B => f sc.1) (map (fun s => (s, flag s)) l))
  = length (List.filter f l).
Proof.
  induction l as [|s l IH]; simpl; [ reflexivity | ].
  destruct (f s); simpl; rewrite IH; reflexivity.
Qed.

Lemma cover_count_source_list pr res (y x : nat) sources cd :
  cover_count pr res y x (source_list sources cd)
  = length (List.filter (fun s => covers pr res s y x) sources).
Proof.
  rewrite source_list_eq. unfold cover_count.
  apply (count_map_pair (fun s => covers pr res s y x)).
Qed.

Lemma crowded_cover_mono pr res (y x : nat) sources cd cd' :
  (0 <= cd)%Q -> (cd <= cd')%Q ->
  crowded_cover pr res y x (source_list sources cd) = true ->
  crowded_cover pr res y x (source_list sources cd') = true.
Proof.
  intros H0 Hle. rewrite !source_list_eq. unfold crowded_cover.
  rewrite !existsb_exists. intros ([s b] & Hin & H).
  apply in_map_iff in Hin as (s' & E & Hin). injection E as -> <-.
  cbn [fst snd] in H. apply andb_true_iff in H as [Hc Hf].
  exists (s, (1 <? query_ball_count sources cd' s)%nat). split.
  - apply in_map_iff. exists s. auto.
  - cbn [fst snd]. rewrite Hc. simpl.
    apply Nat.ltb_lt in Hf. apply Nat.ltb_lt.
    pose proof (filter_length_mono (within cd s) (within cd' s) sources
                  (fun t => within_mono cd cd' s t H0 Hle)) as Hm.
    unfold query_ball_count in *. lia.
Qed.

(** X17.  A larger crowding distance only invalidates more: whether
    [find_pixel_offsets] returns does not depend on the crowding distance,
    and every pixel that is invalid with a distance [cd >= 0] is invalid with
    any larger distance. *)
Theorem larger_crowding_distance_invalidates_more sources pr res (cd cd' : Q) g :
  (0 <= cd)%Q -> (cd <= cd')%Q ->
  find_pixel_offsets sources pr res cd = Ok g ->
  exists g',
    find_pixel_offsets sources pr res cd' = Ok g' /\
    forall y x : nat, at2 g y x = Some nan_cell -> at2 g' y x = Some nan_cell.
Proof.
  intros H0 Hle Hg.
  assert (Hok : exists g', find_pixel_offsets sources pr res cd' = Ok g').
  { apply find_pixel_offsets_ok. apply (find_pixel_offsets_ok sources pr res cd). eauto. }
  destruct Hok as [g' Hg']. exists g'. split; [ exact Hg' | ].
  intros y x Hc.
  destruct (find_pixel_offsets_inside _ _ _ _ _ _ _ _ Hg Hc) as (Hy & Hx & Hf).
  rewrite (find_pixel_offsets_cell _ _ _ _ _ y x Hg' Hy Hx). f_equal.
  symmetry in Hf. apply final_cell_invalid in Hf. apply final_cell_invalid.
  rewrite !cover_count_source_list in *.
  destruct (crowded_cover pr res y x (source_list sources cd)) eqn:E.
  - rewrite (crowded_cover_mono pr res y x sources cd cd' H0 Hle E). reflexivity.
  - destruct (crowded_cover pr res y x (source_list sources cd'));
      [ reflexivity | exact Hf ].
Qed.

(** ** An image that is not split *)

Lemma slice1_whole {A : Type} (l : list A) :
  slice1 {| sl_start := 0; sl_stop := None |} l = l.
Proof.
  unfold slice1, slice_lo, slice_hi. cbn [sl_start sl_stop].
  rewrite slice_bound_0, firstn_all. reflexivity.
Qed.

Lemma slice2_whole {A : Type} (a : array2 A) :
  slice2 {| sl_start := 0; sl_stop := None |} {| sl_start := 0; sl_stop := None |} a = a.
Proof.
  unfold slice2. rewrite slice1_whole.
  induction a as [|row a IH]; simpl; [ reflexivity | ].
  rewrite slice1_whole, IH. reflexivity.
Qed.

(** X18.  Without splits the image is one region, the whole frame: its PRF
    data are those of [get_prf_data] on the unsliced arrays, and its label is
    the centre of the image. *)
Theorem no_split_whole_image args frame (pixel_offsets : list (list cell)) :
  exists region : py_slice * py_slice,
    get_image_slices [] = Some [region] /\
    region_prf_data args frame pixel_offsets region
    = get_prf_data (frame_data frame) (frame_stddev frame) pixel_offsets
                   (arg_error_threshold args) /\
    region_centre (naxis2 frame, naxis1 frame) region.1 region.2
    = ((inject_Z (Z.of_nat (naxis1 frame)) / 2)%Q,
       (inject_Z (Z.of_nat (naxis2 frame)) / 2)%Q).
Proof.
  eexists. split; [ reflexivity | ]. split.
  - unfold region_prf_data. rewrite !slice2_whole. reflexivity.
  - reflexivity.
Qed.

(** ** The further properties at concrete inputs *)

Lemma split_regions_keep_samples_witness :
  one_sign (split_values DirX split_x4) /\ one_sign (split_values DirY split_x4) /\
  get_image_slices split_x4 = Some regions_x4 /\
  exists (per_region : list (list sample)) (whole : list sample),
    map_result (region_prf_data extract_args_3_2 frame_6_8 grid_two_sources) regions_x4
    = Ok per_region /\
    get_prf_data (frame_data frame_6_8) (frame_stddev frame_6_8) grid_two_sources
                 (arg_error_threshold extract_args_3_2) = Ok whole /\
    Permutation (concat per_region) whole.
Proof.
  assert (Hx : one_sign (split_values DirX split_x4))
    by (left; cbn; repeat constructor; lia).
  assert (Hy : one_sign (split_values DirY split_x4)) by (left; cbn; constructor).
  assert (Hr : get_image_slices split_x4 = Some regions_x4) by reflexivity.
  split; [ exact Hx | ]. split; [ exact Hy | ]. split; [ exact Hr | ].
  apply (split_regions_keep_samples split_x4 regions_x4 extract_args_3_2 frame_6_8
           grid_two_sources Hx Hy Hr); reflexivity.
Defined.

Lemma extract_pixel_data_every_region_witness :
  extract_pixel_data extract_args_3_2 regions_x4 frame_6_8 two_sources
  = Returns extracted_x4 /\
  map length (frame_data frame_6_8) = replicate 6 8%nat /\
  exists pixel_offsets : list (list cell),
    find_pixel_offsets two_sources range_3_2_1_1 (6%nat, 8%nat) (2 * (1 # 2))%Q
    = Ok pixel_offsets /\
    length extracted_x4 = length regions_x4 /\
    forall (i : nat) (region : py_slice * py_slice),
      regions_x4 !! i = Some region ->
      exists (prf_data : list sample) (padded : array4 * (Q * Q * Q * Q)),
        extracted_x4 !! i
        = Some (padded, region_centre (6%nat, 8%nat) region.1 region.2) /\
        region_prf_data extract_args_3_2 frame_6_8 pixel_offsets region = Ok prf_data /\
        pad_prf_data prf_data (pad_args extract_args_3_2) = Ok padded /\
        1 <= num_keep prf_data (pad_args extract_args_3_2).
Proof.
  assert (H : extract_pixel_data extract_args_3_2 regions_x4 frame_6_8 two_sources
              = Returns extracted_x4) by (vm_compute; reflexivity).
  split; [ exact H | ].
  exact (extract_pixel_data_every_region extract_args_3_2 regions_x4 frame_6_8
           two_sources extracted_x4 H).
Defined.

Lemma extract_pixel_data_empty_region_witness :
  In region_no_columns [region_no_columns] /\
  (slice_hi 8 region_no_columns.1 <= slice_lo 8 region_no_columns.1)%nat /\
  forall out,
    extract_pixel_data extract_args_3_2 [region_no_columns] frame_6_8 two_sources
    <> Returns out.
Proof.
  assert (Hin : In region_no_columns [region_no_columns]) by (left; reflexivity).
  assert (He : (slice_hi 8 region_no_columns.1 <= slice_lo 8 region_no_columns.1)%nat)
    by (vm_compute; lia).
  split; [ exact Hin | ]. split; [ exact He | ].
  exact (extract_pixel_data_empty_region extract_args_3_2 [region_no_columns] frame_6_8
           two_sources region_no_columns Hin (or_introl He)).
Defined.

Lemma extract_pixel_data_split_outside_witness :
  In (DirX, 8) [(DirY, 3); (DirX, 8)] /\ Z.of_nat (naxis1 frame_6_8) <= 8 /\
  exists regions,
    get_image_slices [(DirY, 3); (DirX, 8)] = Some regions /\
    forall out,
      extract_pixel_data extract_args_3_2 regions frame_6_8 two_sources <> Returns out.
Proof.
  assert (Hin : In (DirX, 8) [(DirY, 3); (DirX, 8)]) by (right; left; reflexivity).
  assert (Hv : Z.of_nat (naxis1 frame_6_8) <= 8) by (simpl; lia).
  split; [ exact Hin | ]. split; [ exact Hv | ].
  eexists. split; [ reflexivity | ].
  exact (extract_pixel_data_split_outside extract_args_3_2 [(DirY, 3); (DirX, 8)] _
           frame_6_8 two_sources DirX 8 Hin (or_intror (or_introl Hv)) eq_refl).
Defined.

Lemma find_pixel_offsets_returns_only_if_witness :
  Forall (fun s =>
            (exists qx qy : Q, src_x s = Num qx /\ src_y s = Num qy) /\
            exists min_x max_x min_y max_y : Z,
              source_bounds range_3_2_1_1 res_6_8 s = Ok (min_x, max_x, min_y, max_y) /\
              (0 <= max_x \/ max_x + Z.of_nat res_6_8.2 <= min_x) /\
              (0 <= max_y \/ max_y + Z.of_nat res_6_8.1 <= min_y))
         two_sources.
Proof.
  apply (find_pixel_offsets_returns_only_if two_sources range_3_2_1_1 res_6_8 1
                                            grid_two_sources).
  vm_compute. reflexivity.
Defined.

Lemma pad_prf_data_returns_only_if_witness :
  1 <= num_keep three_samples args_half_1 /\ 0 <= spline_pad_npoints args_half_1 /\
  ~ spline_pad_fraction args_half_1 == 0 /\
  exists mid : Z,
    middle_npoints args_half_1 = Ok mid /\
    (0 <= mid \/ (spline_pad_npoints args_half_1 = 1 /\ mid = -1)).
Proof.
  apply (pad_prf_data_returns_only_if three_samples args_half_1
           (padded_three_samples.1.1, padded_three_samples.2)).
  vm_compute. reflexivity.
Defined.

Lemma find_pixel_offsets_shape_witness :
  find_pixel_offsets two_sources range_3_2_1_1 res_6_8 1 = Ok grid_two_sources /\
  map length grid_two_sources = replicate 6 8%nat.
Proof.
  assert (Hg : find_pixel_offsets two_sources range_3_2_1_1 res_6_8 1
               = Ok grid_two_sources) by (vm_compute; reflexivity).
  split; [ exact Hg | ].
  exact (find_pixel_offsets_shape two_sources range_3_2_1_1 res_6_8 1 grid_two_sources Hg).
Defined.



Lemma get_image_slices_order_irrelevant_witness :
  Permutation [(DirY, 5); (DirX, 3); (DirX, 1)] [(DirX, 1); (DirY, 5); (DirX, 3)] /\
  get_image_slices [(DirY, 5); (DirX, 3); (DirX, 1)]
  = get_image_slices [(DirX, 1); (DirY, 5); (DirX, 3)].
Proof.
  assert (Hp : Permutation [(DirY, 5); (DirX, 3); (DirX, 1)]
                           [(DirX, 1); (DirY, 5); (DirX, 3)]).
  { apply Permutation_sym.
    apply (Permutation_cons_app [(DirY, 5); (DirX, 3)] [] (DirX, 1)).
    rewrite app_nil_r. apply Permutation_refl. }
  split; [ exact Hp | ].
  exact (get_image_slices_order_irrelevant _ _ Hp).
Defined.

Lemma region_centre_midpoint_witness :
  get_image_slices split_x4 = Some regions_x4 /\
  forall region, In region regions_x4 ->
    region_centre res_6_8 region.1 region.2
    = ((inject_Z (Z.of_nat (slice_lo 8 region.1 + slice_hi 8 region.1)) / 2)%Q,
       (inject_Z (Z.of_nat (slice_lo 6 region.2 + slice_hi 6 region.2)) / 2)%Q).
Proof.
  assert (Hr : get_image_slices split_x4 = Some regions_x4) by reflexivity.
  split; [ exact Hr | ]. intros region Hin.
  apply (region_centre_midpoint split_x4 regions_x4 res_6_8 region); try assumption.
  - cbn. repeat constructor; lia.
  - cbn. constructor.
Defined.

Lemma larger_crowding_distance_invalidates_more_witness :
  (0 <= 1)%Q /\ (1 <= 3)%Q /\
  find_pixel_offsets two_sources range_3_2_1_1 res_6_8 1 = Ok grid_two_sources /\
  exists g',
    find_pixel_offsets two_sources range_3_2_1_1 res_6_8 3 = Ok g' /\
    forall y x : nat,
      at2 grid_two_sources y x = Some nan_cell -> at2 g' y x = Some nan_cell.
Proof.
  assert (H0 : (0 <= 1)%Q) by discriminate.
  assert (H1 : (1 <= 3)%Q) by discriminate.
  assert (Hg : find_pixel_offsets two_sources range_3_2_1_1 res_6_8 1
               = Ok grid_two_sources) by (vm_compute; reflexivity).
  split; [ exact H0 | ]. split; [ exact H1 | ]. split; [ exact Hg | ].
  exact (larger_crowding_distance_invalidates_more two_sources range_3_2_1_1 res_6_8
           1 3 grid_two_sources H0 H1 Hg).
Defined.
